(** * A shallow embedding of the [bdd_u16] BDD engine of biodivine-lib-bdd

    The development follows the Rust sources of [src/bdd_u16] (the 16-bit
    pointer codec, the [Bdd] container, the uniqueness table and operation
    cache of [apply], and [apply] itself) and of the lossy operation cache
    [src/_impl_bdd/cache2.rs].

    Machine integers are modelled as [Z] with their wrap-around written out.
    Code that can panic returns [option]: [None] is a panic. *)

From Stdlib Require Import ZArith Lia Bool List Sorted.
From stdpp Require Import base gmap list sorting.

Open Scope Z_scope.

(* ------------------------------------------------------------------ *)
(** ** Machine-integer helpers *)

Definition u16_max : Z := 2 ^ 16.
Definition u32_max : Z := 2 ^ 32.

(** [x.shl(s)] on a [u16]: bits shifted out are lost. *)
Definition shl16 (x s : Z) : Z := Z.land (Z.shiftl x s) (u16_max - 1).

(** [x.shr(s)] on a [u16]. *)
Definition shr16 (x s : Z) : Z := Z.shiftr x s.

(** Checked [u16] addition (a debug build panics on overflow). *)
Definition add16 (x y : Z) : option Z :=
  if x + y <? u16_max then Some (x + y) else None.

(** [u16::trailing_zeros]: counted over the 16 bits of the word. *)
Fixpoint tz_aux (n : nat) (x : Z) : Z :=
  match n with
  | O => 0
  | S n' => if Z.testbit x 0 then 0 else 1 + tz_aux n' (Z.shiftr x 1)
  end.

Definition trailing_zeros (x : Z) : Z := tz_aux 16 x.

(* ------------------------------------------------------------------ *)
(** ** [NodePointer] and [VariableId] (mod.rs, _impl_node_pointer.rs) *)

(** [struct NodePointer(u16)] *)
Abbreviation NodePointer := Z (only parsing).
(** [pub struct VariableId(pub u32)] *)
Abbreviation VariableId := Z (only parsing).

Module NodePointer.

Definition VAR_BLOCK_SIZE : Z := 4.

Definition zero : NodePointer := 0.
Definition one : NodePointer := 32768. (* 0b_1000_0000_0000_0000 *)

Definition terminal (value : bool) : NodePointer :=
  if value then one else zero.

Definition is_terminal (p : NodePointer) : bool :=
  Z.land p 32767 =? 0.

Definition as_bool (p : NodePointer) : option bool :=
  if is_terminal p then Some (negb (p =? 0)) else None.

Definition is_one (p : NodePointer) : bool := p =? 32768.
Definition is_zero (p : NodePointer) : bool := p =? 0.

Definition flip_if_terminal (p : NodePointer) : NodePointer :=
  if is_one p then zero else if is_zero p then one else p.

(** The [block_rank] computed by [NodePointer::new]. In the low-block branch
    the [u32] subtraction [0b0111 - block_id] is masked with [0b0111], so a
    wrap-around does not change the low three bits that [Z.land] keeps. *)
Definition block_rank_of (variable : VariableId) : Z :=
  let block_id := variable / VAR_BLOCK_SIZE in
  let is_low_block := Z.land block_id 8 =? 0 in
  if is_low_block then Z.land (7 - block_id) 7 else Z.land block_id 7.

(** [NodePointer::new(variable, node_index)]; [None] is a panic. *)
Definition new (variable : VariableId) (node_index : Z) : option NodePointer :=
  let id_in_block := variable mod VAR_BLOCK_SIZE in
  let block_id := variable / VAR_BLOCK_SIZE in
  let is_low_block := Z.land block_id 8 =? 0 in
  let block_rank := block_rank_of variable in
  (* u16::try_from(node_index) *)
  if negb ((0 <=? node_index) && (node_index <? u16_max)) then None else
  let pointer := node_index in
  let total_shift := block_rank + 4 in
  if negb (shr16 (shl16 pointer total_shift) total_shift =? pointer) then None else
  let high_flag := if is_low_block then 0 else 1 in
  match add16 (shl16 pointer 3) (Z.land (Z.shiftl id_in_block 1) (u16_max - 1)) with
  | None => None
  | Some a =>
    match add16 a high_flag with
    | None => None
    | Some pointer =>
      match add16 (shl16 pointer 1) 1 with
      | None => None
      | Some b => Some (shl16 b block_rank)
      end
    end
  end.

(** [is_pointer]: terminals and words with at most 8 trailing zeros. *)
Definition is_pointer (p : NodePointer) : bool :=
  is_terminal p || (trailing_zeros p <=? 8).

Definition is_non_trivial (p : NodePointer) : bool :=
  is_pointer p && negb (is_terminal p).

(** [variable_id]; only meaningful on non-trivial pointers (the source has a
    [debug_assert!] for that), so the release behaviour is modelled: the
    [u32] arithmetic wraps, which the final [mod] writes out. *)
Definition variable_id (p : NodePointer) : VariableId :=
  let block_rank := trailing_zeros p in
  let sans_rank := shr16 p (block_rank + 1) in
  let is_low_block := Z.land sans_rank 1 =? 0 in
  let id_in_block := Z.land (shr16 sans_rank 1) 3 in
  let block_id := if is_low_block then 7 - block_rank else 8 + block_rank in
  (VAR_BLOCK_SIZE * block_id + id_in_block) mod u32_max.

Definition node_index (p : NodePointer) : Z :=
  shr16 p (trailing_zeros p + 4).

End NodePointer.

(** The unit tests of _impl_node_pointer.rs, evaluated on the model. *)
Example node_pointer_encoding_1 :
  NodePointer.new 3 21 = Some 44672 /\
  NodePointer.variable_id 44672 = 3 /\ NodePointer.node_index 44672 = 21.
Proof. vm_compute. auto. Qed.

Example node_pointer_encoding_2 :
  NodePointer.new 61 10 = Some 21376 /\
  NodePointer.variable_id 21376 = 61 /\ NodePointer.node_index 21376 = 10.
Proof. vm_compute. auto. Qed.

Example node_pointer_encoding_3 :
  NodePointer.new 32 2730 = Some 43683 /\
  NodePointer.variable_id 43683 = 32 /\ NodePointer.node_index 43683 = 2730.
Proof. vm_compute. auto. Qed.

Example node_pointer_overflow : NodePointer.new 0 32 = None.
Proof. vm_compute. reflexivity. Qed.

(** The number of node indices addressable for a variable: the node index
    keeps [16 - (block_rank + 4)] bits of the 16-bit word. *)
Definition index_capacity (v : VariableId) : Z := 2 ^ (12 - NodePointer.block_rank_of v).

(* ------------------------------------------------------------------ *)
(** ** The per-variable uniqueness table [VarNodeStorage] (mod.rs)

    [NodePointer::none_pointer] and [NodePointer::as_pointer] are called by
    this code but defined nowhere under src/. The doc comment of
    [NodePointer] says the reserved non-pointer words represent special
    values such as a missing value; the two functions are therefore section
    parameters here, and every result below holds for any choice of them. *)

Module VarNodeStorage.

Section WithNone.

Variable none_pointer : NodePointer.
Variable as_pointer : NodePointer -> option NodePointer.

Record t := mk {
  constant : list NodePointer;          (* [NodePointer; 4] *)
  terminal : list (list NodePointer);   (* [Vec<NodePointer>; 4] *)
  equal_vars : list (list NodePointer); (* Vec<Vec<NodePointer>> *)
  other : gmap (NodePointer * NodePointer) NodePointer
}.

Definition new (vars : nat) : t :=
  mk (repeat none_pointer 4) (repeat [] 4) (repeat [] vars) ∅.

(** [u64] arithmetic of [interleave]; a release build wraps. *)
Definition wrap64 (x : Z) : Z := x mod 2 ^ 64.

Definition interleave (b1 b2 : Z) : Z :=
  Z.lor
    (Z.land (Z.shiftr (wrap64 (Z.land (wrap64 (b2 * 72340172838076673))
                                      9241421688590303745 * 72624976668147841)) 49)
            21845)
    (Z.land (Z.shiftr (wrap64 (Z.land (wrap64 (b1 * 72340172838076673))
                                      9241421688590303745 * 72624976668147841)) 48)
            43690).

(** [vec_insert]: pad with [none_pointer] up to [index], then overwrite. *)
Definition vec_insert (vector : list NodePointer) (index : nat) (pointer : NodePointer)
  : list NodePointer :=
  let vector :=
    if decide (length vector <= index)%nat
    then vector ++ repeat none_pointer (index - length vector + 1)
    else vector in
  <[index := pointer]> vector.

Definition get_terminal (s : t) (k : nat) (i : Z) : option NodePointer :=
  terminal s !! k ≫= fun v => v !! Z.to_nat i.

(** [VarNodeStorage::find]. The outer [option] is a panic of the indexing
    [self.equal_vars[..]]; the inner one is the returned [Option]. *)
Definition find (s : t) (low high : NodePointer) : option (option NodePointer) :=
  let value : option (option NodePointer) :=
    match NodePointer.as_bool low, NodePointer.as_bool high with
    | Some false, Some false => Some (constant s !! 0%nat)
    | Some false, Some true => Some (constant s !! 1%nat)
    | Some true, Some false => Some (constant s !! 2%nat)
    | Some true, Some true => Some (constant s !! 3%nat)
    | Some false, _ => Some (get_terminal s 0 (NodePointer.node_index high))
    | Some true, _ => Some (get_terminal s 1 (NodePointer.node_index high))
    | _, Some false => Some (get_terminal s 2 (NodePointer.node_index low))
    | _, Some true => Some (get_terminal s 3 (NodePointer.node_index low))
    | None, None =>
      if negb (NodePointer.variable_id low =? NodePointer.variable_id high) then
        Some (other s !! (low, high))
      else
        match equal_vars s !! Z.to_nat (NodePointer.variable_id low) with
        | None => None
        | Some vector =>
          let index := interleave (NodePointer.node_index low) (NodePointer.node_index high) in
          Some (vector !! Z.to_nat index)
        end
    end in
  match value with
  | None => None
  | Some v => Some (v ≫= as_pointer)
  end.

Definition set_constant (s : t) (k : nat) (result : NodePointer) : t :=
  mk (<[k := result]> (constant s)) (terminal s) (equal_vars s) (other s).

Definition insert_terminal (s : t) (k : nat) (i : Z) (result : NodePointer) : t :=
  let vector := default [] (terminal s !! k) in
  mk (constant s) (<[k := vec_insert vector (Z.to_nat i) result]> (terminal s))
     (equal_vars s) (other s).

(** [VarNodeStorage::insert], branch for branch. In the branch of two
    non-terminal children with different variables the source evaluates
    [self.other.get(&(low, high)).cloned();], which reads the map and
    drops the value: the storage is returned unchanged. *)
Definition insert (s : t) (low high result : NodePointer) : option t :=
  match NodePointer.as_bool low, NodePointer.as_bool high with
  | Some false, Some false => Some (set_constant s 0 result)
  | Some false, Some true => Some (set_constant s 1 result)
  | Some true, Some false => Some (set_constant s 2 result)
  | Some true, Some true => Some (set_constant s 3 result)
  | Some false, _ => Some (insert_terminal s 0 (NodePointer.node_index high) result)
  | Some true, _ => Some (insert_terminal s 1 (NodePointer.node_index high) result)
  | _, Some false => Some (insert_terminal s 2 (NodePointer.node_index low) result)
  | _, Some true => Some (insert_terminal s 3 (NodePointer.node_index low) result)
  | None, None =>
    if negb (NodePointer.variable_id low =? NodePointer.variable_id high) then
      let _ := other s !! (low, high) in
      Some s
    else
      let v := Z.to_nat (NodePointer.variable_id low) in
      match equal_vars s !! v with
      | None => None
      | Some vector =>
        let index := interleave (NodePointer.node_index low) (NodePointer.node_index high) in
        Some (mk (constant s) (terminal s)
                 (<[v := vec_insert vector (Z.to_nat index) result]> (equal_vars s))
                 (other s))
      end
  end.

(** The claim C1 as a proposition on this table. *)
Definition insert_then_find_property : Prop :=
  forall (s s' : t) (low high p : NodePointer),
    insert s low high p = Some s' -> find s' low high = Some (Some p).

(** The storages a program can hold: [new(vars)] followed by inserts. *)
Inductive reachable (vars : nat) : t -> Prop :=
| reachable_new : reachable vars (new vars)
| reachable_insert (s s' : t) (low high result : NodePointer) :
    reachable vars s -> insert s low high result = Some s' -> reachable vars s'.

End WithNone.

End VarNodeStorage.

(** [NewNodeStorage] (mod.rs): one [VarNodeStorage] per variable; [find] and
    [insert] index [self.vars] by the variable, a panic when out of bounds.
    A [Node] is the pair of its low and high pointer. *)
Module NewNodeStorage.

Section WithNone.

Variable none_pointer : NodePointer.
Variable as_pointer : NodePointer -> option NodePointer.

Record t := mk { vars : list VarNodeStorage.t }.

Definition new (var_count : nat) (_capacity : Z) : t :=
  mk (repeat (VarNodeStorage.new none_pointer var_count) var_count).

Definition find (s : t) (variable : VariableId) (node : NodePointer * NodePointer)
  : option (option NodePointer) :=
  vars s !! Z.to_nat variable ≫= fun v => VarNodeStorage.find as_pointer v (fst node) (snd node).

Definition insert (s : t) (variable : VariableId) (node : NodePointer * NodePointer)
    (pointer : NodePointer) : option t :=
  vars s !! Z.to_nat variable ≫= fun v =>
  VarNodeStorage.insert none_pointer v (fst node) (snd node) pointer ≫= fun v' =>
  Some (mk (<[Z.to_nat variable := v']> (vars s))).

(** The storages a program can hold: [new] followed by inserts. *)
Inductive reachable (var_count : nat) : t -> Prop :=
| reachable_new (capacity : Z) : reachable var_count (new var_count capacity)
| reachable_insert (s s' : t) (variable : VariableId) (node : NodePointer * NodePointer)
    (pointer : NodePointer) :
    reachable var_count s -> insert s variable node pointer = Some s' -> reachable var_count s'.

End WithNone.

End NewNodeStorage.

(* ------------------------------------------------------------------ *)
(** ** The lossy direct-mapped operation cache [Cache2] (cache2.rs)

    [BddPointer] of the main crate is a [u32] word. The cache stores packed
    keys in a [Vec<u32>]; [u32::MAX] marks an empty slot. *)

Module Cache2.

Definition u32_MAX : Z := u32_max - 1.
Definition SEED32 : Z := 2654435769. (* 0x9e_37_79_b9 *)

Record t := mk {
  collisions : Z;
  capacity : Z;          (* NonZeroU32 *)
  items : list Z         (* Vec<u32> *)
}.

(** [Cache2::new]: panics on a zero capacity and when [capacity as u32]
    truncates to zero. *)
Definition new (capacity : Z) : option t :=
  if capacity =? 0 then None else
  let c32 := capacity mod u32_max in
  if c32 =? 0 then None else
  Some (mk 0 c32 (repeat u32_MAX (Z.to_nat capacity + 1))).

(** [hash]: [value.wrapping_mul(SEED32)]. *)
Definition hash (value : Z) : Z := (value * SEED32) mod u32_max.

(** [pack]: [u32::from(l.0).shl(16) + u32::from(r.0)]; the shift drops the
    high bits of [l], the addition panics on overflow in a debug build. *)
Definition pack (l r : Z) : option Z :=
  let hi := (l * 2 ^ 16) mod u32_max in
  if hi + r <? u32_max then Some (hi + r) else None.

Definition slot (c : t) (packed : Z) : nat := Z.to_nat (hash packed mod capacity c).

(** [Cache2::contains]: the stored word at the slot equals the packed key. *)
Definition contains (c : t) (l r : Z) : option bool :=
  match pack l r with
  | None => None
  | Some packed => Some (bool_decide (items c !! slot c packed = Some packed))
  end.

(** [Cache2::insert]: overwrite the slot with the packed key. *)
Definition insert (c : t) (l r : Z) : option t :=
  match pack l r with
  | None => None
  | Some packed => Some (mk (collisions c) (capacity c) (<[slot c packed := packed]> (items c)))
  end.

(** A sequence of inserts on a cache; [None] if one of them panics. *)
Fixpoint insert_all (c : t) (keys : list (Z * Z)) : option t :=
  match keys with
  | [] => Some c
  | (l, r) :: rest => match insert c l r with Some c' => insert_all c' rest | None => None end
  end.

(** [Cache2::clear]: reset the collision counter and every slot. *)
Definition clear (c : t) : t := mk 0 (capacity c) (map (fun _ => u32_MAX) (items c)).

(** The claim C2 as a proposition: a lookup of a pair of 32-bit pointers in
    a cache built from [new capacity] by a sequence of inserts answers true
    only for a pair that was inserted. *)
Definition no_false_positives : Prop :=
  forall (capacity : Z) (c0 c : t) (keys : list (Z * Z)) (l r : Z),
    0 <= l < u32_max -> 0 <= r < u32_max ->
    new capacity = Some c0 -> insert_all c0 keys = Some c ->
    contains c l r = Some true -> In (l, r) keys.

End Cache2.

(* ------------------------------------------------------------------ *)
(** ** The fixed-size task stack and operation cache of u16_apply.rs

    [BddPointer] of the main crate is a [u32] word. [BddPointer::zero()]
    (the filler of a fresh stack) and [Bdd::size()] (the sizes given to
    [StaticOpCache::new]) belong to the main crate, which is not under
    src/: the filler is a section parameter and [new] takes the two sizes.
    Arithmetic overflow panics, as in a debug build. *)

(* ------------------------------------------------------------------ *)
(** ** The task set [DynamicOpCache] (dynamic_op_cache.rs)

    [items] holds the inserted [(u32, u32)] pairs; [hashes] maps a hash
    slot to an index into [items], [usize::MAX] marking an empty slot. The
    [hasher] field is never read and is left out. *)

Module DynamicOpCache.

Definition usize_MAX : Z := 2 ^ 64 - 1.
Definition SEED64 : Z := 5871781006564002453. (* 0x51_7c_c1_b7_27_22_0a_95 *)

Record t := mk {
  items : list (Z * Z);                     (* Vec<(u32, u32)> *)
  hashes : list Z;                          (* Vec<usize> *)
  collisions_since_rehash : Z;              (* usize *)
  index_after_last_sorted_entry : nat       (* usize *)
}.

Definition new (capacity : nat) : t := mk [] (repeat usize_MAX capacity) 0 0.

Definition len (c : t) : nat := length (items c).

(** [hash(l, r)]: [u64::from(l).shl(32) + u64::from(r)], then
    [wrapping_mul(SEED64)]; the sum cannot overflow for [u32] inputs. *)
Definition hash (l r : Z) : Z :=
  let packed := Z.land (Z.shiftl l 32) usize_MAX + r in
  (packed * SEED64) mod 2 ^ 64.

(** [(hash(l, r) as usize) % len]; the remainder by a zero length panics. *)
Definition slot_of (len : nat) (l r : Z) : option nat :=
  if (len =? 0)%nat then None else Some (Z.to_nat (hash l r mod Z.of_nat len)).

(** The derived [==] and [<] of [(u32, u32)]: componentwise, lexicographic. *)
Definition pair_eqb (a b : Z * Z) : bool := (a.1 =? b.1) && (a.2 =? b.2).
Definition pair_ltb (a b : Z * Z) : bool := (a.1 <? b.1) || ((a.1 =? b.1) && (a.2 <? b.2)).

(** [contains]: the indexing [self.items[possible_index]] panics out of
    bounds; [&&] does not evaluate it on an empty slot. *)
Definition contains (c : t) (l r : Z) : option bool :=
  match slot_of (length (hashes c)) l r with
  | None => None
  | Some h =>
    match hashes c !! h with
    | None => None
    | Some possible_index =>
      if possible_index =? usize_MAX then Some false
      else match items c !! Z.to_nat possible_index with
           | None => None
           | Some item => Some (pair_eqb item (l, r))
           end
    end
  end.

(** [merge] of two sorted slices: take from [left] while [left[l] < right[r]]. *)
Fixpoint merge (left right : list (Z * Z)) : list (Z * Z) :=
  match left with
  | [] => right
  | x :: left' =>
    (fix merge_right (right : list (Z * Z)) : list (Z * Z) :=
       match right with
       | [] => left
       | y :: right' => if pair_ltb x y then x :: merge left' right else y :: merge_right right'
       end) right
  end.

(** The [sort] of the slice: for the total order of [(u32, u32)] every
    sort yields the same list, here stdpp's [merge_sort]. *)
Definition pair_le (a b : Z * Z) : Prop := pair_ltb b a = false.

#[global] Instance pair_le_dec : RelDecision pair_le :=
  fun a b => bool_eq_dec (pair_ltb b a) false.

Definition sort (l : list (Z * Z)) : list (Z * Z) := merge_sort pair_le l.

(** The loop of [rehash] over [enumerate()], from index [i] on: count a
    collision on an occupied slot, then point the slot at [i]. *)
Fixpoint rehash_fill (hashes : list Z) (collisions : Z) (i : nat) (rest : list (Z * Z))
  : option (list Z * Z) :=
  match rest with
  | [] => Some (hashes, collisions)
  | (l, r) :: rest' =>
    match slot_of (length hashes) l r with
    | None => None
    | Some h =>
      match hashes !! h with
      | None => None
      | Some x =>
        let collisions' := if negb (x =? usize_MAX) then collisions + 1 else collisions in
        rehash_fill (<[h := Z.of_nat i]> hashes) collisions' (S i) rest'
      end
    end
  end.

(** [rehash]; the slicing [self.items[k..]] panics when [k] is past the end. *)
Definition rehash (c : t) : option t :=
  let k := index_after_last_sorted_entry c in
  if (length (items c) <? k)%nat then None
  else
    let items' := merge (take k (items c)) (sort (drop k (items c))) in
    match rehash_fill (repeat usize_MAX (length (hashes c) * 2)) 0 0 items' with
    | None => None
    | Some (hashes', collisions) => Some (mk items' hashes' collisions (length items'))
    end.

(** [insert]: [true] when the pair is pushed, [false] when the slot already
    points at it. The collision counter, a [usize], cannot reach [2^64]. *)
Definition insert (c : t) (l r : Z) : option (t * bool) :=
  match slot_of (length (hashes c)) l r with
  | None => None
  | Some h =>
    match hashes c !! h with
    | None => None
    | Some possible_collision_at =>
      let checked : option (option Z) :=
        if possible_collision_at =? usize_MAX then Some (Some (collisions_since_rehash c))
        else match items c !! Z.to_nat possible_collision_at with
             | None => None
             | Some item =>
               if pair_eqb item (l, r) then Some None
               else Some (Some (collisions_since_rehash c + 1))
             end in
      match checked with
      | None => None
      | Some None => Some (c, false)
      | Some (Some collisions) =>
        let items' := items c ++ [(l, r)] in
        let c' := mk items' (<[h := Z.of_nat (length items' - 1)]> (hashes c)) collisions
                     (index_after_last_sorted_entry c) in
        if Z.shiftr (Z.of_nat (length items')) 2 <? collisions then
          match rehash c' with
          | None => None
          | Some c'' => Some (c'', true)
          end
        else Some (c', true)
      end
    end
  end.

(** The caches a program can hold, with the pairs inserted so far: [new]
    followed by inserts. *)
Inductive reachable (capacity : nat) : list (Z * Z) -> t -> Prop :=
| reachable_new : reachable capacity [] (new capacity)
| reachable_insert (keys : list (Z * Z)) (c c' : t) (l r : Z) (b : bool) :
    reachable capacity keys c -> insert c l r = Some (c', b) ->
    reachable capacity ((l, r) :: keys) c'.

(** An index stored in [hashes]: the empty marker or a position of [items]. *)
Definition valid_index (n : nat) (x : Z) : Prop := x = usize_MAX \/ (0 <= x /\ (Z.to_nat x < n)%nat).

(** The shape every reachable cache keeps. *)
Definition inv (c : t) : Prop :=
  (0 < length (hashes c))%nat /\
  (forall h x, hashes c !! h = Some x -> valid_index (length (items c)) x) /\
  (index_after_last_sorted_entry c <= length (items c))%nat.

End DynamicOpCache.

Module StaticTaskStack.

Section WithFiller.

Variable filler : Z * Z.

Record t := mk {
  after_top : nat;
  storage : list (Z * Z)  (* [(BddPointer, BddPointer); 1024] *)
}.

(** [StaticTaskStack::new(num_vars: u16)]: [num_vars*2] is [u16]
    arithmetic. *)
Definition new (num_vars : Z) : option t :=
  if u16_max <=? num_vars * 2 then None
  else if 1024 <? num_vars * 2 then None
  else Some (mk 0 (repeat filler 1024)).

(** [push]: panics when the stack is full. *)
Definition push (s : t) (task : Z * Z) : option t :=
  if (1024 <=? after_top s)%nat then None
  else match storage s !! after_top s with
       | None => None  (* [self.storage[self.after_top]] out of bounds *)
       | Some _ => Some (mk (S (after_top s)) (<[after_top s := task]> (storage s)))
       end.

(** [pop]: [None] on an empty stack; the outer [option] is a panic of the
    indexing. *)
Definition pop (s : t) : option (t * option (Z * Z)) :=
  match after_top s with
  | O => Some (s, None)
  | S n =>
    match storage s !! n with
    | None => None
    | Some task => Some (mk n (storage s), Some task)
    end
  end.

(** The tasks on the stack, bottom first. *)
Definition contents (s : t) : list (Z * Z) := take (after_top s) (storage s).

(** The stacks a program can hold: [new] followed by pushes and pops. *)
Inductive reachable : t -> Prop :=
| reachable_new (num_vars : Z) (s : t) : new num_vars = Some s -> reachable s
| reachable_push (s s' : t) (task : Z * Z) : reachable s -> push s task = Some s' -> reachable s'
| reachable_pop (s s' : t) (o : option (Z * Z)) : reachable s -> pop s = Some (s', o) -> reachable s'.

End WithFiller.

End StaticTaskStack.

Module StaticOpCache.

Record t := mk {
  l_size : Z;
  r_size : Z;
  storage : list Z  (* [u16; X] *)
}.

(** [StaticOpCache::<X>::new(left, right)], given [left.size()] and
    [right.size()] ([usize] values). *)
Definition new (X : Z) (l_size r_size : Z) : option t :=
  let worst := l_size * r_size in
  if 2 ^ 64 <=? worst then None
  else if X <? worst then None
  else if 65535 <=? worst then None
  else Some (mk l_size r_size (repeat 65535 (Z.to_nat X))).

(** [index]: [u32] arithmetic on [l_pointer.0 * r_size + r_pointer.0]. *)
Definition index (c : t) (l_pointer r_pointer : Z) : option Z :=
  if u32_max <=? r_size c then None
  else let m := l_pointer * r_size c in
  if u32_max <=? m then None
  else if u32_max <=? m + r_pointer then None
  else Some (m + r_pointer).

(** [get]: the empty marker [u16::MAX] reads as [None]; the outer [option]
    is a panic. *)
Definition get (c : t) (l_pointer r_pointer : Z) : option (option Z) :=
  index c l_pointer r_pointer ≫= fun i =>
  storage c !! Z.to_nat i ≫= fun x =>
  Some (if x =? 65535 then None else Some x).

Definition contains (c : t) (l_pointer r_pointer : Z) : option bool :=
  index c l_pointer r_pointer ≫= fun i =>
  storage c !! Z.to_nat i ≫= fun x => Some (negb (x =? 65535)).

(** [set]: [u16::try_from(value.0).unwrap()] panics on a value that does
    not fit 16 bits; the indexing panics out of bounds. *)
Definition set (c : t) (l_pointer r_pointer value : Z) : option t :=
  index c l_pointer r_pointer ≫= fun i =>
  if u16_max <=? value then None
  else if (length (storage c) <=? Z.to_nat i)%nat then None
  else Some (mk (l_size c) (r_size c) (<[Z.to_nat i := value]> (storage c))).

(** The caches a program can hold: [new] followed by [set] calls. *)
Inductive reachable (X : Z) : t -> Prop :=
| reachable_new (ls rs : Z) (c : t) : new X ls rs = Some c -> reachable X c
| reachable_set (c c' : t) (l r v : Z) : reachable X c -> set c l r v = Some c' -> reachable X c'.

End StaticOpCache.

(* ------------------------------------------------------------------ *)
(** ** [Node] and the [Bdd] container (mod.rs, _impl_node.rs, _impl_bdd.rs) *)

(** [struct Node(NodePointer, NodePointer)]: the low and the high pointer. *)
Abbreviation Node := (NodePointer * NodePointer)%type (only parsing).

Definition low (n : Node) : NodePointer := fst n.
Definition high (n : Node) : NodePointer := snd n.

(** [pub struct Bdd(NodePointer, Vec<Vec<Node>>)]: the root pointer and one
    node vector per variable. The derived [PartialEq] is the structural
    equality of the two fields, which is [=] on this record. *)
Record Bdd := mkBdd {
  bdd_root : NodePointer;
  bdd_nodes : list (list Node)
}.

Module Bdd.

Definition mk_false : Bdd := mkBdd NodePointer.zero [].
Definition mk_true : Bdd := mkBdd NodePointer.one [].
Definition mk_const (value : bool) : Bdd := mkBdd (NodePointer.terminal value) [].

Definition root (b : Bdd) : NodePointer := bdd_root b.
Definition set_root (b : Bdd) (pointer : NodePointer) : Bdd := mkBdd pointer (bdd_nodes b).

Definition is_true (b : Bdd) : bool := NodePointer.is_one (root b).
Definition is_false (b : Bdd) : bool := NodePointer.is_zero (root b).

(** [mk_blank]: 64 empty node vectors. *)
Definition mk_blank (is_true : bool) : Bdd :=
  mkBdd (NodePointer.terminal is_true) (repeat [] 64).

(** [push_node]: index the vector of [variable] (a panic when out of
    bounds), append the node, then build its pointer (which may panic). *)
Definition push_node (b : Bdd) (variable : VariableId) (node : Node)
  : option (Bdd * NodePointer) :=
  let v := Z.to_nat variable in
  match bdd_nodes b !! v with
  | None => None
  | Some vector =>
    let node_index := length vector in
    let b' := mkBdd (bdd_root b) (<[v := vector ++ [node]]> (bdd_nodes b)) in
    match NodePointer.new variable (Z.of_nat node_index) with
    | None => None
    | Some p => Some (b', p)
    end
  end.

Definition mk_var (id : VariableId) (value : bool) : option Bdd :=
  let bdd := mk_blank false in
  let node : Node :=
    if value then (NodePointer.zero, NodePointer.one)
    else (NodePointer.one, NodePointer.zero) in
  match push_node bdd id node with
  | None => None
  | Some (bdd, p) => Some (set_root bdd p)
  end.

(** [node(variable, node_index)]: [&self.1[variable][node_index]]. *)
Definition node (b : Bdd) (variable : VariableId) (node_index : Z) : option Node :=
  bdd_nodes b !! Z.to_nat variable ≫= fun vector => vector !! Z.to_nat node_index.

Definition node_count (b : Bdd) : nat :=
  fold_left (fun count vector => (count + length vector)%nat) (bdd_nodes b) 0%nat + 2.

Definition flip_node (n : Node) : Node :=
  (NodePointer.flip_if_terminal (low n), NodePointer.flip_if_terminal (high n)).

(** [Bdd::not] (_impl_bdd_apply.rs). *)
Definition not (b : Bdd) : Bdd :=
  if is_true b then mk_false
  else if is_false b then mk_true
  else mkBdd (root b) (map (map flip_node) (bdd_nodes b)).

End Bdd.

(* ------------------------------------------------------------------ *)
(** ** Terminal lookup tables

    Modelled from the spec: [crate::op_function::{and, or, imp, iff, xor,
    and_not}] are called by [Bdd::and] and its siblings but are not part of
    src/. They follow the table of section 4.5 of the spec: both arguments
    terminal give the connective's value, a determined case with one
    terminal argument gives its result, and anything else is [None]. *)

Abbreviation LookupTable := (option bool -> option bool -> option bool) (only parsing).

Module op_function.

Definition and (l r : option bool) : option bool :=
  match l, r with
  | Some false, _ | _, Some false => Some false
  | Some true, Some true => Some true
  | _, _ => None
  end.

Definition or (l r : option bool) : option bool :=
  match l, r with
  | Some true, _ | _, Some true => Some true
  | Some false, Some false => Some false
  | _, _ => None
  end.

Definition xor (l r : option bool) : option bool :=
  match l, r with
  | Some a, Some b => Some (xorb a b)
  | _, _ => None
  end.

Definition imp (l r : option bool) : option bool :=
  match l, r with
  | Some false, _ | _, Some true => Some true
  | Some true, Some false => Some false
  | _, _ => None
  end.

Definition iff (l r : option bool) : option bool :=
  match l, r with
  | Some a, Some b => Some (Bool.eqb a b)
  | _, _ => None
  end.

Definition and_not (l r : option bool) : option bool :=
  match l, r with
  | Some false, _ | _, Some true => Some false
  | Some true, Some false => Some true
  | _, _ => None
  end.

End op_function.

(* ------------------------------------------------------------------ *)
(** ** [apply] (_impl_bdd_apply.rs)

    The state of the main loop: the task stack (its head is the last
    element of the Rust [Vec], so [push] is a cons and [last]/[pop] look at
    the head), the operation cache [TaskStorage] (a [HashMap] from pointer
    pairs to pointers), the uniqueness table [NodeStorage] (a [HashMap] from
    a variable and a node to a pointer) and the output [Bdd]. The [stats]
    counters of the two tables are not modelled: they are never read. *)

Record ApplyState := mkState {
  task_stack : list (NodePointer * NodePointer);
  tasks : gmap (NodePointer * NodePointer) NodePointer;
  nodes : gmap (VariableId * Node) NodePointer;
  output : Bdd
}.

(** What a call of [apply] does: return a [Bdd] or panic. *)
Inductive Outcome :=
| Returned (b : Bdd)
| Panicked.

Module Apply.

Definition var_of (p : NodePointer) : option VariableId :=
  if NodePointer.is_terminal p then None else Some (NodePointer.variable_id p).

(** [condition_var]: the smaller variable; [None] is the panic of the
    [(None, None)] arm. *)
Definition condition_var_of (l_var r_var : option VariableId) : option VariableId :=
  match l_var, r_var with
  | Some x, Some y => Some (Z.min x y)
  | Some v, None => Some v
  | None, Some v => Some v
  | None, None => None
  end.

(** The two pointers a task depends on, on one side: the children of the
    node when its variable is the condition variable, the pointer itself
    twice otherwise. [None] is an out-of-bounds panic of [Bdd::node]. *)
Definition children (b : Bdd) (p : NodePointer) (p_var : option VariableId)
    (condition_var : VariableId) : option (NodePointer * NodePointer) :=
  if decide (Some condition_var = p_var) then
    match Bdd.node b condition_var (NodePointer.node_index p) with
    | Some n => Some (low n, high n)
    | None => None
    end
  else Some (p, p).

(** A child task resolved by the lookup table or the operation cache. *)
Definition resolve_child (lookup_table : LookupTable)
    (tasks : gmap (NodePointer * NodePointer) NodePointer) (l r : NodePointer)
  : option NodePointer :=
  match lookup_table (NodePointer.as_bool l) (NodePointer.as_bool r) with
  | Some b => Some (NodePointer.terminal b)
  | None => tasks !! (l, r)
  end.

(** One iteration of [while let Some(last) = task_stack.last() { .. }];
    [None] is a panic. *)
Definition iteration (left right : Bdd) (lookup_table : LookupTable) (s : ApplyState)
  : option ApplyState :=
  match task_stack s with
  | [] => Some s
  | (l, r) :: rest =>
    match tasks s !! (l, r) with
    | Some _ => Some (mkState rest (tasks s) (nodes s) (output s))
    | None =>
      let l_var := var_of l in
      let r_var := var_of r in
      match condition_var_of l_var r_var with
      | None => None
      | Some condition_var =>
        match children left l l_var condition_var with
        | None => None
        | Some (l_low, l_high) =>
          match children right r r_var condition_var with
          | None => None
          | Some (r_low, r_high) =>
            let result_low := resolve_child lookup_table (tasks s) l_low r_low in
            let result_high := resolve_child lookup_table (tasks s) l_high r_high in
            match result_low, result_high with
            | Some result_low, Some result_high =>
              if result_low =? result_high then
                Some (mkState rest (<[(l, r) := result_low]> (tasks s)) (nodes s) (output s))
              else
                let node : Node := (result_low, result_high) in
                match nodes s !! (condition_var, node) with
                | Some existing =>
                  Some (mkState rest (<[(l, r) := existing]> (tasks s)) (nodes s) (output s))
                | None =>
                  match Bdd.push_node (output s) condition_var node with
                  | None => None
                  | Some (output', new_pointer) =>
                    Some (mkState rest (<[(l, r) := new_pointer]> (tasks s))
                                  (<[(condition_var, node) := new_pointer]> (nodes s)) output')
                  end
                end
            | _, _ =>
              let stack := (l, r) :: rest in
              let stack := if result_low then stack else (l_low, r_low) :: stack in
              let stack := if result_high then stack else (l_high, r_high) :: stack in
              Some (mkState stack (tasks s) (nodes s) (output s))
            end
          end
        end
      end
    end
  end.

(** After the loop: the result of the root task. *)
Definition finish (left right : Bdd) (s : ApplyState) : Outcome :=
  match tasks s !! (Bdd.root left, Bdd.root right) with
  | None => Panicked
  | Some result =>
    match NodePointer.as_bool result with
    | Some constant => Returned (Bdd.mk_const constant)
    | None => Returned (Bdd.set_root (output s) result)
    end
  end.

(** The loop, run for at most [fuel] iterations; [None] when the fuel is
    exhausted before the loop ends. *)
Fixpoint run (fuel : nat) (left right : Bdd) (lookup_table : LookupTable) (s : ApplyState)
  : option Outcome :=
  match fuel with
  | O => None
  | S fuel' =>
    match task_stack s with
    | [] => Some (finish left right s)
    | _ :: _ =>
      match iteration left right lookup_table s with
      | None => Some Panicked
      | Some s' => run fuel' left right lookup_table s'
      end
    end
  end.

Definition initial_state (left right : Bdd) : ApplyState :=
  mkState [(Bdd.root left, Bdd.root right)] ∅ ∅ (Bdd.mk_blank false).

(** [apply(left, right, lookup_table)] with a bound on the iterations. *)
Definition apply_fuel (fuel : nat) (left right : Bdd) (lookup_table : LookupTable)
  : option Outcome :=
  let left_const := NodePointer.as_bool (Bdd.root left) in
  let right_const := NodePointer.as_bool (Bdd.root right) in
  match lookup_table left_const right_const with
  | Some result => Some (Returned (Bdd.mk_const result))
  | None =>
    match left_const, right_const with
    | Some _, Some _ => Some Panicked
    | _, _ => run fuel left right lookup_table (initial_state left right)
    end
  end.

(** [apply] ends with outcome [o]: some number of iterations reaches it. *)
Definition apply (left right : Bdd) (lookup_table : LookupTable) (o : Outcome) : Prop :=
  exists fuel, apply_fuel fuel left right lookup_table = Some o.

End Apply.

(** The six connectives of [impl Bdd]. *)
Inductive BinOp := And | Or | Imp | Iff | Xor | AndNot.

Definition op_table (op : BinOp) : LookupTable :=
  match op with
  | And => op_function.and
  | Or => op_function.or
  | Imp => op_function.imp
  | Iff => op_function.iff
  | Xor => op_function.xor
  | AndNot => op_function.and_not
  end.

(** The [Bdd] values a user of the public API can obtain: the constants,
    the literals of [mk_var], and the results of [not] and of the six
    connectives applied to such values. *)
Inductive public_bdd : Bdd -> Prop :=
| public_const (value : bool) : public_bdd (Bdd.mk_const value)
| public_var (id : VariableId) (value : bool) (b : Bdd) :
    0 <= id < u32_max -> Bdd.mk_var id value = Some b -> public_bdd b
| public_not (b : Bdd) : public_bdd b -> public_bdd (Bdd.not b)
| public_op (op : BinOp) (a b c : Bdd) :
    public_bdd a -> public_bdd b -> Apply.apply a b (op_table op) (Returned c) -> public_bdd c.

(** A reduced storage: in every per-variable vector no node has equal
    children and no two nodes are equal. *)
Definition reduced (b : Bdd) : Prop :=
  Forall (fun vector => NoDup vector /\ Forall (fun n => low n <> high n) vector)
         (bdd_nodes b).

(* ------------------------------------------------------------------ *)
(** ** Meaning of a [Bdd] and its canonical layout

    Not part of the source. The Boolean function a [Bdd] stands for follows
    the data model of section 3 of the spec: a terminal pointer is its
    value, a node [(low, high)] at the variable carried by its pointer
    continues with [high] when the variable is true and with [low]
    otherwise. On the ordered diagrams of the public API a path visits at
    most 64 nodes. *)

Fixpoint eval_pointer (b : Bdd) (fuel : nat) (env : VariableId -> bool) (p : NodePointer)
  : option bool :=
  match fuel with
  | O => None
  | S fuel' =>
    match NodePointer.as_bool p with
    | Some c => Some c
    | None =>
      match Bdd.node b (NodePointer.variable_id p) (NodePointer.node_index p) with
      | None => None
      | Some n => eval_pointer b fuel' env (if env (NodePointer.variable_id p) then high n else low n)
      end
    end
  end.

Definition eval (b : Bdd) (env : VariableId -> bool) : option bool :=
  eval_pointer b 65 env (Bdd.root b).

(** Decision trees: the diagram below a pointer, unfolded. *)
Inductive tree :=
| Leaf (value : bool)
| TNode (v : VariableId) (lo hi : tree).

#[global] Instance tree_eq_dec : EqDecision tree.
Proof. solve_decision. Defined.

Module Tree.

Fixpoint teval (env : VariableId -> bool) (t : tree) : bool :=
  match t with
  | Leaf c => c
  | TNode v lo hi => if env v then teval env hi else teval env lo
  end.

Definition leaf_value (t : tree) : option bool :=
  match t with Leaf c => Some c | TNode _ _ _ => None end.

(** A node, or its child when both children are equal. *)
Definition mk (v : VariableId) (lo hi : tree) : tree :=
  if decide (lo = hi) then lo else TNode v lo hi.

(** The connective on trees, split on the smaller top variable as [apply]
    does. *)
Fixpoint tapply (table : LookupTable) (t1 t2 : tree) {struct t1} : tree :=
  let fix go (t2 : tree) : tree :=
    match table (leaf_value t1) (leaf_value t2) with
    | Some c => Leaf c
    | None =>
      match t1, t2 with
      | Leaf _, Leaf _ => Leaf false
      | TNode v l h, Leaf _ => mk v (tapply table l t2) (tapply table h t2)
      | Leaf _, TNode v l h => mk v (go l) (go h)
      | TNode v1 l1 h1, TNode v2 l2 h2 =>
        if v1 =? v2 then mk v1 (tapply table l1 l2) (tapply table h1 h2)
        else if v1 <? v2 then mk v1 (tapply table l1 t2) (tapply table h1 t2)
        else mk v2 (go l2) (go h2)
      end
    end in
  go t2.

Fixpoint tnot (t : tree) : tree :=
  match t with
  | Leaf c => Leaf (negb c)
  | TNode v lo hi => TNode v (tnot lo) (tnot hi)
  end.

Fixpoint size (t : tree) : nat :=
  match t with
  | Leaf _ => 1
  | TNode _ lo hi => S (size lo + size hi)
  end.

(** Every variable of [t] is greater than [v]. *)
Fixpoint above (v : VariableId) (t : tree) : Prop :=
  match t with
  | Leaf _ => True
  | TNode w lo hi => v < w /\ above v lo /\ above v hi
  end.

Fixpoint ordered (t : tree) : Prop :=
  match t with
  | Leaf _ => True
  | TNode v lo hi => above v lo /\ above v hi /\ ordered lo /\ ordered hi
  end.

Fixpoint treduced (t : tree) : Prop :=
  match t with
  | Leaf _ => True
  | TNode _ lo hi => lo <> hi /\ treduced lo /\ treduced hi
  end.

Fixpoint in_range (t : tree) : Prop :=
  match t with
  | Leaf _ => True
  | TNode v lo hi => 0 <= v < 64 /\ in_range lo /\ in_range hi
  end.

(** The variable at the top of a tree. *)
Definition top_var (t : tree) : option VariableId :=
  match t with Leaf _ => None | TNode v _ _ => Some v end.

(** The two cofactors of [t] for the variable [cv], as [apply] takes the
    children of a task: the children of a node of [cv], the tree itself
    otherwise. *)
Definition split_at (cv : VariableId) (t : tree) : tree * tree :=
  match t with
  | TNode v lo hi => if v =? cv then (lo, hi) else (t, t)
  | Leaf _ => (t, t)
  end.

End Tree.

(** The tree below a pointer of a [Bdd]. *)
Inductive denotes (b : Bdd) : NodePointer -> tree -> Prop :=
| denotes_leaf (p : NodePointer) (c : bool) :
    NodePointer.as_bool p = Some c -> denotes b p (Leaf c)
| denotes_node (p lo hi : NodePointer) (tl th : tree) :
    NodePointer.as_bool p = None ->
    Bdd.node b (NodePointer.variable_id p) (NodePointer.node_index p) = Some (lo, hi) ->
    denotes b lo tl -> denotes b hi th ->
    denotes b p (TNode (NodePointer.variable_id p) tl th).

(** The pointer of a stored node, found by a scan of its variable's vector. *)
Definition find_node (b : Bdd) (v : VariableId) (n : Node) : option NodePointer :=
  match bdd_nodes b !! Z.to_nat v with
  | None => None
  | Some vector =>
    match list_find (fun m => m = n) vector with
    | Some (i, _) => NodePointer.new v (Z.of_nat i)
    | None => None
    end
  end.

(** Hash-consing construction of a tree: the high child first, then the
    low child, then the node itself unless it is already stored. *)
Fixpoint build (t : tree) (b : Bdd) : option (Bdd * NodePointer) :=
  match t with
  | Leaf c => Some (b, NodePointer.terminal c)
  | TNode v lo hi =>
    match build hi b with
    | None => None
    | Some (b1, p_high) =>
      match build lo b1 with
      | None => None
      | Some (b2, p_low) =>
        match find_node b2 v (p_low, p_high) with
        | Some p => Some (b2, p)
        | None => Bdd.push_node b2 v (p_low, p_high)
        end
      end
    end
  end.

(** The canonical [Bdd] of a tree: built into a blank storage, then
    finished as [apply] finishes. *)
Definition canonical (t : tree) : option Bdd :=
  match build t (Bdd.mk_blank false) with
  | None => None
  | Some (b, p) =>
    Some (match NodePointer.as_bool p with
          | Some c => Bdd.mk_const c
          | None => Bdd.set_root b p
          end)
  end.

(** Iterations of the loop of [apply] on a non-empty stack. *)
Inductive steps (left right : Bdd) (table : LookupTable) : ApplyState -> ApplyState -> Prop :=
| steps_refl (s : ApplyState) : steps left right table s s
| steps_step (s s' s'' : ApplyState) :
    task_stack s <> [] -> Apply.iteration left right table s = Some s' ->
    steps left right table s' s'' -> steps left right table s s''.

(** The loop reaches a panic. *)
Definition panics (left right : Bdd) (table : LookupTable) (s : ApplyState) : Prop :=
  exists s', steps left right table s s' /\ task_stack s' <> [] /\
             Apply.iteration left right table s' = None.

(** Invariants of the canonical layout, used by the proofs below. *)

(** A pointer of the canonical layout: a terminal, or a pointer built by
    [new] for one of the 64 variables. *)
Definition canon_ptr (p : NodePointer) : Prop :=
  (exists c, p = NodePointer.terminal c) \/
  (exists v i, 0 <= v < 64 /\ NodePointer.new v i = Some p).

(** A storage under construction: 64 vectors, no node twice in a vector,
    every stored node addressable by [new], with canonical children. *)
Definition hash_consed (b : Bdd) : Prop :=
  length (bdd_nodes b) = 64%nat /\
  forall (k : nat) (vector : list Node), bdd_nodes b !! k = Some vector ->
    NoDup vector /\
    forall (i : nat) (n : Node), vector !! i = Some n ->
      is_Some (NodePointer.new (Z.of_nat k) (Z.of_nat i)) /\
      canon_ptr (low n) /\ canon_ptr (high n).

(** [b'] keeps every node of [b]. *)
Definition extends (b b' : Bdd) : Prop :=
  forall v i n, Bdd.node b v i = Some n -> Bdd.node b' v i = Some n.

(** The loop invariant of [apply] on the inputs [left] and [right]: the
    output is hash-consed, the uniqueness table agrees with a scan of the
    output, and every cached task result is the canonical pointer of the
    connective applied to the trees of the task. *)
Definition apply_inv (left right : Bdd) (table : LookupTable) (s : ApplyState) : Prop :=
  hash_consed (output s) /\
  (forall v n, 0 <= v -> nodes s !! (v, n) = find_node (output s) v n) /\
  (forall l r p, tasks s !! (l, r) = Some p ->
     canon_ptr p /\
     forall tl tr, denotes left l tl -> denotes right r tr ->
       denotes (output s) p (Tree.tapply table tl tr)).

(** What the loop does with the task [(l, r)] on top of the stack, above
    [rest], when [l] and [r] stand for [tl] and [tr]: when [build] makes the
    canonical pointer of their combination, the loop reaches a state with
    [rest] on the stack, the invariant, the output of [build] and the task
    cached to that pointer; otherwise the loop panics. *)
Definition task_result (left right : Bdd) (table : LookupTable) (s : ApplyState)
    (l r : NodePointer) (rest : list (NodePointer * NodePointer)) (tl tr : tree) : Prop :=
  match build (Tree.tapply table tl tr) (output s) with
  | Some (b', p) =>
    exists s', steps left right table s s' /\ task_stack s' = rest /\
      apply_inv left right table s' /\ output s' = b' /\ tasks s' !! (l, r) = Some p
  | None => panics left right table s
  end.

(** The results of the tasks of size below [n] are known: every open task
    on two pointers denoting trees of total size below [n] runs to its
    [task_result]. *)
Definition results_below (left right : Bdd) (table : LookupTable) (n : nat) : Prop :=
  forall tl tr l r s rest, (Tree.size tl + Tree.size tr < n)%nat ->
    denotes left l tl -> denotes right r tr ->
    table (NodePointer.as_bool l) (NodePointer.as_bool r) = None ->
    task_stack s = (l, r) :: rest -> apply_inv left right table s ->
    task_result left right table s l r rest tl tr.

(** Loop invariant: the output keeps its 64 vectors. *)
Definition has_64_vectors (s : ApplyState) : Prop := length (bdd_nodes (output s)) = 64%nat.

(** Loop invariant: every vector of the output is free of duplicates and
    of nodes with equal children, and every node of it is recorded in the
    uniqueness table under its variable. *)
Definition reduced_inv (s : ApplyState) : Prop :=
  forall k vector, bdd_nodes (output s) !! k = Some vector ->
    NoDup vector /\
    forall n, n ∈ vector -> low n <> high n /\ is_Some (nodes s !! (Z.of_nat k, n)).

(** A task with its two pointers swapped. *)
Definition swap_task (p : NodePointer * NodePointer) : NodePointer * NodePointer :=
  (snd p, fst p).

(** The state of [apply(B, A)] mirrors the state of [apply(A, B)]: the
    same tasks with their two pointers swapped, the same uniqueness table
    and the same output. *)
Definition swapped (s1 s2 : ApplyState) : Prop :=
  task_stack s2 = map swap_task (task_stack s1) /\
  (forall l r, tasks s2 !! (r, l) = tasks s1 !! (l, r)) /\
  nodes s2 = nodes s1 /\ output s2 = output s1.

(** A lookup table that ignores the order of its arguments. *)
Definition symmetric_table (t : LookupTable) : Prop := forall x y, t x y = t y x.

(** The environment [env] with [v] set to [c]. *)
Definition upd (env : VariableId -> bool) (v : VariableId) (c : bool) : VariableId -> bool :=
  fun x => if x =? v then c else env x.

(** The [n] integers from [start] on. *)
Fixpoint zseq (start : Z) (n : nat) : list Z :=
  match n with O => [] | S n' => start :: zseq (start + 1) n' end.

(** The bits [offset], [offset + 2], ... of [x] ([n] of them), read as a
    number: the inverse of the bit spreading done by [interleave]. *)
Fixpoint gather (x offset : Z) (n : nat) : Z :=
  match n with
  | O => 0
  | S n' => (if Z.testbit x offset then 1 else 0) + 2 * gather x (offset + 2) n'
  end.

(** A lookup table that answers from partial knowledge answers the same
    once both sides are known. *)
Definition sound_table (table : LookupTable) : Prop :=
  forall x y c a b, table x y = Some c ->
    (forall a', x = Some a' -> a = a') -> (forall b', y = Some b' -> b = b') ->
    table (Some a) (Some b) = Some c.
(* ------------------------------------------------------------------ *)
(** ** Lemmas on the codec *)

(** [lia] after turning [/] and [mod] by constants into equations. *)
Ltac zlia := Z.div_mod_to_equations; lia.

Section Codec.

Lemma ones16 : u16_max - 1 = Z.ones 16.
Proof. reflexivity. Qed.

Lemma shl16_exact (x k : Z) :
  0 <= x -> 0 <= k -> x * 2 ^ k < u16_max -> shl16 x k = x * 2 ^ k.
Proof.
  intros Hx Hk Hlt. unfold shl16. rewrite ones16, Z.land_ones by lia.
  rewrite Z.shiftl_mul_pow2 by lia. apply Z.mod_small.
  unfold u16_max in *. split; [nia | lia].
Qed.

Lemma shr16_exact (x k : Z) : 0 <= k -> shr16 (x * 2 ^ k) k = x.
Proof.
  intros Hk. unfold shr16. rewrite Z.shiftr_div_pow2 by lia.
  apply Z.div_mul. apply Z.pow_nonzero; lia.
Qed.

Lemma add16_exact (x y : Z) : x + y < u16_max -> add16 x y = Some (x + y).
Proof. intros H. unfold add16. now rewrite (proj2 (Z.ltb_lt _ _) H). Qed.

Lemma tz_aux_odd_pow (n : nat) (x : Z) (k : nat) :
  Z.odd x = true -> (k < n)%nat -> tz_aux n (x * 2 ^ Z.of_nat k) = Z.of_nat k.
Proof.
  revert n. induction k as [|k IH]; intros n Hodd Hk.
  - destruct n as [|n]; [lia|]. cbn [tz_aux]. change (2 ^ Z.of_nat 0) with 1.
    rewrite Z.mul_1_r, Z.bit0_odd, Hodd. reflexivity.
  - destruct n as [|n]; [lia|]. cbn [tz_aux].
    replace (x * 2 ^ Z.of_nat (S k)) with ((x * 2 ^ Z.of_nat k) * 2)
      by (rewrite Nat2Z.inj_succ, Z.pow_succ_r; lia).
    rewrite Z.bit0_odd, Z.odd_mul, andb_false_r.
    rewrite Z.shiftr_div_pow2 by lia. change (2 ^ 1) with 2.
    rewrite Z.div_mul by lia. rewrite IH by (auto; lia). lia.
Qed.

Lemma trailing_zeros_odd_pow (x k : Z) :
  Z.odd x = true -> 0 <= k < 16 -> trailing_zeros (x * 2 ^ k) = k.
Proof.
  intros Hodd Hk. unfold trailing_zeros.
  rewrite <- (Z2Nat.id k) by lia. apply tz_aux_odd_pow; [assumption | lia].
Qed.

(** The branch taken by [NodePointer::new] for each of the 16 blocks. *)
Lemma block_facts (v : Z) :
  0 <= v < 64 ->
  (Z.land (v / 4) 8 =? 0) = (v / 4 <? 8) /\
  NodePointer.block_rank_of v = (if v / 4 <? 8 then 7 - v / 4 else v / 4 - 8).
Proof.
  intros Hv. unfold NodePointer.block_rank_of, NodePointer.VAR_BLOCK_SIZE.
  assert (Hb : 0 <= v / 4 < 16) by (split; [apply Z.div_pos | apply Z.div_lt_upper_bound]; lia).
  generalize dependent (v / 4). intros b Hb.
  assert (b = 0 \/ b = 1 \/ b = 2 \/ b = 3 \/ b = 4 \/ b = 5 \/ b = 6 \/ b = 7 \/
          b = 8 \/ b = 9 \/ b = 10 \/ b = 11 \/ b = 12 \/ b = 13 \/ b = 14 \/ b = 15)
    as Hcases by lia.
  repeat (destruct Hcases as [-> | Hcases]; [split; reflexivity |]).
  subst. split; reflexivity.
Qed.

Lemma block_rank_range (v : Z) : 0 <= v < 64 -> 0 <= NodePointer.block_rank_of v <= 7.
Proof.
  intros Hv. destruct (block_facts v Hv) as [_ ->].
  assert (0 <= v / 4 < 16) by (split; [apply Z.div_pos | apply Z.div_lt_upper_bound]; lia).
  destruct (v / 4 <? 8) eqn:E; [apply Z.ltb_lt in E | apply Z.ltb_ge in E]; lia.
Qed.

Lemma pow_split (r : Z) : 0 <= r <= 7 -> 2 ^ r * 2 ^ (12 - r) = 4096.
Proof. intros Hr. rewrite <- Z.pow_add_r by lia. now replace (r + (12 - r)) with 12 by lia. Qed.

(** The word built by [NodePointer::new]. *)
Lemma new_value (v i : Z) :
  0 <= v < 64 -> 0 <= i < index_capacity v ->
  NodePointer.new v i =
  Some (((i * 8 + v mod 4 * 2 + (if v / 4 <? 8 then 0 else 1)) * 2 + 1)
        * 2 ^ NodePointer.block_rank_of v).
Proof.
  intros Hv Hi. unfold index_capacity in Hi.
  pose proof (block_rank_range v Hv) as Hr.
  destruct (block_facts v Hv) as [Hlow _].
  unfold NodePointer.new, NodePointer.VAR_BLOCK_SIZE. cbv zeta. rewrite Hlow.
  set (r := NodePointer.block_rank_of v) in *.
  set (hf := if v / 4 <? 8 then 0 else 1).
  assert (Hhf : 0 <= hf <= 1) by (unfold hf; destruct (v / 4 <? 8); lia).
  replace (if v / 4 <? 8 then 0 else 1) with hf by reflexivity.
  assert (Hid : 0 <= v mod 4 < 4) by (apply Z.mod_pos_bound; lia).
  pose proof (pow_split r Hr) as HPQ.
  assert (HP : 1 <= 2 ^ r) by (assert (0 < 2 ^ r) by (apply Z.pow_pos_nonneg; lia); lia).
  assert (HiP : i * 2 ^ r < 4096) by nia.
  assert (Hi4096 : i < 4096) by nia.
  replace ((0 <=? i) && (i <? u16_max)) with true
    by (symmetry; apply andb_true_intro; split; [apply Z.leb_le | apply Z.ltb_lt];
        unfold u16_max; lia).
  cbn [negb].
  assert (Hsh : 2 ^ (r + 4) = 2 ^ r * 16) by (rewrite Z.pow_add_r by lia; reflexivity).
  rewrite (shl16_exact i (r + 4)) by (unfold u16_max; lia).
  rewrite shr16_exact, Z.eqb_refl by lia. cbn [negb].
  rewrite (shl16_exact i 3) by (unfold u16_max; change (2 ^ 3) with 8; lia).
  replace (Z.land (Z.shiftl (v mod 4) 1) (u16_max - 1)) with (v mod 4 * 2)
    by (rewrite ones16, Z.land_ones, Z.shiftl_mul_pow2 by lia;
        change (2 ^ 1) with 2; symmetry; apply Z.mod_small; lia).
  change (2 ^ 3) with 8. change u16_max with 65536 in *.
  rewrite add16_exact by (change u16_max with 65536; lia).
  rewrite add16_exact by (change u16_max with 65536; lia).
  rewrite (shl16_exact _ 1) by (change u16_max with 65536; change (2 ^ 1) with 2; lia).
  change (2 ^ 1) with 2.
  rewrite add16_exact by (change u16_max with 65536; lia).
  rewrite shl16_exact by (change u16_max with 65536; nia).
  reflexivity.
Qed.

Lemma decode_value (i id hf r : Z) :
  0 <= i -> 0 <= id < 4 -> 0 <= hf <= 1 -> 0 <= r <= 7 ->
  let m := i * 8 + id * 2 + hf in
  let p := (m * 2 + 1) * 2 ^ r in
  trailing_zeros p = r /\ shr16 p (r + 1) = m /\ NodePointer.node_index p = i /\
  NodePointer.is_terminal p = false.
Proof.
  intros Hi Hid Hhf Hr m p.
  assert (Hodd : Z.odd (m * 2 + 1) = true)
    by (rewrite Z.odd_add, Z.odd_mul, andb_false_r; reflexivity).
  assert (Htz : trailing_zeros p = r) by (apply trailing_zeros_odd_pow; [assumption | lia]).
  assert (Hdiv : forall k, 0 <= k -> p / 2 ^ (r + k) = (m * 2 + 1) / 2 ^ k).
  { intros k Hk. unfold p. rewrite Z.pow_add_r by lia.
    rewrite (Z.mul_comm (2 ^ r) (2 ^ k)). apply Z.div_mul_cancel_r; apply Z.pow_nonzero; lia. }
  split; [exact Htz|]. split; [|split].
  - unfold shr16. rewrite Z.shiftr_div_pow2 by lia. rewrite Hdiv by lia.
    change (2 ^ 1) with 2. zlia.
  - unfold NodePointer.node_index, shr16. rewrite Htz.
    rewrite Z.shiftr_div_pow2 by lia. rewrite Hdiv by lia.
    change (2 ^ 4) with 16. unfold m. zlia.
  - unfold NodePointer.is_terminal. apply Z.eqb_neq. intros H0.
    assert (Hb : Z.testbit (Z.land p 32767) r = true).
    { rewrite Z.land_spec. unfold p. rewrite Z.mul_pow2_bits by lia.
      rewrite Z.sub_diag, Z.bit0_odd, Hodd. cbn [andb].
      change 32767 with (Z.ones 15). apply Z.ones_spec_low. lia. }
    rewrite H0, Z.testbit_0_l in Hb. discriminate.
Qed.

(** The claim: [new(v, i)] succeeds for every representable [(v, i)], and
    decodes back to [(v, i)] without being a terminal. *)
Lemma node_pointer_roundtrip_general (v i : Z) :
  0 <= v < 64 -> 0 <= i < index_capacity v ->
  exists p, NodePointer.new v i = Some p /\ NodePointer.is_terminal p = false /\
            NodePointer.variable_id p = v /\ NodePointer.node_index p = i.
Proof.
  intros Hv Hi. rewrite (new_value v i Hv Hi). eexists; split; [reflexivity|].
  pose proof (block_rank_range v Hv) as Hr.
  assert (Hid : 0 <= v mod 4 < 4) by (apply Z.mod_pos_bound; lia).
  set (hf := if v / 4 <? 8 then 0 else 1).
  assert (Hhf : 0 <= hf <= 1) by (unfold hf; destruct (v / 4 <? 8); lia).
  destruct (decode_value i (v mod 4) hf (NodePointer.block_rank_of v))
    as (Htz & Hshr & Hidx & Hterm); try lia.
  split; [exact Hterm|]. split; [|exact Hidx].
  unfold NodePointer.variable_id. cbv zeta. rewrite Htz, Hshr.
  unfold shr16. rewrite Z.shiftr_div_pow2 by lia. change (2 ^ 1) with 2.
  change 1 with (Z.ones 1) at 1. change 3 with (Z.ones 2).
  rewrite !Z.land_ones by lia. change (2 ^ 1) with 2. change (2 ^ 2) with 4.
  destruct (block_facts v Hv) as [_ Hrank].
  assert (Hb : 0 <= v / 4 < 16) by (split; [apply Z.div_pos | apply Z.div_lt_upper_bound]; lia).
  unfold NodePointer.VAR_BLOCK_SIZE, u32_max. unfold hf in *. rewrite Hrank in *.
  destruct (v / 4 <? 8) eqn:E; [apply Z.ltb_lt in E | apply Z.ltb_ge in E].
  all: match goal with
       | |- context [(?x mod 2 =? 0)] =>
         let H := fresh in
         destruct (x mod 2 =? 0) eqn:H; [apply Z.eqb_eq in H | apply Z.eqb_neq in H]
       end.
  all: zlia.
Qed.

End Codec.


(* ------------------------------------------------------------------ *)
(** ** Lemmas on the uniqueness table *)

Module VarNodeStorageFacts.
Import VarNodeStorage.

(** The branch of two non-terminal children of different variables does
    not write: the table is returned unchanged, and a lookup on a table
    whose [other] map is empty finds nothing. *)
Lemma insert_distinct_vars_noop (none_pointer : NodePointer)
  (as_pointer : NodePointer -> option NodePointer) (s : t) (low high p : NodePointer) :
  NodePointer.is_terminal low = false -> NodePointer.is_terminal high = false ->
  NodePointer.variable_id low <> NodePointer.variable_id high ->
  insert none_pointer s low high p = Some s /\
  (other s = ∅ -> find as_pointer s low high = Some None).
Proof.
  intros Hl Hh Hne.
  assert (Ha : NodePointer.as_bool low = None /\ NodePointer.as_bool high = None)
    by (unfold NodePointer.as_bool; rewrite Hl, Hh; split; reflexivity).
  destruct Ha as [Hal Hah].
  apply Z.eqb_neq in Hne.
  unfold insert, find. rewrite Hal, Hah, Hne. cbn [negb]. split; [reflexivity|].
  intros Ho. rewrite Ho, lookup_empty. reflexivity.
Qed.

End VarNodeStorageFacts.

(* ------------------------------------------------------------------ *)
(** ** General lemmas on [apply] *)

Module ApplyFacts.

Lemma variable_id_nonneg (p : NodePointer) : 0 <= NodePointer.variable_id p.
Proof.
  unfold NodePointer.variable_id. cbv zeta.
  destruct (_ =? 0); apply Z.mod_pos_bound; unfold u32_max; lia.
Qed.

Lemma condition_var_nonneg (l r : NodePointer) (cv : VariableId) :
  Apply.condition_var_of (Apply.var_of l) (Apply.var_of r) = Some cv -> 0 <= cv.
Proof.
  unfold Apply.condition_var_of, Apply.var_of.
  pose proof (variable_id_nonneg l). pose proof (variable_id_nonneg r).
  destruct (NodePointer.is_terminal l), (NodePointer.is_terminal r);
    intros Hc; inversion Hc; lia.
Qed.

(** Every iteration either leaves the output and the uniqueness table
    alone, or creates one node: a node with two different children, absent
    from the table, pushed to the output and recorded in the table. *)
Lemma iteration_cases (A B : Bdd) (t : LookupTable) (s s' : ApplyState) :
  Apply.iteration A B t s = Some s' ->
  (output s' = output s /\ nodes s' = nodes s) \/
  exists cv node p,
    0 <= cv /\ low node <> high node /\ nodes s !! (cv, node) = None /\
    Bdd.push_node (output s) cv node = Some (output s', p) /\
    nodes s' = <[(cv, node) := p]> (nodes s).
Proof.
  unfold Apply.iteration. intros H.
  destruct (task_stack s) as [|[l r] rest]; [inversion H; subst; left; auto|].
  destruct (tasks s !! (l, r)); [inversion H; subst; left; auto|].
  destruct (Apply.condition_var_of _ _) as [cv|] eqn:Hcv; [|discriminate].
  destruct (Apply.children A l _ cv) as [[ll lh]|]; [|discriminate].
  destruct (Apply.children B r _ cv) as [[rl rh]|]; [|discriminate].
  destruct (Apply.resolve_child t (tasks s) ll rl) as [rlo|],
           (Apply.resolve_child t (tasks s) lh rh) as [rhi|];
    try (inversion H; subst; left; auto; fail).
  destruct (rlo =? rhi) eqn:Heq; [inversion H; subst; left; auto|].
  destruct (nodes s !! (cv, (rlo, rhi))) eqn:Hn; [inversion H; subst; left; auto|].
  destruct (Bdd.push_node (output s) cv (rlo, rhi)) as [[o' p]|] eqn:Hp; [|discriminate].
  inversion H; subst. right. exists cv, (rlo, rhi), p. cbn.
  apply Z.eqb_neq in Heq. repeat split; auto.
  eapply condition_var_nonneg; eauto.
Qed.

(** An invariant of the iterations holds of the state [finish] reads. *)
Lemma run_invariant (A B : Bdd) (t : LookupTable) (P : ApplyState -> Prop) :
  (forall s s', P s -> Apply.iteration A B t s = Some s' -> P s') ->
  forall fuel s o, P s -> Apply.run fuel A B t s = Some o ->
  o = Panicked \/ exists s', P s' /\ o = Apply.finish A B s'.
Proof.
  intros Hstep fuel. induction fuel as [|fuel IH]; intros s o Hs Hrun; [discriminate|].
  cbn in Hrun. destruct (task_stack s).
  - inversion Hrun. right. eauto.
  - destruct (Apply.iteration A B t s) as [s'|] eqn:Hi.
    + eapply IH; [eapply Hstep|]; eauto.
    + inversion Hrun. auto.
Qed.

(** [apply] either takes the shortcut of the initial lookup, or runs the
    loop from the initial state. *)
Lemma apply_fuel_cases (fuel : nat) (A B : Bdd) (t : LookupTable) (o : Outcome) :
  Apply.apply_fuel fuel A B t = Some o ->
  (exists c, o = Returned (Bdd.mk_const c)) \/ o = Panicked \/
  Apply.run fuel A B t (Apply.initial_state A B) = Some o.
Proof.
  unfold Apply.apply_fuel. cbv zeta.
  destruct (t _ _); [intros H; inversion H; eauto|].
  destruct (NodePointer.as_bool (Bdd.root A)), (NodePointer.as_bool (Bdd.root B));
    intros H; try (inversion H; auto; fail); auto.
Qed.

(** Any invariant of the loop that the initial state has holds of the
    state read by [finish] when [apply] returns a non-constant result. *)
Lemma apply_invariant (A B : Bdd) (t : LookupTable) (P : ApplyState -> Prop) (c : Bdd) :
  (forall s s', P s -> Apply.iteration A B t s = Some s' -> P s') ->
  P (Apply.initial_state A B) ->
  Apply.apply A B t (Returned c) ->
  (exists v, c = Bdd.mk_const v) \/
  exists s' p, P s' /\ NodePointer.is_terminal p = false /\ c = Bdd.set_root (output s') p.
Proof.
  intros Hstep Hinit [fuel Hf].
  destruct (apply_fuel_cases _ _ _ _ _ Hf) as [[v Hv]|[Hp|Hrun]].
  - inversion Hv. eauto.
  - discriminate.
  - destruct (run_invariant A B t P Hstep fuel _ _ Hinit Hrun) as [Hp|[s' [Hs' Ho]]];
      [discriminate|].
    unfold Apply.finish in Ho.
    destruct (tasks s' !! _) as [p|]; [|discriminate].
    unfold NodePointer.as_bool in Ho.
    destruct (NodePointer.is_terminal p) eqn:Ht; inversion Ho; eauto 6.
Qed.

Lemma push_node_nodes (b b' : Bdd) (v : VariableId) (n : Node) (p : NodePointer) :
  Bdd.push_node b v n = Some (b', p) ->
  exists vector, bdd_nodes b !! Z.to_nat v = Some vector /\
    bdd_nodes b' = <[Z.to_nat v := vector ++ [n]]> (bdd_nodes b) /\
    NodePointer.new v (Z.of_nat (length vector)) = Some p.
Proof.
  unfold Bdd.push_node. destruct (bdd_nodes b !! Z.to_nat v) as [vector|]; [|discriminate].
  destruct (NodePointer.new _ _) eqn:Hn; [|discriminate].
  intros H; inversion H; subst. eauto.
Qed.

End ApplyFacts.

(* ------------------------------------------------------------------ *)
(** ** The shape of public values *)

Module Shape.

Lemma lookup_repeat_Some {A} (x y : A) (n i : nat) :
  repeat x n !! i = Some y -> (i < n)%nat /\ y = x.
Proof.
  revert i. induction n as [|n IH]; intros [|i] H; cbn in H; try discriminate.
  - inversion H. split; [lia | reflexivity].
  - destruct (IH i H). split; [lia | assumption].
Qed.

Lemma lookup_repeat_lt {A} (x : A) (n i : nat) : (i < n)%nat -> repeat x n !! i = Some x.
Proof.
  revert i. induction n as [|n IH]; intros [|i] H; cbn; try lia; auto.
  apply IH. lia.
Qed.

Lemma length_repeat' {A} (x : A) (n : nat) : length (repeat x n) = n.
Proof. induction n; cbn; auto. Qed.

(** A literal: variable [id] below 64, one node, a non-terminal root. *)
Lemma mk_var_shape (id : VariableId) (value : bool) (b : Bdd) :
  0 <= id -> Bdd.mk_var id value = Some b ->
  id < 64 /\ NodePointer.is_terminal (Bdd.root b) = false /\
  bdd_nodes b = <[Z.to_nat id := [if value then (NodePointer.zero, NodePointer.one)
                                    else (NodePointer.one, NodePointer.zero)]]> (repeat [] 64).
Proof.
  intros Hid. unfold Bdd.mk_var.
  destruct (Bdd.push_node _ _ _) as [[b' p]|] eqn:Hp; [|discriminate].
  intros H; inversion H; subst; clear H.
  destruct (ApplyFacts.push_node_nodes _ _ _ _ _ Hp) as (vec & Hv & Hn & Hnew).
  apply lookup_repeat_Some in Hv as [Hlt ->].
  assert (Hid64 : id < 64) by lia.
  change (Z.of_nat (length [])) with 0 in Hnew.
  destruct (node_pointer_roundtrip_general id 0) as (p' & Hp' & Ht & _); [lia| |].
  { unfold index_capacity. pose proof (block_rank_range id ltac:(lia)).
    split; [lia | apply Z.pow_pos_nonneg; lia]. }
  rewrite Hnew in Hp'. inversion Hp'; subst.
  split; [exact Hid64|]. split; [exact Ht|]. cbn. rewrite Hn. reflexivity.
Qed.


Lemma iteration_64 (A B : Bdd) (t : LookupTable) (s s' : ApplyState) :
  has_64_vectors s -> Apply.iteration A B t s = Some s' -> has_64_vectors s'.
Proof.
  unfold has_64_vectors. intros Hs Hi.
  destruct (ApplyFacts.iteration_cases _ _ _ _ _ Hi) as [[-> _]|(cv & n & p & _ & _ & _ & Hp & _)];
    [exact Hs|].
  destruct (ApplyFacts.push_node_nodes _ _ _ _ _ Hp) as (vec & _ & -> & _).
  rewrite length_insert. exact Hs.
Qed.

(** A value of the public API is a constant, or has a non-terminal root
    and 64 node vectors. *)
Lemma public_shape (b : Bdd) :
  public_bdd b ->
  (exists c, b = Bdd.mk_const c) \/
  (NodePointer.is_terminal (Bdd.root b) = false /\ length (bdd_nodes b) = 64%nat).
Proof.
  induction 1 as [c|id value b Hid Hb|b Hb IH|op a b c Ha IHa Hb IHb Happ].
  - left. eauto.
  - right. destruct (mk_var_shape id value b ltac:(lia) Hb) as (_ & Ht & Hn).
    split; [exact Ht|]. rewrite Hn, length_insert. reflexivity.
  - unfold Bdd.not. destruct (Bdd.is_true b) eqn:Ht.
    { left. exists false. reflexivity. }
    destruct (Bdd.is_false b) eqn:Hf.
    { left. exists true. reflexivity. }
    destruct IH as [[c ->]|[Hr Hl]].
    + destruct c; discriminate.
    + right. cbn. split; [exact Hr|]. rewrite length_map. exact Hl.
  - destruct (ApplyFacts.apply_invariant a b (op_table op) has_64_vectors c
                (iteration_64 a b (op_table op)) eq_refl Happ)
      as [[v ->]|(s' & p & Hs & Hp & ->)].
    + left. eauto.
    + right. split; [exact Hp | exact Hs].
Qed.

End Shape.

Module FlipFacts.

Lemma flip_if_terminal_involutive (p : NodePointer) :
  NodePointer.flip_if_terminal (NodePointer.flip_if_terminal p) = p.
Proof.
  unfold NodePointer.flip_if_terminal, NodePointer.is_one, NodePointer.is_zero,
    NodePointer.one, NodePointer.zero.
  destruct (p =? 32768) eqn:E1; [apply Z.eqb_eq in E1; subst; reflexivity|].
  destruct (p =? 0) eqn:E0; [apply Z.eqb_eq in E0; subst; reflexivity|].
  rewrite E1, E0. reflexivity.
Qed.

End FlipFacts.

(* ------------------------------------------------------------------ *)
(** ** Reducedness of the output of [apply] *)

Module Reduced.


Lemma inv_initial (A B : Bdd) : reduced_inv (Apply.initial_state A B).
Proof.
  intros k vector Hk. apply Shape.lookup_repeat_Some in Hk as [_ ->].
  split; [constructor|]. intros n Hn. apply elem_of_nil in Hn. contradiction.
Qed.

Lemma inv_iteration (A B : Bdd) (t : LookupTable) (s s' : ApplyState) :
  reduced_inv s -> Apply.iteration A B t s = Some s' -> reduced_inv s'.
Proof.
  intros Hs Hi.
  destruct (ApplyFacts.iteration_cases _ _ _ _ _ Hi)
    as [[Ho Hn]|(cv & node & p & Hcv & Hlh & Hnone & Hp & Hn)].
  { unfold reduced_inv. rewrite Ho, Hn. exact Hs. }
  destruct (ApplyFacts.push_node_nodes _ _ _ _ _ Hp) as (vec0 & Hvec0 & Hout & _).
  assert (Hgrow : forall k n, is_Some (nodes s !! (k, n)) -> is_Some (nodes s' !! (k, n))).
  { intros k n' H. rewrite Hn. apply lookup_insert_is_Some'. right. exact H. }
  intros k vector Hk. rewrite Hout, list_lookup_insert in Hk.
  destruct (decide (Z.to_nat cv = k /\ (Z.to_nat cv < length (bdd_nodes (output s)))%nat))
    as [[<- _]|Hne].
  - inversion Hk; subst vector; clear Hk.
    destruct (Hs _ _ Hvec0) as [Hnd Hel].
    rewrite Z2Nat.id in Hel by exact Hcv.
    split.
    + apply NoDup_app. split; [exact Hnd|]. split; [|apply NoDup_singleton].
      intros x Hx Hx'. apply list_elem_of_singleton in Hx'. subst x.
      destruct (Hel _ Hx) as [_ Hsome]. rewrite Hnone in Hsome. inversion Hsome. discriminate.
    + intros n' Hn'. rewrite Z2Nat.id by exact Hcv.
      apply elem_of_app in Hn' as [Hn'|Hn'].
      * destruct (Hel _ Hn') as [Hd Hsome]. split; [exact Hd | apply Hgrow, Hsome].
      * apply list_elem_of_singleton in Hn'. subst n'. split; [exact Hlh|].
        rewrite Hn, lookup_insert_eq. eexists. reflexivity.
  - destruct (Hs _ _ Hk) as [Hnd Hel]. split; [exact Hnd|].
    intros n' Hn'. destruct (Hel _ Hn') as [Hd Hsome]. split; [exact Hd | apply Hgrow, Hsome].
Qed.

Lemma inv_reduced (s : ApplyState) (p : NodePointer) :
  reduced_inv s -> reduced (Bdd.set_root (output s) p).
Proof.
  intros Hs. unfold reduced. cbn. apply Forall_lookup. intros k vector Hk.
  destruct (Hs _ _ Hk) as [Hnd Hel]. split; [exact Hnd|].
  apply Forall_forall. intros n Hn. apply Hel. exact Hn.
Qed.

Lemma flip_node_involutive (n : Node) : Bdd.flip_node (Bdd.flip_node n) = n.
Proof.
  destruct n as [l h]. unfold Bdd.flip_node, low, high. cbn.
  rewrite !FlipFacts.flip_if_terminal_involutive. reflexivity.
Qed.

Lemma NoDup_map_inj {A C} (f : A -> C) (l : list A) :
  (forall x y, f x = f y -> x = y) -> NoDup l -> NoDup (map f l).
Proof.
  intros Hf. induction 1 as [|x l Hx Hl IH]; cbn; constructor; [|exact IH].
  intros Hin. apply list_elem_of_In, in_map_iff in Hin as (y & Hy & Hin).
  apply Hf in Hy. subst y. apply Hx, list_elem_of_In. exact Hin.
Qed.

Lemma reduced_not (b : Bdd) : reduced b -> reduced (Bdd.not b).
Proof.
  intros Hb. unfold Bdd.not.
  destruct (Bdd.is_true b); [constructor|]. destruct (Bdd.is_false b); [constructor|].
  unfold reduced in *. cbn. apply Forall_map. eapply Forall_impl; [exact Hb|].
  intros vector [Hnd Hlh]. split.
  - apply NoDup_map_inj; [|exact Hnd].
    intros x y Hxy. rewrite <- (flip_node_involutive x), <- (flip_node_involutive y), Hxy.
    reflexivity.
  - apply Forall_map. eapply Forall_impl; [exact Hlh|]. intros [l h] Hd Heq.
    apply Hd. unfold Bdd.flip_node, low, high in *. cbn in *.
    rewrite <- (FlipFacts.flip_if_terminal_involutive l), Heq.
    apply FlipFacts.flip_if_terminal_involutive.
Qed.

Lemma reduced_mk_var (id : VariableId) (value : bool) (b : Bdd) :
  0 <= id -> Bdd.mk_var id value = Some b -> reduced b.
Proof.
  intros Hid Hb. destruct (Shape.mk_var_shape _ _ _ Hid Hb) as (_ & _ & Hn).
  unfold reduced. rewrite Hn. apply Forall_lookup. intros k vector Hk.
  rewrite list_lookup_insert in Hk. destruct (decide _).
  - inversion Hk. split.
    + apply NoDup_singleton.
    + constructor; [|constructor]. destruct value; discriminate.
  - apply Shape.lookup_repeat_Some in Hk as [_ ->]. split; constructor.
Qed.

Lemma reduced_apply (A B c : Bdd) (t : LookupTable) :
  Apply.apply A B t (Returned c) -> reduced c.
Proof.
  intros H.
  destruct (ApplyFacts.apply_invariant A B t reduced_inv c (inv_iteration A B t) (inv_initial A B) H)
    as [[v ->]|(s' & p & Hs & _ & ->)].
  - constructor.
  - apply inv_reduced. exact Hs.
Qed.

End Reduced.

(* ------------------------------------------------------------------ *)
(** ** [apply] with swapped arguments *)

Module Swap.


Lemma condition_var_of_comm (x y : option VariableId) :
  Apply.condition_var_of x y = Apply.condition_var_of y x.
Proof. destruct x, y; cbn; auto. rewrite Z.min_comm. reflexivity. Qed.

Lemma resolve_child_swap (t : LookupTable) (ta1 ta2 : gmap (NodePointer * NodePointer) NodePointer)
  (l r : NodePointer) :
  symmetric_table t -> (forall l r, ta2 !! (r, l) = ta1 !! (l, r)) ->
  Apply.resolve_child t ta2 r l = Apply.resolve_child t ta1 l r.
Proof. intros Ht Hta. unfold Apply.resolve_child. rewrite Ht, Hta. reflexivity. Qed.

Lemma tasks_swap_insert (ta1 ta2 : gmap (NodePointer * NodePointer) NodePointer)
  (l r x : NodePointer) :
  (forall l r, ta2 !! (r, l) = ta1 !! (l, r)) ->
  forall l' r', <[(r, l) := x]> ta2 !! (r', l') = <[(l, r) := x]> ta1 !! (l', r').
Proof.
  intros Hta l' r'. rewrite !lookup_insert.
  destruct (decide ((r, l) = (r', l'))) as [E|E], (decide ((l, r) = (l', r'))) as [E'|E'];
    congruence.
Qed.

Ltac swapped_step :=
  repeat split; cbn; auto; try (apply tasks_swap_insert; assumption).

Lemma iteration_swap (A B : Bdd) (t : LookupTable) (s1 s2 : ApplyState) :
  symmetric_table t -> swapped s1 s2 ->
  match Apply.iteration A B t s1, Apply.iteration B A t s2 with
  | Some a, Some b => swapped a b
  | None, None => True
  | _, _ => False
  end.
Proof.
  intros Ht Hsw.
  destruct s1 as [st1 ta1 no1 ou1], s2 as [st2 ta2 no2 ou2].
  destruct Hsw as (Hst & Hta & Hno & Hou); cbn in Hst, Hta, Hno, Hou; subst.
  unfold Apply.iteration; cbn [task_stack tasks nodes output].
  destruct st1 as [|[l r] rest]; cbn [map]; [swapped_step|].
  change (swap_task (l, r)) with (r, l). cbv beta iota. rewrite Hta.
  destruct (ta1 !! (l, r)); [swapped_step|].
  rewrite (condition_var_of_comm (Apply.var_of r) (Apply.var_of l)).
  destruct (Apply.condition_var_of (Apply.var_of l) (Apply.var_of r)) as [cv|]; [|exact I].
  destruct (Apply.children A l (Apply.var_of l) cv) as [[ll lh]|],
           (Apply.children B r (Apply.var_of r) cv) as [[rl rh]|]; try exact I.
  rewrite (resolve_child_swap t ta1 ta2 ll rl Ht Hta),
          (resolve_child_swap t ta1 ta2 lh rh Ht Hta).
  destruct (Apply.resolve_child t ta1 ll rl) as [a|],
           (Apply.resolve_child t ta1 lh rh) as [b|]; [|swapped_step..].
  destruct (a =? b); [swapped_step|].
  destruct (no1 !! (cv, (a, b))); [swapped_step|].
  destruct (Bdd.push_node ou1 cv (a, b)) as [[o' p]|]; [swapped_step|exact I].
Qed.

Lemma run_swap (A B : Bdd) (t : LookupTable) :
  symmetric_table t ->
  forall fuel s1 s2, swapped s1 s2 -> Apply.run fuel A B t s1 = Apply.run fuel B A t s2.
Proof.
  intros Ht fuel. induction fuel as [|fuel IH]; intros s1 s2 Hsw; [reflexivity|].
  cbn. pose proof (iteration_swap A B t s1 s2 Ht Hsw) as Hi.
  destruct Hsw as (Hst & Hta & Hno & Hou). rewrite Hst.
  destruct (task_stack s1); cbn [map].
  - unfold Apply.finish. rewrite Hta, Hou. reflexivity.
  - destruct (Apply.iteration A B t s1), (Apply.iteration B A t s2); try contradiction; auto.
Qed.

Lemma apply_fuel_swap (fuel : nat) (A B : Bdd) (t : LookupTable) :
  symmetric_table t -> Apply.apply_fuel fuel A B t = Apply.apply_fuel fuel B A t.
Proof.
  intros Ht. unfold Apply.apply_fuel. cbv zeta. rewrite Ht.
  destruct (t _ _); [reflexivity|].
  destruct (NodePointer.as_bool (Bdd.root A)), (NodePointer.as_bool (Bdd.root B));
    try reflexivity; apply run_swap; auto;
    (repeat split; cbn; auto; intros; rewrite !lookup_empty; reflexivity).
Qed.

Lemma symmetric_and : symmetric_table op_function.and.
Proof. intros [[]|] [[]|]; reflexivity. Qed.
Lemma symmetric_or : symmetric_table op_function.or.
Proof. intros [[]|] [[]|]; reflexivity. Qed.
Lemma symmetric_iff : symmetric_table op_function.iff.
Proof. intros [[]|] [[]|]; reflexivity. Qed.
Lemma symmetric_xor : symmetric_table op_function.xor.
Proof. intros [[]|] [[]|]; reflexivity. Qed.

End Swap.

(* ------------------------------------------------------------------ *)
(** ** Pointers built by [new] *)

Module NewFacts.

Lemma new_bound (v i p : Z) :
  0 <= v < 64 -> NodePointer.new v i = Some p -> 0 <= i < index_capacity v.
Proof.
  intros Hv Hnew. unfold NodePointer.new in Hnew. cbv zeta in Hnew.
  destruct ((0 <=? i) && (i <? u16_max)) eqn:Hr; cbn [negb] in Hnew; [|discriminate].
  apply andb_prop in Hr as [Hr1 Hr2]. apply Z.leb_le in Hr1. apply Z.ltb_lt in Hr2.
  destruct (shr16 (shl16 i (NodePointer.block_rank_of v + 4)) (NodePointer.block_rank_of v + 4) =? i)
    eqn:Hc; cbn [negb] in Hnew; [|discriminate].
  apply Z.eqb_eq in Hc. unfold shr16, shl16 in Hc.
  rewrite ones16, Z.land_ones, Z.shiftl_mul_pow2, Z.shiftr_div_pow2 in Hc
    by (pose proof (block_rank_range v Hv); lia).
  unfold index_capacity. pose proof (block_rank_range v Hv) as Hrk.
  unfold u16_max in Hr2.
  destruct Hrk as [Hrk0 Hrk7].
  assert (Hcases : NodePointer.block_rank_of v = 0 \/ NodePointer.block_rank_of v = 1 \/
    NodePointer.block_rank_of v = 2 \/ NodePointer.block_rank_of v = 3 \/
    NodePointer.block_rank_of v = 4 \/ NodePointer.block_rank_of v = 5 \/
    NodePointer.block_rank_of v = 6 \/ NodePointer.block_rank_of v = 7) by lia.
  destruct Hcases as [E|[E|[E|[E|[E|[E|[E|E]]]]]]]; rewrite E in *; cbn in Hc |- *; zlia.
Qed.

(** A pointer built by [new] for a variable below 64 is not a terminal and
    decodes to its variable and index. *)
Lemma new_decode (v i p : Z) :
  0 <= v < 64 -> NodePointer.new v i = Some p ->
  NodePointer.is_terminal p = false /\ NodePointer.variable_id p = v /\
  NodePointer.node_index p = i.
Proof.
  intros Hv Hnew. pose proof (new_bound v i p Hv Hnew) as Hi.
  destruct (node_pointer_roundtrip_general v i Hv Hi) as (p' & Hp' & H1 & H2 & H3).
  rewrite Hnew in Hp'. inversion Hp'. subst. auto.
Qed.

Lemma new_as_bool (v i p : Z) :
  0 <= v < 64 -> NodePointer.new v i = Some p -> NodePointer.as_bool p = None.
Proof.
  intros Hv Hnew. unfold NodePointer.as_bool.
  rewrite (proj1 (new_decode v i p Hv Hnew)). reflexivity.
Qed.

End NewFacts.

(* ------------------------------------------------------------------ *)
(** ** Decision trees *)

Module TreeFacts.
Import Tree.

Lemma above_weaken (k k' : VariableId) (t : tree) : above k t -> k' <= k -> above k' t.
Proof. induction t; cbn; intuition lia. Qed.

Lemma ordered_above (k v : VariableId) (l h : tree) :
  ordered (TNode v l h) -> k < v -> above k (TNode v l h).
Proof.
  cbn. intros (Hl & Hh & _) Hk. repeat split; auto;
    eapply above_weaken; eauto; lia.
Qed.

Lemma mk_reduced (v : VariableId) (a b : tree) :
  treduced a -> treduced b -> treduced (mk v a b).
Proof. unfold mk. destruct (decide (a = b)); cbn; auto. Qed.

Lemma mk_above (k v : VariableId) (a b : tree) :
  above k a -> above k b -> k < v -> above k (mk v a b).
Proof. unfold mk. destruct (decide (a = b)); cbn; auto. Qed.

Lemma mk_ordered (v : VariableId) (a b : tree) :
  above v a -> above v b -> ordered a -> ordered b -> ordered (mk v a b).
Proof. unfold mk. destruct (decide (a = b)); cbn; auto. Qed.

Lemma mk_in_range (v : VariableId) (a b : tree) :
  0 <= v < 64 -> in_range a -> in_range b -> in_range (mk v a b).
Proof. unfold mk. destruct (decide (a = b)); cbn; auto. Qed.

Lemma tapply_eq (table : LookupTable) (t1 t2 : tree) :
  tapply table t1 t2 =
  match table (leaf_value t1) (leaf_value t2) with
  | Some c => Leaf c
  | None =>
    match t1, t2 with
    | Leaf _, Leaf _ => Leaf false
    | TNode v l h, Leaf _ => mk v (tapply table l t2) (tapply table h t2)
    | Leaf _, TNode v l h => mk v (tapply table t1 l) (tapply table t1 h)
    | TNode v1 l1 h1, TNode v2 l2 h2 =>
      if v1 =? v2 then mk v1 (tapply table l1 l2) (tapply table h1 h2)
      else if v1 <? v2 then mk v1 (tapply table l1 t2) (tapply table h1 t2)
      else mk v2 (tapply table t1 l2) (tapply table t1 h2)
    end
  end.
Proof. destruct t1, t2; reflexivity. Qed.

Ltac tapply_unfold := rewrite tapply_eq; cbv beta iota delta [leaf_value].

Lemma tapply_reduced (t : LookupTable) (t1 t2 : tree) : treduced (tapply t t1 t2).
Proof.
  revert t2. induction t1 as [c1|v1 l1 IHl h1 IHh]; intros t2;
    induction t2 as [c2|v2 l2 IHl2 h2 IHh2]; tapply_unfold;
    destruct (t _ _); cbn [treduced]; auto; try (apply mk_reduced; auto).
  destruct (v1 =? v2); [apply mk_reduced; auto|].
  destruct (v1 <? v2); apply mk_reduced; auto.
Qed.

Lemma tapply_above (t : LookupTable) (k : VariableId) (t1 t2 : tree) :
  above k t1 -> above k t2 -> above k (tapply t t1 t2).
Proof.
  revert t2. induction t1 as [c1|v1 l1 IHl h1 IHh]; intros t2;
    induction t2 as [c2|v2 l2 IHl2 h2 IHh2]; intros H1 H2; tapply_unfold;
    destruct (t _ _); cbn [above]; auto; cbn [above] in H1, H2.
  - destruct H2 as (? & ? & ?). apply mk_above; auto.
  - destruct H1 as (? & ? & ?). apply mk_above; auto.
  - destruct H1 as (? & ? & ?), H2 as (? & ? & ?).
    destruct (v1 =? v2); [apply mk_above; auto|].
    destruct (v1 <? v2); apply mk_above; try assumption;
      first [apply IHl | apply IHh | apply IHl2 | apply IHh2]; cbn [above]; auto.
Qed.

Lemma tapply_in_range (t : LookupTable) (t1 t2 : tree) :
  in_range t1 -> in_range t2 -> in_range (tapply t t1 t2).
Proof.
  revert t2. induction t1 as [c1|v1 l1 IHl h1 IHh]; intros t2;
    induction t2 as [c2|v2 l2 IHl2 h2 IHh2]; intros H1 H2; tapply_unfold;
    destruct (t _ _); cbn [in_range]; auto; cbn [in_range] in H1, H2.
  - destruct H2 as (? & ? & ?). apply mk_in_range; auto.
  - destruct H1 as (? & ? & ?). apply mk_in_range; auto.
  - destruct H1 as (? & ? & ?), H2 as (? & ? & ?).
    destruct (v1 =? v2); [apply mk_in_range; auto|].
    destruct (v1 <? v2); apply mk_in_range; try assumption;
      first [apply IHl | apply IHh | apply IHl2 | apply IHh2]; cbn [in_range]; auto.
Qed.

Lemma tapply_ordered (t : LookupTable) (t1 t2 : tree) :
  ordered t1 -> ordered t2 -> ordered (tapply t t1 t2).
Proof.
  revert t2. induction t1 as [c1|v1 l1 IHl h1 IHh]; intros t2;
    induction t2 as [c2|v2 l2 IHl2 h2 IHh2]; intros H1 H2; tapply_unfold;
    destruct (t _ _); cbn [ordered]; auto.
  - pose proof H2 as H2'. cbn [ordered] in H2. destruct H2 as (? & ? & ? & ?).
    apply mk_ordered; auto; apply tapply_above; cbn [above]; auto.
  - pose proof H1 as H1'. cbn [ordered] in H1. destruct H1 as (? & ? & ? & ?).
    apply mk_ordered; auto; apply tapply_above; cbn [above]; auto.
  - pose proof H1 as H1'. pose proof H2 as H2'. cbn [ordered] in H1, H2.
    destruct H1 as (? & ? & ? & ?), H2 as (? & ? & ? & ?).
    destruct (v1 =? v2) eqn:E.
    + apply Z.eqb_eq in E. subst v2.
      apply mk_ordered; auto; apply tapply_above; auto.
    + destruct (v1 <? v2) eqn:E'.
      * apply Z.ltb_lt in E'.
        apply mk_ordered; auto; apply tapply_above; auto; apply ordered_above; auto.
      * apply Z.eqb_neq in E. apply Z.ltb_ge in E'.
        apply mk_ordered; auto; apply tapply_above; auto; apply ordered_above; auto; lia.
Qed.

Lemma tnot_reduced (t : tree) : treduced t -> treduced (tnot t).
Proof.
  induction t as [c|v l IHl h IHh]; cbn; auto. intros (Hne & Hl & Hh).
  repeat split; auto. intros E. apply Hne.
  clear -E. revert h E. induction l as [c|v l IHl h' IHh]; intros [c'|v' l' h''] E;
    cbn in E; inversion E; auto.
  - f_equal. destruct c, c'; auto; discriminate.
  - f_equal; auto.
Qed.

Lemma tnot_above (k : VariableId) (t : tree) : above k t -> above k (tnot t).
Proof. induction t; cbn; intuition. Qed.

Lemma tnot_ordered (t : tree) : ordered t -> ordered (tnot t).
Proof. induction t; cbn; intuition auto using tnot_above. Qed.

Lemma tnot_in_range (t : tree) : in_range t -> in_range (tnot t).
Proof. induction t; cbn; intuition. Qed.


Lemma teval_above (env : VariableId -> bool) (k : VariableId) (c : bool) (t : tree) :
  above k t -> teval (upd env k c) t = teval env t.
Proof.
  induction t as [c'|w l IHl h IHh]; cbn; auto. intros (Hk & Hl & Hh).
  unfold upd at 1. replace (w =? k) with false by (symmetry; apply Z.eqb_neq; lia).
  rewrite IHl, IHh by assumption. reflexivity.
Qed.

Lemma teval_lo (env : VariableId -> bool) (v : VariableId) (l h : tree) :
  above v l -> teval env l = teval (upd env v false) (TNode v l h).
Proof.
  intros Hl. cbn. unfold upd at 1. rewrite Z.eqb_refl. rewrite teval_above; auto.
Qed.

Lemma teval_hi (env : VariableId -> bool) (v : VariableId) (l h : tree) :
  above v h -> teval env h = teval (upd env v true) (TNode v l h).
Proof.
  intros Hh. cbn. unfold upd at 1. rewrite Z.eqb_refl. rewrite teval_above; auto.
Qed.

(** Ordered reduced trees with the same meaning are equal. *)
Lemma tree_canonicity (t1 t2 : tree) :
  ordered t1 -> ordered t2 -> treduced t1 -> treduced t2 ->
  (forall env, teval env t1 = teval env t2) -> t1 = t2.
Proof.
  revert t2. induction t1 as [c1|v1 l1 IHl h1 IHh]; intros t2;
    induction t2 as [c2|v2 l2 IHl2 h2 IHh2]; intros O1 O2 R1 R2 Hsem.
  - specialize (Hsem (fun _ => false)). cbn in Hsem. subst. reflexivity.
  - exfalso. pose proof O2 as O2'. destruct O2 as (Al & Ah & Ol & Oh). destruct R2 as (Rne & Rl & Rh).
    assert (E1 : Leaf c1 = l2).
    { apply IHl2; cbn; auto. intros env. rewrite (teval_lo env v2 l2 h2 Al), <- Hsem. reflexivity. }
    assert (E2 : Leaf c1 = h2).
    { apply IHh2; cbn; auto. intros env. rewrite (teval_hi env v2 l2 h2 Ah), <- Hsem. reflexivity. }
    congruence.
  - exfalso. destruct O1 as (Al & Ah & Ol & Oh). destruct R1 as (Rne & Rl & Rh).
    assert (E1 : l1 = Leaf c2).
    { apply IHl; cbn; auto. intros env. rewrite (teval_lo env v1 l1 h1 Al), Hsem. reflexivity. }
    assert (E2 : h1 = Leaf c2).
    { apply IHh; cbn; auto. intros env. rewrite (teval_hi env v1 l1 h1 Ah), Hsem. reflexivity. }
    congruence.
  - pose proof O1 as O1'. pose proof O2 as O2'.
    destruct O1 as (Al1 & Ah1 & Ol1 & Oh1), O2 as (Al2 & Ah2 & Ol2 & Oh2).
    pose proof R1 as R1'. pose proof R2 as R2'.
    destruct R1 as (Rne1 & Rl1 & Rh1), R2 as (Rne2 & Rl2 & Rh2).
    destruct (Z.lt_total v1 v2) as [Hlt|[Heq|Hgt]].
    + exfalso. assert (A2 : above v1 (TNode v2 l2 h2)) by (apply ordered_above; auto).
      assert (E1 : l1 = TNode v2 l2 h2).
      { apply IHl; auto. intros env. rewrite (teval_lo env v1 l1 h1 Al1), Hsem.
        apply teval_above. exact A2. }
      assert (E2 : h1 = TNode v2 l2 h2).
      { apply IHh; auto. intros env. rewrite (teval_hi env v1 l1 h1 Ah1), Hsem.
        apply teval_above. exact A2. }
      congruence.
    + subst v2. f_equal.
      * apply IHl; auto. intros env.
        rewrite (teval_lo env v1 l1 h1 Al1), (teval_lo env v1 l2 h2 Al2). apply Hsem.
      * apply IHh; auto. intros env.
        rewrite (teval_hi env v1 l1 h1 Ah1), (teval_hi env v1 l2 h2 Ah2). apply Hsem.
    + exfalso. assert (A1 : above v2 (TNode v1 l1 h1)) by (apply ordered_above; auto).
      assert (E1 : TNode v1 l1 h1 = l2).
      { apply IHl2; auto. intros env. rewrite (teval_lo env v2 l2 h2 Al2), <- Hsem.
        symmetry. apply teval_above. exact A1. }
      assert (E2 : TNode v1 l1 h1 = h2).
      { apply IHh2; auto. intros env. rewrite (teval_hi env v2 l2 h2 Ah2), <- Hsem.
        symmetry. apply teval_above. exact A1. }
      congruence.
Qed.

End TreeFacts.
(* ------------------------------------------------------------------ *)
(** * Simulation of [apply] by decision trees

    The loop of [apply] builds exactly the canonical [Bdd] of the tree
    [Tree.tapply table tA tB]; every value of the public API is such a
    canonical [Bdd]; and [eval] agrees with [Tree.teval] on it. *)

Module Layout.
Import Tree.

Lemma as_bool_terminal (c : bool) : NodePointer.as_bool (NodePointer.terminal c) = Some c.
Proof. destruct c; reflexivity. Qed.

Lemma canon_terminal (c : bool) : canon_ptr (NodePointer.terminal c).
Proof. left. eauto. Qed.

Lemma canon_as_bool_Some (p : NodePointer) (c : bool) :
  canon_ptr p -> NodePointer.as_bool p = Some c -> p = NodePointer.terminal c.
Proof.
  intros [[c' ->]|(v & i & Hv & Hn)] H.
  - rewrite as_bool_terminal in H. congruence.
  - rewrite (NewFacts.new_as_bool v i p Hv Hn) in H. discriminate.
Qed.

Lemma canon_as_bool_None (p : NodePointer) :
  canon_ptr p -> NodePointer.as_bool p = None ->
  exists v i, 0 <= v < 64 /\ NodePointer.new v i = Some p.
Proof.
  intros [[c ->]|Hn] H; [|exact Hn].
  rewrite as_bool_terminal in H. discriminate.
Qed.

Lemma denotes_leaf_value (b : Bdd) (p : NodePointer) (t : tree) :
  denotes b p t -> leaf_value t = NodePointer.as_bool p.
Proof. destruct 1; cbn; congruence. Qed.

Lemma denotes_functional (b : Bdd) (p : NodePointer) (t1 t2 : tree) :
  denotes b p t1 -> denotes b p t2 -> t1 = t2.
Proof.
  intros H1. revert t2. induction H1 as [p c Hc|p lo hi tl th Hp Hn Hl IHl Hh IHh];
    intros t2 H2; inversion H2; subst; try congruence.
  rewrite Hn in *. match goal with H : Some _ = Some _ |- _ => inversion H; subst end.
  f_equal; auto.
Qed.

Lemma denotes_extends (b b' : Bdd) (p : NodePointer) (t : tree) :
  extends b b' -> denotes b p t -> denotes b' p t.
Proof.
  intros Hext. induction 1; [constructor; assumption|].
  eapply denotes_node; eauto.
Qed.

Lemma denotes_nonneg (b : Bdd) (p : NodePointer) (t : tree) :
  denotes b p t -> above (-1) t.
Proof.
  induction 1; cbn; auto. pose proof (ApplyFacts.variable_id_nonneg p). repeat split; auto; lia.
Qed.

Lemma node_lookup (b : Bdd) (v i : Z) (n : Node) :
  Bdd.node b v i = Some n <->
  exists vector, bdd_nodes b !! Z.to_nat v = Some vector /\ vector !! Z.to_nat i = Some n.
Proof.
  unfold Bdd.node. destruct (bdd_nodes b !! Z.to_nat v); cbn; split.
  - eauto.
  - intros (? & E & ?). inversion E; subst; auto.
  - discriminate.
  - intros (? & E & ?). discriminate.
Qed.

Lemma hc_node (b : Bdd) (v i : Z) (n : Node) :
  hash_consed b -> Bdd.node b v i = Some n -> canon_ptr (low n) /\ canon_ptr (high n).
Proof.
  intros [_ Hc] (vector & Hv & Hi)%node_lookup.
  destruct (Hc _ _ Hv) as [_ Hall]. destruct (Hall _ _ Hi) as (_ & ? & ?). auto.
Qed.

Lemma hc_new (b : Bdd) (v : Z) (i : nat) (vector : list Node) (n : Node) :
  hash_consed b -> 0 <= v -> bdd_nodes b !! Z.to_nat v = Some vector -> vector !! i = Some n ->
  is_Some (NodePointer.new v (Z.of_nat i)).
Proof.
  intros [_ Hc] Hv Hvec Hi. destruct (Hc _ _ Hvec) as [_ Hall].
  destruct (Hall _ _ Hi) as (Hs & _). rewrite Z2Nat.id in Hs by lia. exact Hs.
Qed.

Lemma hc_var_bound (b : Bdd) (v : Z) (vector : list Node) :
  hash_consed b -> 0 <= v -> bdd_nodes b !! Z.to_nat v = Some vector -> v < 64.
Proof.
  intros [Hlen _] Hv Hvec. apply lookup_lt_Some in Hvec. lia.
Qed.

(** Two canonical pointers of the same tree are equal. *)
Lemma denotes_inj (b : Bdd) (p q : NodePointer) (t : tree) :
  hash_consed b -> canon_ptr p -> canon_ptr q -> denotes b p t -> denotes b q t -> p = q.
Proof.
  intros Hb Hp Hq H1. revert q Hq. induction H1 as [p c Hc|p lo hi tl th Hpn Hn Hl IHl Hh IHh];
    intros q Hq H2; inversion H2; subst.
  - rewrite (canon_as_bool_Some p c Hp Hc), (canon_as_bool_Some q c Hq); auto.
  - match goal with E : NodePointer.variable_id _ = NodePointer.variable_id _ |- _ => rename E into Evar end.
    match goal with E : Bdd.node b (NodePointer.variable_id q) _ = Some _ |- _ => rename E into Hnq end.
    destruct (hc_node b _ _ _ Hb Hn) as [Clo Chi].
    destruct (hc_node b _ _ _ Hb Hnq) as [Clo' Chi'].
    cbn in *.
    assert (lo = lo0) by (apply IHl; assumption).
    assert (hi = hi0) by (apply IHh; assumption). subst lo0 hi0.
    destruct (canon_as_bool_None p Hp Hpn) as (v & i & Hv & Hnewp).
    destruct (canon_as_bool_None q Hq ltac:(assumption)) as (v' & j & Hv' & Hnewq).
    destruct (NewFacts.new_decode v i p Hv Hnewp) as (_ & Ev & Ei).
    destruct (NewFacts.new_decode v' j q Hv' Hnewq) as (_ & Ev' & Ej).
    pose proof (NewFacts.new_bound v i p Hv Hnewp). pose proof (NewFacts.new_bound v' j q Hv' Hnewq).
    rewrite Ev, Ei in Hn. rewrite Ev', Ej in Hnq.
    assert (Evv : v' = v) by congruence. rewrite Evv in Hnq.
    apply node_lookup in Hn as (vector & Hvec & Hi).
    apply node_lookup in Hnq as (vector' & Hvec' & Hj).
    rewrite Hvec in Hvec'. inversion Hvec'; subst vector'.
    destruct Hb as [_ Hc]. destruct (Hc _ _ Hvec) as [Hnd _].
    assert (Z.to_nat i = Z.to_nat j) by (eapply NoDup_lookup; eauto).
    assert (i = j) by lia. subst j. congruence.
Qed.


Lemma find_node_Some (b : Bdd) (v : VariableId) (n : Node) (p : NodePointer) :
  hash_consed b -> 0 <= v -> find_node b v n = Some p ->
  exists i, 0 <= v < 64 /\ NodePointer.new v i = Some p /\ Bdd.node b v i = Some n.
Proof.
  intros Hb Hv. unfold find_node.
  destruct (bdd_nodes b !! Z.to_nat v) as [vector|] eqn:Hvec; [|discriminate].
  destruct (list_find _ vector) as [[j m]|] eqn:Hf; [|discriminate].
  intros Hn. apply list_find_Some in Hf as (Hj & -> & _).
  exists (Z.of_nat j). split; [|split]; [eapply hc_var_bound in Hvec; eauto; lia|exact Hn|].
  apply node_lookup. exists vector. rewrite Nat2Z.id. auto.
Qed.

Lemma find_node_None (b : Bdd) (v : VariableId) (n : Node) (vector : list Node) :
  hash_consed b -> 0 <= v -> find_node b v n = None ->
  bdd_nodes b !! Z.to_nat v = Some vector -> n ∉ vector.
Proof.
  intros Hb Hv. unfold find_node. intros Hf Hvec Hin. rewrite Hvec in Hf.
  destruct (list_find_elem_of (fun m => m = n) vector n Hin eq_refl) as [[j m] Hjm].
  rewrite Hjm in Hf. apply list_find_Some in Hjm as (Hj & -> & _).
  destruct (hc_new b v j vector n Hb Hv Hvec Hj) as [p Hp]. congruence.
Qed.

Lemma find_node_stored (b : Bdd) (v i : Z) (n : Node) :
  hash_consed b -> 0 <= v -> 0 <= i -> Bdd.node b v i = Some n ->
  find_node b v n = NodePointer.new v i.
Proof.
  intros Hb Hv Hi (vector & Hvec & Hn)%node_lookup. unfold find_node. rewrite Hvec.
  assert (Hin : n ∈ vector) by (eapply list_elem_of_lookup_2; eauto).
  destruct (list_find_elem_of (fun m => m = n) vector n Hin eq_refl) as [[j m] Hjm].
  rewrite Hjm. apply list_find_Some in Hjm as (Hj & -> & _).
  destruct Hb as [_ Hc]. destruct (Hc _ _ Hvec) as [Hnd _].
  assert (j = Z.to_nat i) by (eapply NoDup_lookup; eauto). subst j.
  rewrite Z2Nat.id by lia. reflexivity.
Qed.

Lemma denotes_find (b : Bdd) (v : VariableId) (lo hi p : NodePointer) (tl th : tree) :
  hash_consed b -> 0 <= v -> find_node b v (lo, hi) = Some p ->
  denotes b lo tl -> denotes b hi th ->
  canon_ptr p /\ denotes b p (TNode v tl th).
Proof.
  intros Hb Hv Hf Hl Hh. destruct (find_node_Some b v _ p Hb Hv Hf) as (i & Hv64 & Hnew & Hn).
  destruct (NewFacts.new_decode v i p Hv64 Hnew) as (Ht & Ev & Ei).
  split; [right; eauto|].
  rewrite <- Ev. eapply denotes_node; eauto.
  - unfold NodePointer.as_bool. rewrite Ht. reflexivity.
  - rewrite Ev, Ei. exact Hn.
Qed.

(** A canonical pointer of a tree is what [build] finds for it. *)
Lemma build_present (b : Bdd) (p : NodePointer) (t : tree) :
  hash_consed b -> canon_ptr p -> denotes b p t -> build t b = Some (b, p).
Proof.
  intros Hb Hp H. induction H as [p c Hc|p lo hi tl th Hpn Hn Hl IHl Hh IHh].
  - rewrite (canon_as_bool_Some p c Hp Hc). reflexivity.
  - destruct (hc_node b _ _ _ Hb Hn) as [Clo Chi].
    cbn [build]. rewrite IHh, IHl by assumption.
    destruct (canon_as_bool_None p Hp Hpn) as (v & i & Hv & Hnew).
    destruct (NewFacts.new_decode v i p Hv Hnew) as (_ & Ev & Ei).
    pose proof (NewFacts.new_bound v i p Hv Hnew).
    rewrite Ev, Ei in Hn. rewrite Ev, (find_node_stored b v i _ Hb ltac:(lia) ltac:(lia) Hn), Hnew.
    reflexivity.
Qed.

Lemma push_extends (b b' : Bdd) (v : VariableId) (n : Node) (p : NodePointer) :
  Bdd.push_node b v n = Some (b', p) -> extends b b'.
Proof.
  intros Hpush. destruct (ApplyFacts.push_node_nodes b b' v n p Hpush) as (vector & Hvec & Hb' & _).
  intros w i m (vec & Hw & Hi)%node_lookup. apply node_lookup. rewrite Hb'.
  pose proof (lookup_lt_Some _ _ _ Hvec) as Hlt.
  destruct (decide (Z.to_nat w = Z.to_nat v)) as [E|E].
  - rewrite E, list_lookup_insert_eq by exact Hlt. rewrite E, Hvec in Hw. inversion Hw; subst vec.
    exists (vector ++ [n]). split; [reflexivity|]. apply lookup_app_l_Some. exact Hi.
  - rewrite list_lookup_insert_ne by congruence. eauto.
Qed.

Lemma push_hc (b b' : Bdd) (v : VariableId) (n : Node) (p : NodePointer) :
  hash_consed b -> 0 <= v -> find_node b v n = None ->
  canon_ptr (low n) -> canon_ptr (high n) -> Bdd.push_node b v n = Some (b', p) ->
  hash_consed b' /\ canon_ptr p /\ NodePointer.as_bool p = None /\
  NodePointer.variable_id p = v /\ Bdd.node b' v (NodePointer.node_index p) = Some n.
Proof.
  intros Hb Hv Hf Cl Ch Hpush.
  destruct (ApplyFacts.push_node_nodes b b' v n p Hpush) as (vector & Hvec & Hb' & Hnew).
  pose proof (hc_var_bound b v vector Hb Hv Hvec) as Hv64.
  destruct (NewFacts.new_decode v _ p ltac:(lia) Hnew) as (Ht & Ev & Ei).
  pose proof (find_node_None b v n vector Hb Hv Hf Hvec) as Hnotin.
  pose proof (lookup_lt_Some _ _ _ Hvec) as Hlt.
  destruct Hb as [Hlen Hc].
  split; [|split; [|split; [|split]]].
  - split; [rewrite Hb', length_insert; exact Hlen|].
    intros k vector' Hk. rewrite Hb' in Hk.
    destruct (decide (k = Z.to_nat v)) as [->|Ek].
    + rewrite list_lookup_insert_eq in Hk by exact Hlt. inversion Hk; subst vector'.
      destruct (Hc _ _ Hvec) as [Hnd Hall]. split.
      * apply NoDup_app. split; [exact Hnd|]. split; [|apply NoDup_singleton].
        intros x Hx Hxn. apply list_elem_of_singleton in Hxn. subst x. contradiction.
      * intros i m Hm. apply lookup_app_Some in Hm as [Hm|[Hge Hm]]; [exact (Hall i m Hm)|].
        apply list_lookup_singleton_Some in Hm as [Hi0 <-].
        assert (i = length vector) by lia. subst i.
        rewrite Z2Nat.id by lia. split; [eauto|auto].
    + rewrite list_lookup_insert_ne in Hk by congruence. exact (Hc _ _ Hk).
  - right. exists v, (Z.of_nat (length vector)). split; [lia|exact Hnew].
  - unfold NodePointer.as_bool. rewrite Ht. reflexivity.
  - exact Ev.
  - rewrite Ei. apply node_lookup. exists (vector ++ [n]). rewrite Hb', list_lookup_insert_eq by exact Hlt.
    split; [reflexivity|]. rewrite Nat2Z.id, lookup_app_r, Nat.sub_diag by lia. reflexivity.
Qed.

Lemma push_find (b b' : Bdd) (v : VariableId) (n : Node) (p : NodePointer) :
  hash_consed b -> 0 <= v -> find_node b v n = None -> Bdd.push_node b v n = Some (b', p) ->
  forall w m, 0 <= w ->
    find_node b' w m = if decide ((w, m) = (v, n)) then Some p else find_node b w m.
Proof.
  intros Hb Hv Hf Hpush w m Hw.
  destruct (ApplyFacts.push_node_nodes b b' v n p Hpush) as (vector & Hvec & Hb' & Hnew).
  pose proof (lookup_lt_Some _ _ _ Hvec) as Hlt.
  unfold find_node at 1. rewrite Hb'.
  destruct (decide (w = v)) as [->|Ew].
  - rewrite list_lookup_insert_eq by exact Hlt.
    destruct (list_find (fun x => x = m) vector) as [[j x]|] eqn:Hj.
    + rewrite (list_find_app_l _ _ _ _ _ Hj).
      destruct (decide ((v, m) = (v, n))) as [E|E].
      * inversion E; subst m. apply list_find_Some in Hj as (Hj & -> & _).
        destruct (find_node_None b v n vector Hb Hv Hf Hvec). eapply list_elem_of_lookup_2; eauto.
      * unfold find_node. rewrite Hvec, Hj. reflexivity.
    + rewrite (list_find_app_r _ _ _ Hj). cbn.
      destruct (decide (n = m)) as [->|E]; cbn.
      * rewrite decide_True by reflexivity. exact Hnew.
      * rewrite decide_False by congruence. unfold find_node. rewrite Hvec, Hj. reflexivity.
  - rewrite list_lookup_insert_ne by lia. rewrite decide_False by congruence. reflexivity.
Qed.

Lemma extends_refl (b : Bdd) : extends b b.
Proof. intros ? ? ? H. exact H. Qed.

Lemma extends_trans (b1 b2 b3 : Bdd) : extends b1 b2 -> extends b2 b3 -> extends b1 b3.
Proof. intros H12 H23 v i n H. auto. Qed.

(** [build] keeps the storage hash-consed and makes a canonical pointer of
    its tree. *)
Lemma build_spec (t : tree) (b b' : Bdd) (p : NodePointer) :
  hash_consed b -> above (-1) t -> build t b = Some (b', p) ->
  hash_consed b' /\ extends b b' /\ canon_ptr p /\ denotes b' p t.
Proof.
  revert b b' p. induction t as [c|v lo IHlo hi IHhi]; intros b b' p Hb Ht Hbuild.
  - cbn in Hbuild. inversion Hbuild; subst. split; [exact Hb|]. split; [apply extends_refl|].
    split; [apply canon_terminal|]. constructor. apply as_bool_terminal.
  - cbn [above] in Ht. destruct Ht as (Hv & Hlo & Hhi). cbn [build] in Hbuild.
    destruct (build hi b) as [[b1 ph]|] eqn:Eh; [|discriminate].
    destruct (build lo b1) as [[b2 pl]|] eqn:El; [|discriminate].
    destruct (IHhi b b1 ph Hb Hhi Eh) as (Hb1 & X1 & Ch & Dh).
    destruct (IHlo b1 b2 pl Hb1 Hlo El) as (Hb2 & X2 & Cl & Dl).
    pose proof (denotes_extends _ _ _ _ X2 Dh) as Dh2.
    destruct (find_node b2 v (pl, ph)) as [q|] eqn:Hf.
    + inversion Hbuild; subst. split; [exact Hb2|]. split; [eapply extends_trans; eauto|].
      eapply denotes_find; eauto; lia.
    + destruct (push_hc b2 b' v (pl, ph) p Hb2 ltac:(lia) Hf Cl Ch Hbuild)
        as (Hb' & Cp & Hpn & Ev & Hn).
      pose proof (push_extends _ _ _ _ _ Hbuild) as X3.
      split; [exact Hb'|]. split; [eapply extends_trans; [eapply extends_trans|]; eauto|].
      split; [exact Cp|]. rewrite <- Ev. eapply denotes_node; [exact Hpn|rewrite Ev; exact Hn|..];
        eapply denotes_extends; eauto.
Qed.

Lemma build_again (t : tree) (b b' : Bdd) (p : NodePointer) :
  hash_consed b -> above (-1) t -> build t b = Some (b', p) -> build t b' = Some (b', p).
Proof.
  intros Hb Ht Hbuild. destruct (build_spec t b b' p Hb Ht Hbuild) as (Hb' & _ & Cp & Dp).
  apply build_present; assumption.
Qed.

Lemma build_later (t : tree) (b b1 b2 : Bdd) (p : NodePointer) :
  hash_consed b -> above (-1) t -> build t b = Some (b1, p) ->
  hash_consed b2 -> extends b1 b2 -> build t b2 = Some (b2, p).
Proof.
  intros Hb Ht Hbuild Hb2 X. destruct (build_spec t b b1 p Hb Ht Hbuild) as (_ & _ & Cp & Dp).
  apply build_present; [exact Hb2|exact Cp|]. eapply denotes_extends; eauto.
Qed.

(** Building the two children first does not change what [build] makes of
    the node. *)
Lemma build_mk_after_children (v : VariableId) (a c : tree) (b0 b1 b2 : Bdd) (pl ph : NodePointer) :
  hash_consed b0 -> above (-1) a -> above (-1) c ->
  build c b0 = Some (b1, ph) -> build a b1 = Some (b2, pl) ->
  build (mk v a c) b0 = build (mk v a c) b2.
Proof.
  intros Hb0 Ha Hc Ec Ea.
  destruct (build_spec c b0 b1 ph Hb0 Hc Ec) as (Hb1 & X1 & _ & _).
  destruct (build_spec a b1 b2 pl Hb1 Ha Ea) as (Hb2 & X2 & _ & _).
  unfold mk. destruct (decide (a = c)) as [->|Hne].
  - rewrite (build_again c b0 b1 ph Hb0 Hc Ec) in Ea. inversion Ea; subst.
    rewrite Ec. symmetry. eapply build_again; [exact Hb0|exact Hc|exact Ec].
  - cbn [build]. rewrite Ec, Ea.
    rewrite (build_later c b0 b1 b2 ph Hb0 Hc Ec Hb2 X2).
    rewrite (build_again a b1 b2 pl Hb1 Ha Ea). reflexivity.
Qed.

Lemma top_var_denotes (b : Bdd) (p : NodePointer) (t : tree) :
  denotes b p t -> top_var t = Apply.var_of p.
Proof.
  unfold Apply.var_of. destruct 1 as [p c Hc|p lo hi tl th Hp _ _ _]; cbn;
    unfold NodePointer.as_bool in *; destruct (NodePointer.is_terminal p); congruence.
Qed.

Lemma children_denotes (b : Bdd) (p : NodePointer) (t : tree) (cv : VariableId) :
  denotes b p t ->
  exists c0 c1, Apply.children b p (Apply.var_of p) cv = Some (c0, c1) /\
    denotes b c0 (fst (split_at cv t)) /\ denotes b c1 (snd (split_at cv t)).
Proof.
  intros H. pose proof (top_var_denotes b p t H) as Htop.
  destruct H as [p c Hc|p lo hi tl th Hp Hn Hl Hh]; cbn in Htop |- *.
  - unfold Apply.children. rewrite <- Htop. rewrite decide_False by discriminate.
    exists p, p. split; [reflexivity|]. split; constructor; exact Hc.
  - unfold Apply.children. rewrite <- Htop.
    destruct (Z.eqb_spec (NodePointer.variable_id p) cv) as [E|E].
    + rewrite decide_True by congruence. rewrite <- E, Hn. cbn. eauto.
    + rewrite decide_False by congruence. exists p, p. split; [reflexivity|].
      cbn. split; eapply denotes_node; eauto.
Qed.

Lemma split_size_fst (cv : VariableId) (t : tree) :
  (size (fst (split_at cv t)) <= size t)%nat /\
  (top_var t = Some cv -> (size (fst (split_at cv t)) < size t)%nat).
Proof.
  destruct t as [c|v lo hi]; cbn; [split; [lia|discriminate]|].
  destruct (Z.eqb_spec v cv); cbn; split; intros; try lia; congruence.
Qed.

Lemma split_size_snd (cv : VariableId) (t : tree) :
  (size (snd (split_at cv t)) <= size t)%nat /\
  (top_var t = Some cv -> (size (snd (split_at cv t)) < size t)%nat).
Proof.
  destruct t as [c|v lo hi]; cbn; [split; [lia|discriminate]|].
  destruct (Z.eqb_spec v cv); cbn; split; intros; try lia; congruence.
Qed.

(** An open task splits on the condition variable as [tapply] does. *)
Lemma tapply_split (table : LookupTable) (t1 t2 : tree) (cv : VariableId) :
  table (leaf_value t1) (leaf_value t2) = None ->
  Apply.condition_var_of (top_var t1) (top_var t2) = Some cv ->
  tapply table t1 t2 =
  mk cv (tapply table (fst (split_at cv t1)) (fst (split_at cv t2)))
        (tapply table (snd (split_at cv t1)) (snd (split_at cv t2))) /\
  (size (fst (split_at cv t1)) + size (fst (split_at cv t2)) < size t1 + size t2)%nat /\
  (size (snd (split_at cv t1)) + size (snd (split_at cv t2)) < size t1 + size t2)%nat.
Proof.
  intros Hopen Hcv. rewrite TreeFacts.tapply_eq. rewrite Hopen.
  destruct t1 as [c1|v1 l1 h1], t2 as [c2|v2 l2 h2]; cbn in Hcv |- *;
    inversion Hcv; subst; cbn.
  - rewrite Z.eqb_refl. cbn. split; [reflexivity|lia].
  - rewrite Z.eqb_refl. cbn. split; [reflexivity|lia].
  - destruct (Z.eqb_spec v1 v2) as [->|E].
    + rewrite Z.min_id, Z.eqb_refl. cbn. split; [reflexivity|lia].
    + destruct (Z.ltb_spec v1 v2) as [Hlt|Hge].
      * rewrite Z.min_l by lia. rewrite Z.eqb_refl.
        replace (v2 =? v1) with false by (symmetry; apply Z.eqb_neq; congruence).
        cbn. split; [reflexivity|lia].
      * rewrite Z.min_r by lia. rewrite Z.eqb_refl.
        replace (v1 =? v2) with false by (symmetry; apply Z.eqb_neq; congruence).
        cbn. split; [reflexivity|lia].
Qed.

End Layout.

Module Loop.
Import Tree Layout.

Section WithInputs.

Variables (A B : Bdd) (t : LookupTable).

Lemma iteration_tasks_mono (s s' : ApplyState) (k : NodePointer * NodePointer) (p : NodePointer) :
  Apply.iteration A B t s = Some s' -> tasks s !! k = Some p -> tasks s' !! k = Some p.
Proof.
  unfold Apply.iteration. intros H Hk.
  destruct (task_stack s) as [|[l r] rest]; [inversion H; subst; exact Hk|].
  destruct (tasks s !! (l, r)) eqn:Hlr; [inversion H; subst; exact Hk|].
  assert (Hne : k <> (l, r)) by congruence.
  destruct (Apply.condition_var_of _ _) as [cv|]; [|discriminate].
  destruct (Apply.children A l _ cv) as [[ll lh]|]; [|discriminate].
  destruct (Apply.children B r _ cv) as [[rl rh]|]; [|discriminate].
  destruct (Apply.resolve_child t (tasks s) ll rl) as [rlo|],
           (Apply.resolve_child t (tasks s) lh rh) as [rhi|];
    try (inversion H; subst; exact Hk).
  destruct (rlo =? rhi); [inversion H; subst; cbn; rewrite lookup_insert_ne by congruence; exact Hk|].
  destruct (nodes s !! _); [inversion H; subst; cbn; rewrite lookup_insert_ne by congruence; exact Hk|].
  destruct (Bdd.push_node _ _ _) as [[o' q]|]; [|discriminate].
  inversion H; subst; cbn. rewrite lookup_insert_ne by congruence. exact Hk.
Qed.

Lemma iteration_extends (s s' : ApplyState) :
  Apply.iteration A B t s = Some s' -> extends (output s) (output s').
Proof.
  intros H. destruct (ApplyFacts.iteration_cases A B t s s' H) as [[-> _]|(cv & n & p & _ & _ & _ & Hp & _)].
  - apply extends_refl.
  - eapply push_extends; eauto.
Qed.

Lemma steps_trans (s1 s2 s3 : ApplyState) :
  steps A B t s1 s2 -> steps A B t s2 s3 -> steps A B t s1 s3.
Proof. induction 1; intros; [assumption|]. eapply steps_step; eauto. Qed.

Lemma steps_one (s s' : ApplyState) :
  task_stack s <> [] -> Apply.iteration A B t s = Some s' -> steps A B t s s'.
Proof. intros. eapply steps_step; eauto. apply steps_refl. Qed.

Lemma steps_tasks_mono (s s' : ApplyState) (k : NodePointer * NodePointer) (p : NodePointer) :
  steps A B t s s' -> tasks s !! k = Some p -> tasks s' !! k = Some p.
Proof. induction 1; eauto using iteration_tasks_mono. Qed.

Lemma steps_extends (s s' : ApplyState) :
  steps A B t s s' -> extends (output s) (output s').
Proof.
  induction 1; [apply extends_refl|]. eapply extends_trans; eauto using iteration_extends.
Qed.

Lemma steps_panics (s s' : ApplyState) :
  steps A B t s s' -> panics A B t s' -> panics A B t s.
Proof. intros H (s'' & H' & Hne & Hit). exists s''. split; [eapply steps_trans; eauto|auto]. Qed.

Lemma resolve_mono (s s' : ApplyState) (x y p : NodePointer) :
  steps A B t s s' -> Apply.resolve_child t (tasks s) x y = Some p ->
  Apply.resolve_child t (tasks s') x y = Some p.
Proof.
  unfold Apply.resolve_child. intros H. destruct (t _ _); [auto|]. eapply steps_tasks_mono; eauto.
Qed.

Lemma resolve_None (ta : gmap (NodePointer * NodePointer) NodePointer) (x y : NodePointer) :
  Apply.resolve_child t ta x y = None ->
  t (NodePointer.as_bool x) (NodePointer.as_bool y) = None /\ ta !! (x, y) = None.
Proof. unfold Apply.resolve_child. destruct (t _ _); [discriminate|auto]. Qed.

(** A resolved child is the canonical pointer of its combination. *)
Lemma resolve_denotes (s : ApplyState) (x y p : NodePointer) (tx ty : tree) :
  apply_inv A B t s -> Apply.resolve_child t (tasks s) x y = Some p ->
  denotes A x tx -> denotes B y ty ->
  canon_ptr p /\ denotes (output s) p (tapply t tx ty).
Proof.
  intros (_ & _ & Hj3) Hr Hx Hy. unfold Apply.resolve_child in Hr.
  destruct (t _ _) as [c|] eqn:Ht.
  - inversion Hr; subst. split; [apply canon_terminal|].
    rewrite TreeFacts.tapply_eq. rewrite (denotes_leaf_value _ _ _ Hx), (denotes_leaf_value _ _ _ Hy), Ht.
    constructor. apply as_bool_terminal.
  - destruct (Hj3 _ _ _ Hr) as [Cp Hp]. auto.
Qed.

Lemma inv_record (s : ApplyState) (st : list (NodePointer * NodePointer))
    (nodes' : gmap (VariableId * Node) NodePointer) (o' : Bdd) (l r q : NodePointer) :
  apply_inv A B t s -> hash_consed o' -> extends (output s) o' ->
  (forall v n, 0 <= v -> nodes' !! (v, n) = find_node o' v n) ->
  canon_ptr q ->
  (forall tl tr, denotes A l tl -> denotes B r tr -> denotes o' q (tapply t tl tr)) ->
  apply_inv A B t (mkState st (<[(l, r) := q]> (tasks s)) nodes' o').
Proof.
  intros (_ & _ & Hj3) Ho' X Hj2 Cq Dq. split; [exact Ho'|]. split; [exact Hj2|].
  cbn. intros l' r' p Hp. destruct (decide ((l', r') = (l, r))) as [E|E].
  - inversion E; subst. rewrite lookup_insert_eq in Hp. inversion Hp; subst. auto.
  - rewrite lookup_insert_ne in Hp by congruence. destruct (Hj3 _ _ _ Hp) as [Cp Dp].
    split; [exact Cp|]. intros tl tr Hl Hr. eapply denotes_extends; eauto.
Qed.

Lemma denotes_for_all (o : Bdd) (l r q : NodePointer) (tl tr : tree) :
  denotes A l tl -> denotes B r tr -> denotes o q (tapply t tl tr) ->
  forall tl' tr', denotes A l tl' -> denotes B r tr' -> denotes o q (tapply t tl' tr').
Proof.
  intros Hl Hr Hq tl' tr' Hl' Hr'.
  rewrite <- (denotes_functional _ _ _ _ Hl Hl'), <- (denotes_functional _ _ _ _ Hr Hr'). exact Hq.
Qed.

(** The task on top is already cached: it is popped. *)
Lemma task_cached (s : ApplyState) (l r : NodePointer) (rest : list (NodePointer * NodePointer))
    (tl tr : tree) (p0 : NodePointer) :
  task_stack s = (l, r) :: rest -> tasks s !! (l, r) = Some p0 -> apply_inv A B t s ->
  denotes A l tl -> denotes B r tr -> task_result A B t s l r rest tl tr.
Proof.
  intros Hst Hc Hinv Hl Hr. pose proof Hinv as (Hb & _ & Hj3).
  destruct (Hj3 _ _ _ Hc) as [Cp Dp].
  unfold task_result. rewrite (build_present _ _ _ Hb Cp (Dp tl tr Hl Hr)).
  exists (mkState rest (tasks s) (nodes s) (output s)). split; [|split; [|split; [|split]]].
  - apply steps_one; [rewrite Hst; discriminate|]. unfold Apply.iteration. rewrite Hst, Hc. reflexivity.
  - reflexivity.
  - exact Hinv.
  - reflexivity.
  - exact Hc.
Qed.

(** The task on top has both children resolved: it is recorded. *)
Lemma task_resolved (s : ApplyState) (l r : NodePointer) (rest : list (NodePointer * NodePointer))
    (tl tr : tree) (cv : VariableId) (ll lh rl rh pl ph : NodePointer) (tll tlh trl trh : tree) :
  task_stack s = (l, r) :: rest -> tasks s !! (l, r) = None -> apply_inv A B t s ->
  denotes A l tl -> denotes B r tr ->
  Apply.condition_var_of (Apply.var_of l) (Apply.var_of r) = Some cv ->
  Apply.children A l (Apply.var_of l) cv = Some (ll, lh) ->
  Apply.children B r (Apply.var_of r) cv = Some (rl, rh) ->
  denotes A ll tll -> denotes A lh tlh -> denotes B rl trl -> denotes B rh trh ->
  tapply t tl tr = mk cv (tapply t tll trl) (tapply t tlh trh) ->
  Apply.resolve_child t (tasks s) ll rl = Some pl ->
  Apply.resolve_child t (tasks s) lh rh = Some ph ->
  task_result A B t s l r rest tl tr.
Proof.
  intros Hst Hc Hinv Hl Hr Hcv Hcl Hcr Hll Hlh Hrl Hrh Hsplit El Eh.
  pose proof Hinv as (Hb & Hj2 & Hj3).
  pose proof (ApplyFacts.condition_var_nonneg l r cv Hcv) as Hcv0.
  destruct (resolve_denotes s ll rl pl tll trl Hinv El Hll Hrl) as [Cl Dl].
  destruct (resolve_denotes s lh rh ph tlh trh Hinv Eh Hlh Hrh) as [Ch Dh].
  set (a := tapply t tll trl) in *. set (c := tapply t tlh trh) in *.
  assert (Hit : Apply.iteration A B t s =
    if pl =? ph then Some (mkState rest (<[(l, r) := pl]> (tasks s)) (nodes s) (output s))
    else match nodes s !! (cv, (pl, ph)) with
         | Some existing => Some (mkState rest (<[(l, r) := existing]> (tasks s)) (nodes s) (output s))
         | None =>
           match Bdd.push_node (output s) cv (pl, ph) with
           | None => None
           | Some (output', new_pointer) =>
             Some (mkState rest (<[(l, r) := new_pointer]> (tasks s))
                           (<[(cv, (pl, ph)) := new_pointer]> (nodes s)) output')
           end
         end).
  { unfold Apply.iteration. rewrite Hst, Hc, Hcv, Hcl, Hcr, El, Eh. reflexivity. }
  assert (Hne : task_stack s <> []) by (rewrite Hst; discriminate).
  unfold task_result. rewrite Hsplit. unfold mk. destruct (decide (a = c)) as [Eac|Eac].
  - rewrite <- Eac in Dh. pose proof (denotes_inj _ _ _ _ Hb Cl Ch Dl Dh) as <-.
    rewrite Z.eqb_refl in Hit. rewrite (build_present _ _ _ Hb Cl Dl).
    eexists. split; [apply steps_one; eauto|]. split; [reflexivity|]. split; [|split; [reflexivity|]].
    + apply inv_record; auto using extends_refl.
      apply (denotes_for_all _ l r pl tl tr Hl Hr). rewrite Hsplit. unfold mk.
      rewrite decide_True by exact Eac. exact Dl.
    + cbn. apply lookup_insert_eq.
  - assert (Hpq : pl <> ph) by (intros <-; apply Eac; eapply denotes_functional; eauto).
    rewrite (proj2 (Z.eqb_neq pl ph) Hpq) in Hit.
    cbn [build]. rewrite (build_present _ _ _ Hb Ch Dh), (build_present _ _ _ Hb Cl Dl).
    rewrite (Hj2 cv (pl, ph) Hcv0) in Hit.
    destruct (find_node (output s) cv (pl, ph)) as [q|] eqn:Hf.
    + destruct (denotes_find _ _ _ _ _ _ _ Hb Hcv0 Hf Dl Dh) as [Cq Dq].
      eexists. split; [apply steps_one; eauto|]. split; [reflexivity|]. split; [|split; [reflexivity|]].
      * apply inv_record; auto using extends_refl.
        apply (denotes_for_all _ l r q tl tr Hl Hr). rewrite Hsplit. unfold mk.
        rewrite decide_False by exact Eac. exact Dq.
      * cbn. apply lookup_insert_eq.
    + destruct (Bdd.push_node (output s) cv (pl, ph)) as [[o' q]|] eqn:Hp.
      * destruct (push_hc _ _ _ _ _ Hb Hcv0 Hf Cl Ch Hp) as (Ho' & Cq & Hqn & Ev & Hn).
        pose proof (push_extends _ _ _ _ _ Hp) as X.
        eexists. split; [apply steps_one; eauto|]. split; [reflexivity|]. split; [|split; [reflexivity|]].
        -- apply inv_record; auto.
           ++ intros w m Hw. rewrite (push_find _ _ _ _ _ Hb Hcv0 Hf Hp w m Hw).
              destruct (decide ((w, m) = (cv, (pl, ph)))) as [E|E].
              ** rewrite E. apply lookup_insert_eq.
              ** rewrite lookup_insert_ne by congruence. apply Hj2; exact Hw.
           ++ apply (denotes_for_all _ l r q tl tr Hl Hr). rewrite Hsplit. unfold mk.
              rewrite decide_False by exact Eac. rewrite <- Ev.
              eapply denotes_node; [exact Hqn|rewrite Ev; exact Hn|..]; eapply denotes_extends; eauto.
        -- cbn. apply lookup_insert_eq.
      * exists s. split; [apply steps_refl|]. split; [exact Hne|exact Hit].
Qed.

Lemma task_result_back (s s' : ApplyState) (l r : NodePointer) (rest : list (NodePointer * NodePointer))
    (tl tr : tree) :
  steps A B t s s' -> build (tapply t tl tr) (output s) = build (tapply t tl tr) (output s') ->
  task_result A B t s' l r rest tl tr -> task_result A B t s l r rest tl tr.
Proof.
  intros Hs E. unfold task_result. rewrite E.
  destruct (build _ (output s')) as [[b' p]|].
  - intros (s'' & H1 & H2). exists s''. split; [eapply steps_trans; eauto|exact H2].
  - apply steps_panics; exact Hs.
Qed.

(** A child task: either on top of the stack, or resolved already. *)
Lemma child_task (n : nat) (s : ApplyState) (x y : NodePointer) (tx ty : tree)
    (st : list (NodePointer * NodePointer)) :
  results_below A B t n -> (size tx + size ty < n)%nat ->
  denotes A x tx -> denotes B y ty -> apply_inv A B t s ->
  (t (NodePointer.as_bool x) (NodePointer.as_bool y) = None /\ task_stack s = (x, y) :: st) \/
  (task_stack s = st /\ is_Some (Apply.resolve_child t (tasks s) x y)) ->
  match build (tapply t tx ty) (output s) with
  | Some (b', p) => exists s', steps A B t s s' /\ task_stack s' = st /\ apply_inv A B t s' /\
                      output s' = b' /\ Apply.resolve_child t (tasks s') x y = Some p
  | None => panics A B t s
  end.
Proof.
  intros IH Hsz Hx Hy Hinv [[Hopen Hst]|[Hst [p Hp]]].
  - pose proof (IH tx ty x y s st Hsz Hx Hy Hopen Hst Hinv) as Hres. unfold task_result in Hres.
    destruct (build _ _) as [[b' p]|]; [|exact Hres].
    destruct Hres as (s' & H1 & H2 & H3 & H4 & H5). exists s'.
    do 4 (split; [assumption|]). unfold Apply.resolve_child. rewrite Hopen. exact H5.
  - pose proof Hinv as (Hb & _).
    destruct (resolve_denotes s x y p tx ty Hinv Hp Hx Hy) as [Cp Dp].
    rewrite (build_present _ _ _ Hb Cp Dp). exists s.
    split; [apply steps_refl|]. do 3 (split; [auto|]). exact Hp.
Qed.

Lemma build_mk_None_hi (v : VariableId) (a c : tree) (o : Bdd) :
  build c o = None -> build (mk v a c) o = None.
Proof.
  intros H. unfold mk. destruct (decide (a = c)) as [->|]; [exact H|]. cbn [build]. rewrite H. reflexivity.
Qed.

Lemma build_mk_None_lo (v : VariableId) (a c : tree) (o o1 : Bdd) (ph : NodePointer) :
  hash_consed o -> above (-1) c ->
  build c o = Some (o1, ph) -> build a o1 = None -> build (mk v a c) o = None.
Proof.
  intros Hb Hc E1 E2. unfold mk. destruct (decide (a = c)) as [->|].
  - rewrite (build_again c o o1 ph Hb Hc E1) in E2. discriminate.
  - cbn [build]. rewrite E1, E2. reflexivity.
Qed.

Lemma above_tapply (x y : NodePointer) (tx ty : tree) :
  denotes A x tx -> denotes B y ty -> above (-1) (tapply t tx ty).
Proof.
  intros Hx Hy. apply TreeFacts.tapply_above; eapply denotes_nonneg; eauto.
Qed.

(** The children of an open task are run (the high one first), then the
    task itself is recorded. *)
Lemma task_open (n : nat) (s1 : ApplyState) (l r : NodePointer) (rest : list (NodePointer * NodePointer))
    (tl tr : tree) (cv : VariableId) (ll lh rl rh : NodePointer) (tll tlh trl trh : tree)
    (sh sl : list (NodePointer * NodePointer)) :
  results_below A B t n ->
  (size tll + size trl < n)%nat -> (size tlh + size trh < n)%nat ->
  apply_inv A B t s1 -> denotes A l tl -> denotes B r tr ->
  Apply.condition_var_of (Apply.var_of l) (Apply.var_of r) = Some cv ->
  Apply.children A l (Apply.var_of l) cv = Some (ll, lh) ->
  Apply.children B r (Apply.var_of r) cv = Some (rl, rh) ->
  denotes A ll tll -> denotes A lh tlh -> denotes B rl trl -> denotes B rh trh ->
  tapply t tl tr = mk cv (tapply t tll trl) (tapply t tlh trh) ->
  task_stack s1 = sh ++ sl ++ (l, r) :: rest ->
  (sh = [(lh, rh)] /\ t (NodePointer.as_bool lh) (NodePointer.as_bool rh) = None \/
   sh = [] /\ is_Some (Apply.resolve_child t (tasks s1) lh rh)) ->
  (sl = [(ll, rl)] /\ t (NodePointer.as_bool ll) (NodePointer.as_bool rl) = None \/
   sl = [] /\ is_Some (Apply.resolve_child t (tasks s1) ll rl)) ->
  task_result A B t s1 l r rest tl tr.
Proof.
  intros IH Hszl Hszh Hinv1 Hl Hr Hcv Hcl Hcr Hll Hlh Hrl Hrh Hsplit Hst1 Hsh Hsl.
  pose proof Hinv1 as (Hb1 & _).
  pose proof (above_tapply _ _ _ _ Hll Hrl) as Aa. pose proof (above_tapply _ _ _ _ Hlh Hrh) as Ac.
  pose proof (child_task n s1 lh rh tlh trh (sl ++ (l, r) :: rest) IH Hszh Hlh Hrh Hinv1) as Ch.
  lapply Ch; [clear Ch; intros Eh|
    destruct Hsh as [[-> Ho]|[-> Hs]]; [left; split; [exact Ho|rewrite Hst1; reflexivity]|right; auto]].
  - destruct (build (tapply t tlh trh) (output s1)) as [[o1 ph]|] eqn:Ec.
    + destruct Eh as (s2 & S12 & Hst2 & Hinv2 & Ho2 & Rh2).
      pose proof (child_task n s2 ll rl tll trl ((l, r) :: rest) IH Hszl Hll Hrl Hinv2) as Cl.
      lapply Cl; [clear Cl; intros El|
        destruct Hsl as [[-> Ho]|[-> [p Hs]]]; [left; split; [exact Ho|rewrite Hst2; reflexivity]|];
        right; split; [exact Hst2|]; exists p; eapply resolve_mono; eauto].
      * destruct (build (tapply t tll trl) (output s2)) as [[o2 pl]|] eqn:Ea.
        -- destruct El as (s3 & S23 & Hst3 & Hinv3 & Ho3 & Rl3).
           pose proof (resolve_mono _ _ _ _ _ S23 Rh2) as Rh3.
           apply (task_result_back s1 s3); [eapply steps_trans; eauto|..].
           ++ rewrite Hsplit, Ho3. rewrite Ho2 in Ea.
              eapply build_mk_after_children; eauto.
           ++ destruct (tasks s3 !! (l, r)) as [p0|] eqn:Hc3.
              ** eapply task_cached; eauto.
              ** eapply task_resolved; eauto.
        -- unfold task_result. rewrite Hsplit. rewrite Ho2 in Ea.
           rewrite (build_mk_None_lo cv _ _ _ _ _ Hb1 Ac Ec Ea). eapply steps_panics; eauto.
    + unfold task_result. rewrite Hsplit, (build_mk_None_hi cv _ _ _ Ec). exact Eh.
Qed.

Hypothesis complete : forall a b, t (Some a) (Some b) <> None.

Lemma condition_var_exists (l r : NodePointer) (tl tr : tree) :
  denotes A l tl -> denotes B r tr -> t (NodePointer.as_bool l) (NodePointer.as_bool r) = None ->
  exists cv, Apply.condition_var_of (Apply.var_of l) (Apply.var_of r) = Some cv.
Proof.
  intros Hl Hr Hopen. rewrite <- (top_var_denotes _ _ _ Hl), <- (top_var_denotes _ _ _ Hr).
  rewrite <- (denotes_leaf_value _ _ _ Hl), <- (denotes_leaf_value _ _ _ Hr) in Hopen.
  destruct tl as [c1|v1 l1 h1], tr as [c2|v2 l2 h2]; cbn in *; eauto.
  exfalso. exact (complete c1 c2 Hopen).
Qed.

(** Every open task ends with its canonical result, or the loop panics. *)
Lemma tasks_complete (n : nat) : results_below A B t n.
Proof.
  induction n as [|n IH]; intros tl tr l r s rest Hsz Hl Hr Hopen Hst Hinv; [lia|].
  destruct (tasks s !! (l, r)) as [p0|] eqn:Hc; [eapply task_cached; eauto|].
  destruct (condition_var_exists l r tl tr Hl Hr Hopen) as [cv Hcv].
  assert (Hopen' : t (leaf_value tl) (leaf_value tr) = None)
    by (rewrite (denotes_leaf_value _ _ _ Hl), (denotes_leaf_value _ _ _ Hr); exact Hopen).
  assert (Htop : Apply.condition_var_of (top_var tl) (top_var tr) = Some cv)
    by (rewrite (top_var_denotes _ _ _ Hl), (top_var_denotes _ _ _ Hr); exact Hcv).
  destruct (tapply_split t tl tr cv Hopen' Htop) as (Hsplit & Hszl & Hszh).
  destruct (children_denotes A l tl cv Hl) as (ll & lh & Hcl & Hll & Hlh).
  destruct (children_denotes B r tr cv Hr) as (rl & rh & Hcr & Hrl & Hrh).
  assert (Hne : task_stack s <> []) by (rewrite Hst; discriminate).
  destruct (Apply.resolve_child t (tasks s) ll rl) as [pl|] eqn:El,
           (Apply.resolve_child t (tasks s) lh rh) as [ph|] eqn:Eh.
  - eapply task_resolved; eauto.
  - set (s1 := mkState ((lh, rh) :: (l, r) :: rest) (tasks s) (nodes s) (output s)).
    assert (Hit : Apply.iteration A B t s = Some s1)
      by (unfold Apply.iteration; rewrite Hst, Hc, Hcv, Hcl, Hcr, El, Eh; reflexivity).
    apply (task_result_back s s1); [apply steps_one; auto|reflexivity|].
    apply (task_open n s1 l r rest tl tr cv ll lh rl rh (fst (split_at cv tl)) (snd (split_at cv tl)) (fst (split_at cv tr)) (snd (split_at cv tr)) [(lh, rh)] []); auto; try lia.
    all: first [left; split; [reflexivity|first [exact (proj1 (resolve_None _ _ _ Eh)) | exact (proj1 (resolve_None _ _ _ El))]] | right; split; [reflexivity|cbn; rewrite ?El, ?Eh; eauto]].
  - set (s1 := mkState ((ll, rl) :: (l, r) :: rest) (tasks s) (nodes s) (output s)).
    assert (Hit : Apply.iteration A B t s = Some s1)
      by (unfold Apply.iteration; rewrite Hst, Hc, Hcv, Hcl, Hcr, El, Eh; reflexivity).
    apply (task_result_back s s1); [apply steps_one; auto|reflexivity|].
    apply (task_open n s1 l r rest tl tr cv ll lh rl rh (fst (split_at cv tl)) (snd (split_at cv tl)) (fst (split_at cv tr)) (snd (split_at cv tr)) [] [(ll, rl)]); auto; try lia.
    all: first [left; split; [reflexivity|first [exact (proj1 (resolve_None _ _ _ Eh)) | exact (proj1 (resolve_None _ _ _ El))]] | right; split; [reflexivity|cbn; rewrite ?El, ?Eh; eauto]].
  - set (s1 := mkState ((lh, rh) :: (ll, rl) :: (l, r) :: rest) (tasks s) (nodes s) (output s)).
    assert (Hit : Apply.iteration A B t s = Some s1)
      by (unfold Apply.iteration; rewrite Hst, Hc, Hcv, Hcl, Hcr, El, Eh; reflexivity).
    apply (task_result_back s s1); [apply steps_one; auto|reflexivity|].
    apply (task_open n s1 l r rest tl tr cv ll lh rl rh (fst (split_at cv tl)) (snd (split_at cv tl)) (fst (split_at cv tr)) (snd (split_at cv tr)) [(lh, rh)] [(ll, rl)]); auto; try lia.
    all: first [left; split; [reflexivity|first [exact (proj1 (resolve_None _ _ _ Eh)) | exact (proj1 (resolve_None _ _ _ El))]] | right; split; [reflexivity|cbn; rewrite ?El, ?Eh; eauto]].
Qed.

End WithInputs.

End Loop.

Module ApplyCorrect.
Import Tree Layout Loop.

Section WithInputs.

Variables (A B : Bdd) (t : LookupTable).

Lemma run_steps (s s' : ApplyState) (o : Outcome) :
  steps A B t s s' -> (exists f, Apply.run f A B t s' = Some o) ->
  exists f, Apply.run f A B t s = Some o.
Proof.
  induction 1 as [s|s s1 s2 Hne Hit Hs IH]; [auto|]. intros Hf.
  destruct (IH Hf) as [f Hrun]. exists (S f). cbn.
  destruct (task_stack s); [contradiction|]. rewrite Hit. exact Hrun.
Qed.

Lemma run_panics (s : ApplyState) :
  panics A B t s -> exists f, Apply.run f A B t s = Some Panicked.
Proof.
  intros (s' & Hs & Hne & Hit). apply (run_steps s s'); [exact Hs|].
  exists 1%nat. cbn. destruct (task_stack s'); [contradiction|]. rewrite Hit. reflexivity.
Qed.

Lemma run_deterministic (f1 f2 : nat) (s : ApplyState) (o1 o2 : Outcome) :
  Apply.run f1 A B t s = Some o1 -> Apply.run f2 A B t s = Some o2 -> o1 = o2.
Proof.
  revert f2 s. induction f1 as [|f1 IH]; intros [|f2] s H1 H2; cbn in H1, H2; try discriminate.
  destruct (task_stack s); [congruence|].
  destruct (Apply.iteration A B t s); [eapply IH; eauto|congruence].
Qed.

Lemma apply_fuel_deterministic (f1 f2 : nat) (o1 o2 : Outcome) :
  Apply.apply_fuel f1 A B t = Some o1 -> Apply.apply_fuel f2 A B t = Some o2 -> o1 = o2.
Proof.
  unfold Apply.apply_fuel. cbv zeta. destruct (t _ _); [congruence|].
  destruct (NodePointer.as_bool (Bdd.root A)), (NodePointer.as_bool (Bdd.root B));
    try congruence; apply run_deterministic.
Qed.

Lemma apply_iff (o : Outcome) :
  (exists f, Apply.apply_fuel f A B t = Some o) ->
  forall o', Apply.apply A B t o' <-> o' = o.
Proof.
  intros [f Hf] o'. split.
  - intros [f' Hf']. eapply apply_fuel_deterministic; eauto.
  - intros ->. exists f. exact Hf.
Qed.

Lemma blank_hash_consed : hash_consed (Bdd.mk_blank false).
Proof.
  split; [reflexivity|]. intros k vector Hk. unfold Bdd.mk_blank in Hk. cbn [bdd_nodes] in Hk.
  apply Shape.lookup_repeat_Some in Hk as [_ ->]. split; [constructor|].
  intros i n Hi. rewrite lookup_nil in Hi. discriminate.
Qed.

Lemma find_node_blank (v : VariableId) (n : Node) : find_node (Bdd.mk_blank false) v n = None.
Proof.
  unfold find_node. cbn [Bdd.mk_blank bdd_nodes].
  destruct (repeat [] 64 !! Z.to_nat v) as [vector|] eqn:Hv; [|reflexivity].
  apply Shape.lookup_repeat_Some in Hv as [_ ->]. reflexivity.
Qed.

Lemma initial_inv : apply_inv A B t (Apply.initial_state A B).
Proof.
  split; [apply blank_hash_consed|]. split.
  - intros v n _. cbn. rewrite lookup_empty, find_node_blank. reflexivity.
  - intros l r p Hp. cbn in Hp. rewrite lookup_empty in Hp. discriminate.
Qed.

Hypothesis complete : forall a b, t (Some a) (Some b) <> None.

(** [apply] on inputs that stand for the trees [tA] and [tB] returns the
    canonical [Bdd] of their combination, or panics where [build] fails. *)
Lemma apply_canonical (tA tB : tree) (o : Outcome) :
  denotes A (Bdd.root A) tA -> denotes B (Bdd.root B) tB ->
  Apply.apply A B t o <->
  o = match canonical (tapply t tA tB) with Some b => Returned b | None => Panicked end.
Proof.
  intros HA HB. apply apply_iff. unfold Apply.apply_fuel. cbv zeta.
  destruct (t (NodePointer.as_bool (Bdd.root A)) (NodePointer.as_bool (Bdd.root B))) as [c|] eqn:Ht.
  - exists O. rewrite TreeFacts.tapply_eq, (denotes_leaf_value _ _ _ HA), (denotes_leaf_value _ _ _ HB), Ht.
    unfold canonical. cbn [build]. rewrite as_bool_terminal. reflexivity.
  - assert (Hrun : exists f, Apply.run f A B t (Apply.initial_state A B) =
              Some match canonical (tapply t tA tB) with Some b => Returned b | None => Panicked end).
    { pose proof (tasks_complete A B t complete (S (size tA + size tB)) tA tB (Bdd.root A) (Bdd.root B)
                    (Apply.initial_state A B) [] ltac:(lia) HA HB Ht eq_refl initial_inv) as Hres.
      unfold task_result in Hres. unfold canonical. cbn [output Apply.initial_state] in Hres.
      destruct (build (tapply t tA tB) (Bdd.mk_blank false)) as [[b' p]|].
      - destruct Hres as (s' & Hs & Hst & _ & Ho & Hp).
        apply (run_steps _ s'); [exact Hs|]. exists 1%nat. cbn. rewrite Hst.
        unfold Apply.finish. rewrite Hp, Ho. destruct (NodePointer.as_bool p); reflexivity.
      - apply run_panics. exact Hres. }
    destruct (NodePointer.as_bool (Bdd.root A)) as [a|], (NodePointer.as_bool (Bdd.root B)) as [b|];
      try exact Hrun.
    exfalso. exact (complete a b Ht).
Qed.

End WithInputs.

End ApplyCorrect.

Module PublicCanonical.
Import Tree Layout.

Lemma lookup_map {X Y} (f : X -> Y) (l : list X) (i : nat) : map f l !! i = f <$> l !! i.
Proof. revert i. induction l as [|x l IH]; intros [|i]; cbn; auto. Qed.

Lemma map_insert {X Y} (f : X -> Y) (l : list X) (i : nat) (x : X) :
  map f (<[i := x]> l) = <[i := f x]> (map f l).
Proof. revert i. induction l as [|y l IH]; intros [|i]; cbn; f_equal; auto. Qed.

Lemma list_find_map_inj {X Y} `{EqDecision X, EqDecision Y} (f : X -> Y) (l : list X) (x : X) :
  (forall a b, f a = f b -> a = b) ->
  list_find (fun m => m = f x) (map f l) = prod_map id f <$> list_find (fun m => m = x) l.
Proof.
  intros Hinj. induction l as [|y l IH]; cbn; [reflexivity|].
  destruct (decide (f y = f x)) as [E|E], (decide (y = x)) as [E'|E']; cbn.
  - subst. reflexivity.
  - apply Hinj in E. contradiction.
  - subst. contradiction.
  - rewrite IH. destruct (list_find _ l) as [[i z]|]; reflexivity.
Qed.

Lemma flip_node_inj (a b : Node) : Bdd.flip_node a = Bdd.flip_node b -> a = b.
Proof.
  intros E. rewrite <- (Reduced.flip_node_involutive a), <- (Reduced.flip_node_involutive b), E.
  reflexivity.
Qed.

Lemma flip_non_terminal (p : NodePointer) :
  NodePointer.as_bool p = None -> NodePointer.flip_if_terminal p = p.
Proof.
  unfold NodePointer.as_bool, NodePointer.flip_if_terminal, NodePointer.is_one,
    NodePointer.is_zero, NodePointer.is_terminal.
  destruct (Z.land p 32767 =? 0) eqn:E; [discriminate|]. intros _.
  destruct (Z.eqb_spec p 32768) as [->|]; [discriminate|].
  destruct (Z.eqb_spec p 0) as [->|]; [discriminate|]. reflexivity.
Qed.

Lemma find_node_flip (b : Bdd) (v : VariableId) (n : Node) :
  find_node (mkBdd (bdd_root b) (map (map Bdd.flip_node) (bdd_nodes b))) v (Bdd.flip_node n) =
  find_node b v n.
Proof.
  unfold find_node. cbn [bdd_nodes]. rewrite lookup_map.
  destruct (bdd_nodes b !! Z.to_nat v) as [vector|]; cbn; [|reflexivity].
  rewrite (list_find_map_inj _ _ _ flip_node_inj).
  destruct (list_find _ vector) as [[i m]|]; reflexivity.
Qed.

(** [build] of the negated tree on the negated storage is the negation of
    [build]. *)
Lemma build_tnot (tr : tree) (b : Bdd) :
  in_range tr ->
  build (tnot tr) (mkBdd (bdd_root b) (map (map Bdd.flip_node) (bdd_nodes b))) =
  match build tr b with
  | Some (b', p) => Some (mkBdd (bdd_root b') (map (map Bdd.flip_node) (bdd_nodes b')),
                          NodePointer.flip_if_terminal p)
  | None => None
  end.
Proof.
  revert b. induction tr as [c|v lo IHlo hi IHhi]; intros b Hr.
  - cbn. f_equal. destruct c; reflexivity.
  - cbn [in_range] in Hr. destruct Hr as (Hv & Hlo & Hhi).
    cbn [build tnot]. rewrite (IHhi b Hhi).
    destruct (build hi b) as [[b1 ph]|] eqn:Eh; [|reflexivity].
    rewrite (IHlo b1 Hlo).
    destruct (build lo b1) as [[b2 pl]|] eqn:El; [|reflexivity].
    change (NodePointer.flip_if_terminal pl, NodePointer.flip_if_terminal ph)
      with (Bdd.flip_node (pl, ph)).
    rewrite find_node_flip.
    destruct (find_node b2 v (pl, ph)) as [q|] eqn:Hf.
    + unfold find_node in Hf.
      destruct (bdd_nodes b2 !! Z.to_nat v); [|discriminate].
      destruct (list_find _ _) as [[i m]|]; [|discriminate].
      rewrite (flip_non_terminal q); [reflexivity|].
      eapply NewFacts.new_as_bool; [exact Hv|exact Hf].
    + unfold Bdd.push_node. cbn [bdd_nodes bdd_root]. rewrite lookup_map.
      destruct (bdd_nodes b2 !! Z.to_nat v) as [vector|]; cbn; [|reflexivity].
      rewrite length_map. destruct (NodePointer.new v _) as [q|] eqn:Hq; [|reflexivity].
      rewrite (flip_non_terminal q) by (eapply NewFacts.new_as_bool; [exact Hv|exact Hq]).
      cbn. rewrite map_insert, map_app. reflexivity.
Qed.

Lemma in_range_above (tr : tree) : in_range tr -> above (-1) tr.
Proof. induction tr; cbn; intuition lia. Qed.

Lemma canonical_tnot (tr : tree) (b : Bdd) :
  in_range tr -> canonical tr = Some b -> canonical (tnot tr) = Some (Bdd.not b).
Proof.
  intros Hr. unfold canonical. intros Hc.
  destruct (build tr (Bdd.mk_blank false)) as [[b0 p]|] eqn:E; [|discriminate].
  inversion Hc; subst. clear Hc.
  replace (build (tnot tr) (Bdd.mk_blank false)) with
    (build (tnot tr) (mkBdd (bdd_root (Bdd.mk_blank false))
                            (map (map Bdd.flip_node) (bdd_nodes (Bdd.mk_blank false)))))
    by reflexivity.
  rewrite (build_tnot tr _ Hr), E.
  destruct (NodePointer.as_bool p) as [c|] eqn:Hp.
  - destruct (build_spec tr _ _ _ ApplyCorrect.blank_hash_consed (in_range_above tr Hr) E)
      as (_ & _ & Cp & _).
    rewrite (canon_as_bool_Some p c Cp Hp). destruct c; reflexivity.
  - rewrite (flip_non_terminal p Hp), Hp. unfold Bdd.not, Bdd.is_true, Bdd.is_false, Bdd.root, Bdd.set_root.
    cbn [bdd_root bdd_nodes].
    unfold NodePointer.as_bool, NodePointer.is_terminal in Hp. unfold NodePointer.is_one, NodePointer.is_zero.
    destruct (Z.eqb_spec p 32768) as [->|]; [discriminate|].
    destruct (Z.eqb_spec p 0) as [->|]; [discriminate|]. reflexivity.
Qed.

Lemma extends_set_root (b : Bdd) (p : NodePointer) : extends b (Bdd.set_root b p).
Proof. intros v i n H. exact H. Qed.

(** The root of a canonical [Bdd] stands for its tree. *)
Lemma canonical_denotes (tr : tree) (b : Bdd) :
  above (-1) tr -> canonical tr = Some b -> denotes b (Bdd.root b) tr.
Proof.
  intros Ha. unfold canonical.
  destruct (build tr (Bdd.mk_blank false)) as [[b0 p]|] eqn:E; [|discriminate].
  destruct (build_spec tr _ _ _ ApplyCorrect.blank_hash_consed Ha E) as (_ & _ & _ & Dp).
  intros H; inversion H; subst; clear H.
  destruct (NodePointer.as_bool p) as [c|] eqn:Hp.
  - inversion Dp; subst; [|congruence].
    match goal with H : NodePointer.as_bool p = Some _ |- _ => rewrite Hp in H; inversion H; subst end.
    constructor. apply as_bool_terminal.
  - eapply denotes_extends; [apply extends_set_root|exact Dp].
Qed.

Lemma canonical_const (c : bool) : canonical (Leaf c) = Some (Bdd.mk_const c).
Proof. destruct c; reflexivity. Qed.

(** The tree of a literal. *)
Lemma canonical_mk_var (id : VariableId) (value : bool) (b : Bdd) :
  0 <= id -> Bdd.mk_var id value = Some b ->
  id < 64 /\
  canonical (if value then TNode id (Leaf false) (Leaf true) else TNode id (Leaf true) (Leaf false)) = Some b.
Proof.
  intros Hid Hb. destruct (Shape.mk_var_shape id value b Hid Hb) as (Hid64 & _ & _).
  split; [exact Hid64|]. revert Hb. unfold Bdd.mk_var, canonical.
  destruct value; cbn [build]; rewrite ApplyCorrect.find_node_blank; cbn [NodePointer.terminal];
    (destruct (Bdd.push_node _ _ _) as [[b' p]|] eqn:Hp; [|discriminate]);
    intros H; inversion H; subst; clear H;
    destruct (ApplyFacts.push_node_nodes _ _ _ _ _ Hp) as (vec & _ & _ & Hnew);
    rewrite (NewFacts.new_as_bool id _ p ltac:(lia) Hnew); reflexivity.
Qed.

Lemma op_table_complete (op : BinOp) (a b : bool) : op_table op (Some a) (Some b) <> None.
Proof. destruct op, a, b; discriminate. Qed.

(** Every value of the public API is the canonical [Bdd] of an ordered,
    reduced tree over the 64 variables. *)
Lemma public_canonical (b : Bdd) :
  public_bdd b -> exists tr, ordered tr /\ treduced tr /\ in_range tr /\ canonical tr = Some b.
Proof.
  induction 1 as [c|id value b Hid Hb|b Hb IH|op a b c Ha IHa Hb IHb Happ].
  - exists (Leaf c). repeat split; auto. apply canonical_const.
  - destruct (canonical_mk_var id value b ltac:(lia) Hb) as [Hid64 Hc].
    eexists. split; [|split; [|split]]; [..|exact Hc]; destruct value; cbn; repeat split; auto;
      try lia; discriminate.
  - destruct IH as (tr & Ho & Hr & Hi & Hc). exists (tnot tr).
    split; [apply TreeFacts.tnot_ordered; exact Ho|].
    split; [apply TreeFacts.tnot_reduced; exact Hr|].
    split; [apply TreeFacts.tnot_in_range; exact Hi|].
    apply canonical_tnot; assumption.
  - destruct IHa as (ta & Hoa & Hra & Hia & Hca). destruct IHb as (tb & Hob & Hrb & Hib & Hcb).
    pose proof (canonical_denotes ta a (in_range_above ta Hia) Hca) as Da.
    pose proof (canonical_denotes tb b (in_range_above tb Hib) Hcb) as Db.
    apply (ApplyCorrect.apply_canonical a b (op_table op) (op_table_complete op) ta tb _ Da Db) in Happ.
    exists (tapply (op_table op) ta tb).
    split; [apply TreeFacts.tapply_ordered; assumption|].
    split; [apply TreeFacts.tapply_reduced|].
    split; [apply TreeFacts.tapply_in_range; assumption|].
    destruct (canonical _) as [c'|]; [congruence|discriminate].
Qed.

End PublicCanonical.

Module Semantics.
Import Tree Layout.

(** On an ordered tree over the 64 variables a path visits at most 64
    nodes, so the bounded evaluation reaches a terminal. *)
Lemma eval_pointer_denotes (b : Bdd) (p : NodePointer) (tr : tree) (env : VariableId -> bool) :
  denotes b p tr -> ordered tr -> in_range tr ->
  forall (k : VariableId) (fuel : nat), above k tr -> k <= 63 -> 64 - k <= Z.of_nat fuel ->
  eval_pointer b fuel env p = Some (teval env tr).
Proof.
  induction 1 as [p c Hc|p lo hi tl th Hp Hn Hl IHl Hh IHh]; intros Ho Hr k fuel Ha Hk Hf;
    (destruct fuel as [|fuel]; [lia|]); cbn [eval_pointer].
  - rewrite Hc. reflexivity.
  - rewrite Hp, Hn. cbn [ordered in_range above teval] in *.
    destruct Ho as (Al & Ah & Ol & Oh). destruct Hr as (Hv & Rl & Rh). destruct Ha as (Hkv & _ & _).
    destruct (env (NodePointer.variable_id p)); cbn [low high].
    + apply (IHh Oh Rh (NodePointer.variable_id p)); auto; lia.
    + apply (IHl Ol Rl (NodePointer.variable_id p)); auto; lia.
Qed.

Lemma eval_public (b : Bdd) (tr : tree) (env : VariableId -> bool) :
  ordered tr -> in_range tr -> canonical tr = Some b -> eval b env = Some (teval env tr).
Proof.
  intros Ho Hr Hc. unfold eval.
  apply (eval_pointer_denotes b _ tr env
           (PublicCanonical.canonical_denotes tr b (PublicCanonical.in_range_above tr Hr) Hc) Ho Hr (-1));
    [apply PublicCanonical.in_range_above; exact Hr|lia|cbn; lia].
Qed.

End Semantics.

Module Identities.
Import Tree.

Lemma tapply_and_true (tr : tree) : treduced tr -> tapply op_function.and tr (Leaf true) = tr.
Proof.
  induction tr as [c|v l IHl h IHh]; intros Hr.
  - destruct c; reflexivity.
  - destruct Hr as (Hne & Rl & Rh). rewrite TreeFacts.tapply_eq. cbn.
    rewrite IHl, IHh by assumption. unfold mk. rewrite decide_False by exact Hne. reflexivity.
Qed.

Lemma tapply_or_false (tr : tree) : treduced tr -> tapply op_function.or tr (Leaf false) = tr.
Proof.
  induction tr as [c|v l IHl h IHh]; intros Hr.
  - destruct c; reflexivity.
  - destruct Hr as (Hne & Rl & Rh). rewrite TreeFacts.tapply_eq. cbn.
    rewrite IHl, IHh by assumption. unfold mk. rewrite decide_False by exact Hne. reflexivity.
Qed.

Lemma tapply_and_false (tr : tree) : tapply op_function.and tr (Leaf false) = Leaf false.
Proof. rewrite TreeFacts.tapply_eq. destruct tr as [[]|]; reflexivity. Qed.

Lemma tapply_or_true (tr : tree) : tapply op_function.or tr (Leaf true) = Leaf true.
Proof. rewrite TreeFacts.tapply_eq. destruct tr as [[]|]; reflexivity. Qed.

Lemma tapply_self (table : LookupTable) (c : bool) (tr : tree) :
  table None None = None -> (forall a, table (Some a) (Some a) = Some c) ->
  tapply table tr tr = Leaf c.
Proof.
  intros HN HS. induction tr as [a|v l IHl h IHh].
  - rewrite TreeFacts.tapply_eq. cbn. rewrite HS. reflexivity.
  - rewrite TreeFacts.tapply_eq. cbn. rewrite HN, Z.eqb_refl, IHl, IHh.
    unfold mk. rewrite decide_True by reflexivity. reflexivity.
Qed.

End Identities.


(* ------------------------------------------------------------------ *)
(** * The claims *)

Module Claims.

(** C8: double negation is the identity on every value of the public API,
    constant or not: [not(not(B)) == B] structurally. *)
Theorem not_not_identity (B : Bdd) : public_bdd B -> Bdd.not (Bdd.not B) = B.
Proof.
  intros HB. destruct (Shape.public_shape B HB) as [[[|] ->]|[Hr _]]; [reflexivity|reflexivity|].
  destruct B as [root vecs]. cbn in Hr.
  assert (Ht : Bdd.is_true (mkBdd root vecs) = false /\ Bdd.is_false (mkBdd root vecs) = false).
  { unfold Bdd.is_true, Bdd.is_false, NodePointer.is_one, NodePointer.is_zero, Bdd.root.
    cbn. unfold NodePointer.is_terminal in Hr.
    split; apply Z.eqb_neq; intros ->; discriminate. }
  destruct Ht as [Ht Hf].
  unfold Bdd.not at 2. rewrite Ht, Hf. unfold Bdd.not. cbn.
  unfold Bdd.is_true, Bdd.is_false in *. cbn in *. rewrite Ht, Hf.
  f_equal. rewrite map_map. rewrite <- (map_id vecs) at 2. apply map_ext. intros vec.
  rewrite map_map. rewrite <- (map_id vec) at 2. apply map_ext. intros [l h].
  unfold Bdd.flip_node, low, high. cbn. f_equal; apply FlipFacts.flip_if_terminal_involutive.
Qed.

Lemma not_not_identity_witness : Bdd.not (Bdd.not (Bdd.mk_const true)) = Bdd.mk_const true.
Proof. apply not_not_identity. apply public_const. Defined.

(** C9: on two constant inputs [apply] consults only the lookup table: when
    it answers [Some b] the result is the constant [b]; when it answers
    [None] no [Bdd] is returned and the call panics. *)
Theorem apply_constant_inputs (L R : Bdd) (t : LookupTable) (o : Outcome) :
  NodePointer.is_terminal (Bdd.root L) = true ->
  NodePointer.is_terminal (Bdd.root R) = true ->
  Apply.apply L R t o <->
  o = match t (NodePointer.as_bool (Bdd.root L)) (NodePointer.as_bool (Bdd.root R)) with
      | Some b => Returned (Bdd.mk_const b)
      | None => Panicked
      end.
Proof.
  intros HL HR.
  assert (Hf : forall fuel, Apply.apply_fuel fuel L R t =
    Some match t (NodePointer.as_bool (Bdd.root L)) (NodePointer.as_bool (Bdd.root R)) with
         | Some b => Returned (Bdd.mk_const b)
         | None => Panicked
         end).
  { intros fuel. unfold Apply.apply_fuel. cbv zeta.
    unfold NodePointer.as_bool at 3 4. rewrite HL, HR.
    destruct (t _ _); reflexivity. }
  split.
  - intros [fuel Hrun]. rewrite Hf in Hrun. inversion Hrun. reflexivity.
  - intros ->. exists O. apply Hf.
Qed.

Lemma apply_constant_inputs_witness :
  Apply.apply Bdd.mk_true Bdd.mk_false (fun _ _ => None) Panicked.
Proof.
  apply (apply_constant_inputs Bdd.mk_true Bdd.mk_false (fun _ _ => None) Panicked);
    reflexivity.
Defined.

(** C10: the storage has 64 node vectors, so [mk_var] panics on a variable
    of 64 or more, and so do [node] and [push_node] on a storage of 64
    vectors; for the variables 0 to 63 [mk_var] succeeds and the outer
    indexing of a 64-vector storage is in bounds. Every value of the public
    API is a constant without storage or has 64 vectors. *)
Theorem variable_limit :
  (forall v value, 64 <= v < u32_max -> Bdd.mk_var v value = None) /\
  (forall v value, 0 <= v < 64 -> exists b, Bdd.mk_var v value = Some b) /\
  (forall b, public_bdd b -> bdd_nodes b = [] \/ length (bdd_nodes b) = 64%nat) /\
  (forall b v, length (bdd_nodes b) = 64%nat -> 0 <= v < 64 ->
     exists vector, bdd_nodes b !! Z.to_nat v = Some vector) /\
  (forall b v i, length (bdd_nodes b) = 64%nat -> 64 <= v -> Bdd.node b v i = None) /\
  (forall b v n, length (bdd_nodes b) = 64%nat -> 64 <= v -> Bdd.push_node b v n = None).
Proof.
  assert (Hout : forall b v, length (bdd_nodes b) = 64%nat -> 64 <= v ->
            bdd_nodes b !! Z.to_nat v = None).
  { intros b v Hl Hv. apply lookup_ge_None_2. lia. }
  split; [|split; [|split; [|split; [|split]]]].
  - intros v value Hv. unfold Bdd.mk_var, Bdd.push_node.
    rewrite Hout by (try reflexivity; lia). reflexivity.
  - intros v value Hv. unfold Bdd.mk_var, Bdd.push_node, Bdd.mk_blank. cbn [bdd_nodes].
    rewrite Shape.lookup_repeat_lt by lia.
    destruct (node_pointer_roundtrip_general v 0) as (p & Hp & _); [lia| |].
    { unfold index_capacity. pose proof (block_rank_range v Hv).
      split; [lia | apply Z.pow_pos_nonneg; lia]. }
    change (Z.of_nat (length [])) with 0. rewrite Hp. eauto.
  - intros b Hb. destruct (Shape.public_shape b Hb) as [[c ->]|[_ Hl]]; auto.
  - intros b v Hl Hv. apply lookup_lt_is_Some_2. lia.
  - intros b v i Hl Hv. unfold Bdd.node. rewrite Hout by assumption. reflexivity.
  - intros b v n Hl Hv. unfold Bdd.push_node. rewrite Hout by assumption. reflexivity.
Qed.

Lemma variable_limit_witness : Bdd.mk_var 64 true = None.
Proof. apply (proj1 variable_limit 64 true). unfold u32_max. lia. Defined.

(** C1 (the code differs): after [insert(low, high, p)] on a fresh table
    with [low = new(1, 0)] and [high = new(2, 0)], two non-terminal
    children of different variables, the table is unchanged and [find(low,
    high)] answers [None] instead of [Some(p)] for [p = new(0, 0)]. So the
    property "insert then find returns the inserted pointer" fails, for any
    choice of the table's empty marker and decoding of stored words. *)
Theorem uniqueness_insert_discards (none_pointer : NodePointer)
  (as_pointer : NodePointer -> option NodePointer) :
  NodePointer.new 1 0 = Some 640 /\ NodePointer.new 2 0 = Some 1152 /\
  NodePointer.new 0 0 = Some 128 /\
  VarNodeStorage.insert none_pointer (VarNodeStorage.new none_pointer 64) 640 1152 128
    = Some (VarNodeStorage.new none_pointer 64) /\
  VarNodeStorage.find as_pointer (VarNodeStorage.new none_pointer 64) 640 1152 = Some None /\
  ~ VarNodeStorage.insert_then_find_property none_pointer as_pointer.
Proof.
  assert (Hins : VarNodeStorage.insert none_pointer (VarNodeStorage.new none_pointer 64)
                   640 1152 128 = Some (VarNodeStorage.new none_pointer 64) /\
                 (VarNodeStorage.other (VarNodeStorage.new none_pointer 64) = ∅ ->
                  VarNodeStorage.find as_pointer (VarNodeStorage.new none_pointer 64)
                    640 1152 = Some None))
    by (apply VarNodeStorageFacts.insert_distinct_vars_noop; vm_compute; congruence).
  destruct Hins as [Hins Hfind]. specialize (Hfind eq_refl).
  split; [vm_compute; reflexivity|]. split; [vm_compute; reflexivity|].
  split; [vm_compute; reflexivity|]. split; [exact Hins|]. split; [exact Hfind|].
  intros Hprop. specialize (Hprop _ _ 640 1152 128 Hins). rewrite Hfind in Hprop.
  discriminate.
Qed.

(** C2 (the code differs): [pack] shifts the left pointer by 16 bits only,
    so two different pairs of 32-bit pointers share a packed key. After
    [insert(1, 0)] in a cache of capacity 4, [contains(0, 65536)] answers
    true; a fresh cache answers true for [(65535, 65535)], whose packed key
    is the empty-slot marker [u32::MAX]. The no-false-positive property
    fails. *)
Theorem cache2_false_positive :
  Cache2.pack 1 0 = Cache2.pack 0 65536 /\
  (Cache2.new 4 ≫= fun c0 => Cache2.insert c0 1 0 ≫= fun c => Cache2.contains c 0 65536)
    = Some true /\
  (Cache2.new 4 ≫= fun c0 => Cache2.contains c0 65535 65535) = Some true /\
  ~ Cache2.no_false_positives.
Proof.
  split; [vm_compute; reflexivity|]. split; [vm_compute; reflexivity|].
  split; [vm_compute; reflexivity|].
  intros H. unfold Cache2.no_false_positives in H.
  assert (Hin : In (0, 65536) [(1, 0)]).
  { eapply (H 4 _ _ [(1, 0)] 0 65536); unfold u32_max; try lia;
      vm_compute; reflexivity. }
  destruct Hin as [Hin|[]]. discriminate.
Qed.

(** C4: for every variable [v] in [0..64] and every node index [i] that the
    block rank of [v] leaves room for ([0 <= i < 2^(12 - rank)]),
    [NodePointer::new(v, i)] succeeds with a non-terminal pointer that
    decodes to [variable_id() == v] and [node_index() == i]. *)
Theorem node_pointer_roundtrip (v i : Z) :
  0 <= v < 64 -> 0 <= i < index_capacity v ->
  exists p, NodePointer.new v i = Some p /\ NodePointer.is_terminal p = false /\
            NodePointer.variable_id p = v /\ NodePointer.node_index p = i.
Proof. apply node_pointer_roundtrip_general. Qed.

Lemma node_pointer_roundtrip_witness :
  exists p, NodePointer.new 3 21 = Some p /\ NodePointer.is_terminal p = false /\
            NodePointer.variable_id p = 3 /\ NodePointer.node_index p = 21.
Proof. apply node_pointer_roundtrip; [lia | vm_compute; split; congruence]. Defined.

(** C3: every value of the public API (the constants, [mk_var], [not] and
    the six connectives [and], [or], [xor], [imp], [iff], [and_not] applied
    to such values) is reduced: no stored node has equal low and high
    pointers, and no vector holds the same [(low, high)] pair twice. *)
Theorem public_bdd_reduced (b : Bdd) : public_bdd b -> reduced b.
Proof.
  induction 1 as [c|id value b Hid Hb|b Hb IH|op a b c Ha IHa Hb IHb Happ].
  - constructor.
  - eapply Reduced.reduced_mk_var; [|exact Hb]. lia.
  - apply Reduced.reduced_not. exact IH.
  - eapply Reduced.reduced_apply. exact Happ.
Qed.

Lemma public_bdd_reduced_witness :
  reduced (default Bdd.mk_false (Bdd.mk_var 2 true)).
Proof.
  apply public_bdd_reduced. apply (public_var 2 true); [unfold u32_max; lia | vm_compute; reflexivity].
Defined.

(** C6: [and], [or], [iff] and [xor] are commutative structurally: for all
    [Bdd] values [A] and [B], [apply(A, B)] and [apply(B, A)] with the
    table of one of these connectives behave identically after any number
    of iterations, so they return the same [Bdd] (root and storage) or
    both panic. *)
Theorem symmetric_ops_commute (A B : Bdd) (fuel : nat) :
  Apply.apply_fuel fuel A B (op_table And) = Apply.apply_fuel fuel B A (op_table And) /\
  Apply.apply_fuel fuel A B (op_table Or) = Apply.apply_fuel fuel B A (op_table Or) /\
  Apply.apply_fuel fuel A B (op_table Iff) = Apply.apply_fuel fuel B A (op_table Iff) /\
  Apply.apply_fuel fuel A B (op_table Xor) = Apply.apply_fuel fuel B A (op_table Xor).
Proof.
  repeat split; apply Swap.apply_fuel_swap.
  - exact Swap.symmetric_and.
  - exact Swap.symmetric_or.
  - exact Swap.symmetric_iff.
  - exact Swap.symmetric_xor.
Qed.

(** C5: canonicity. Two values of the public API evaluate alike on every
    valuation exactly when they are equal as data: same root pointer and
    same per-variable storage vectors. *)
Theorem canonicity (A B : Bdd) :
  public_bdd A -> public_bdd B -> ((forall env, eval A env = eval B env) <-> A = B).
Proof.
  intros HA HB. split; [|intros ->; reflexivity].
  intros He.
  destruct (PublicCanonical.public_canonical A HA) as (tA & OA & RA & IA & CA).
  destruct (PublicCanonical.public_canonical B HB) as (tB & OB & RB & IB & CB).
  assert (tA = tB) as <-.
  { apply TreeFacts.tree_canonicity; [assumption..|]. intros env. specialize (He env).
    rewrite (Semantics.eval_public A tA env OA IA CA), (Semantics.eval_public B tB env OB IB CB) in He.
    congruence. }
  congruence.
Qed.

Lemma canonicity_witness :
  (forall env, eval (default Bdd.mk_false (Bdd.mk_var 2 true)) env = eval (Bdd.mk_const true) env) <->
  default Bdd.mk_false (Bdd.mk_var 2 true) = Bdd.mk_const true.
Proof.
  apply canonicity; [apply (public_var 2 true); [unfold u32_max; lia | vm_compute; reflexivity] | apply public_const].
Defined.

(** C7: identity and annihilator laws, as equalities of data. For every
    value [A] of the public API, [apply] with the tables of [and], [or],
    [xor], [iff] and [imp] returns, without panicking, [A] itself or the
    constant [Bdd] of [mk_true] / [mk_false]. *)
Theorem identity_annihilator_laws (A : Bdd) :
  public_bdd A ->
  (forall o, Apply.apply A Bdd.mk_true (op_table And) o <-> o = Returned A) /\
  (forall o, Apply.apply A Bdd.mk_false (op_table And) o <-> o = Returned Bdd.mk_false) /\
  (forall o, Apply.apply A Bdd.mk_true (op_table Or) o <-> o = Returned Bdd.mk_true) /\
  (forall o, Apply.apply A Bdd.mk_false (op_table Or) o <-> o = Returned A) /\
  (forall o, Apply.apply A A (op_table Xor) o <-> o = Returned Bdd.mk_false) /\
  (forall o, Apply.apply A A (op_table Iff) o <-> o = Returned Bdd.mk_true) /\
  (forall o, Apply.apply A A (op_table Imp) o <-> o = Returned Bdd.mk_true).
Proof.
  intros HA.
  destruct (PublicCanonical.public_canonical A HA) as (tA & OA & RA & IA & CA).
  pose proof (PublicCanonical.canonical_denotes tA A (PublicCanonical.in_range_above tA IA) CA) as DA.
  assert (DT : denotes Bdd.mk_true (Bdd.root Bdd.mk_true) (Leaf true))
    by (apply (PublicCanonical.canonical_denotes (Leaf true)); [exact I|reflexivity]).
  assert (DF : denotes Bdd.mk_false (Bdd.root Bdd.mk_false) (Leaf false))
    by (apply (PublicCanonical.canonical_denotes (Leaf false)); [exact I|reflexivity]).
  assert (Hc : forall op, forall a b, op_table op (Some a) (Some b) <> None)
    by exact PublicCanonical.op_table_complete.
  split; [|split; [|split; [|split; [|split; [|split]]]]]; intros o.
  - rewrite (ApplyCorrect.apply_canonical A Bdd.mk_true _ (Hc And) tA (Leaf true) o DA DT).
    cbn [op_table]. rewrite Identities.tapply_and_true, CA by exact RA. reflexivity.
  - rewrite (ApplyCorrect.apply_canonical A Bdd.mk_false _ (Hc And) tA (Leaf false) o DA DF).
    cbn [op_table]. rewrite Identities.tapply_and_false. reflexivity.
  - rewrite (ApplyCorrect.apply_canonical A Bdd.mk_true _ (Hc Or) tA (Leaf true) o DA DT).
    cbn [op_table]. rewrite Identities.tapply_or_true. reflexivity.
  - rewrite (ApplyCorrect.apply_canonical A Bdd.mk_false _ (Hc Or) tA (Leaf false) o DA DF).
    cbn [op_table]. rewrite Identities.tapply_or_false, CA by exact RA. reflexivity.
  - rewrite (ApplyCorrect.apply_canonical A A _ (Hc Xor) tA tA o DA DA).
    cbn [op_table]. rewrite (Identities.tapply_self _ false) by (reflexivity || (intros []; reflexivity)). reflexivity.
  - rewrite (ApplyCorrect.apply_canonical A A _ (Hc Iff) tA tA o DA DA).
    cbn [op_table]. rewrite (Identities.tapply_self _ true) by (reflexivity || (intros []; reflexivity)). reflexivity.
  - rewrite (ApplyCorrect.apply_canonical A A _ (Hc Imp) tA tA o DA DA).
    cbn [op_table]. rewrite (Identities.tapply_self _ true) by (reflexivity || (intros []; reflexivity)). reflexivity.
Qed.

Lemma identity_annihilator_laws_witness :
  (forall o, Apply.apply (default Bdd.mk_false (Bdd.mk_var 2 true)) Bdd.mk_true (op_table And) o <-> o = Returned (default Bdd.mk_false (Bdd.mk_var 2 true))) /\
  (forall o, Apply.apply (default Bdd.mk_false (Bdd.mk_var 2 true)) Bdd.mk_false (op_table And) o <-> o = Returned Bdd.mk_false) /\
  (forall o, Apply.apply (default Bdd.mk_false (Bdd.mk_var 2 true)) Bdd.mk_true (op_table Or) o <-> o = Returned Bdd.mk_true) /\
  (forall o, Apply.apply (default Bdd.mk_false (Bdd.mk_var 2 true)) Bdd.mk_false (op_table Or) o <-> o = Returned (default Bdd.mk_false (Bdd.mk_var 2 true))) /\
  (forall o, Apply.apply (default Bdd.mk_false (Bdd.mk_var 2 true)) (default Bdd.mk_false (Bdd.mk_var 2 true)) (op_table Xor) o <-> o = Returned Bdd.mk_false) /\
  (forall o, Apply.apply (default Bdd.mk_false (Bdd.mk_var 2 true)) (default Bdd.mk_false (Bdd.mk_var 2 true)) (op_table Iff) o <-> o = Returned Bdd.mk_true) /\
  (forall o, Apply.apply (default Bdd.mk_false (Bdd.mk_var 2 true)) (default Bdd.mk_false (Bdd.mk_var 2 true)) (op_table Imp) o <-> o = Returned Bdd.mk_true).
Proof.
  apply identity_annihilator_laws. apply (public_var 2 true); [unfold u32_max; lia | vm_compute; reflexivity].
Defined.

End Claims.
Module SemanticFacts.
Import Tree.

Lemma op_table_sound (op : BinOp) : sound_table (op_table op).
Proof.
  intros x y c a b Hxy Ha Hb.
  destruct op, x as [[]|], y as [[]|], a, b; cbn in Hxy |- *; try discriminate;
    try (specialize (Ha _ eq_refl)); try (specialize (Hb _ eq_refl)); congruence.
Qed.

Lemma leaf_value_teval (env : VariableId -> bool) (t : tree) :
  forall a', leaf_value t = Some a' -> teval env t = a'.
Proof. destruct t; cbn; congruence. Qed.

Lemma teval_mk (env : VariableId -> bool) (v : VariableId) (l h : tree) :
  teval env (mk v l h) = if env v then teval env h else teval env l.
Proof. unfold mk. destruct (decide (l = h)) as [->|]; cbn; [destruct (env v)|]; reflexivity. Qed.

Lemma teval_tapply (table : LookupTable) (env : VariableId -> bool) (t1 t2 : tree) :
  sound_table table -> (forall a b, table (Some a) (Some b) <> None) ->
  table (Some (teval env t1)) (Some (teval env t2)) = Some (teval env (tapply table t1 t2)).
Proof.
  intros Hs Hc. revert t2. induction t1 as [c1|v1 l1 IHl h1 IHh]; intros t2;
    induction t2 as [c2|v2 l2 IHl2 h2 IHh2]; rewrite TreeFacts.tapply_eq;
    (destruct (table (leaf_value _) (leaf_value _)) as [c|] eqn:Et;
     [transitivity (Some c); [eapply Hs; [exact Et|apply leaf_value_teval..]|reflexivity]|]).
  - exfalso. exact (Hc c1 c2 Et).
  - rewrite teval_mk. cbn [teval]. destruct (env v2); [exact IHh2|exact IHl2].
  - rewrite teval_mk. cbn [teval]. destruct (env v1); [exact (IHh (Leaf c2))|exact (IHl (Leaf c2))].
  - destruct (v1 =? v2) eqn:E12; [apply Z.eqb_eq in E12; subst v2|].
    + rewrite teval_mk. cbn [teval]. destruct (env v1); [exact (IHh h2)|exact (IHl l2)].
    + destruct (v1 <? v2); rewrite teval_mk; cbn [teval];
        [destruct (env v1); [exact (IHh (TNode v2 l2 h2))|exact (IHl (TNode v2 l2 h2))]
        |destruct (env v2); [exact IHh2|exact IHl2]].
Qed.

(** A value of the public API and the tree it is canonical for. *)
Lemma public_tree (b : Bdd) :
  public_bdd b ->
  exists tr, ordered tr /\ treduced tr /\ in_range tr /\ canonical tr = Some b /\
    denotes b (Bdd.root b) tr /\ forall env, eval b env = Some (teval env tr).
Proof.
  intros Hb. destruct (PublicCanonical.public_canonical b Hb) as (tr & Ho & Hr & Hi & Hc).
  exists tr. repeat split; try assumption.
  - exact (PublicCanonical.canonical_denotes tr b (PublicCanonical.in_range_above tr Hi) Hc).
  - intros env. exact (Semantics.eval_public b tr env Ho Hi Hc).
Qed.

(** Two values of the public API with the same meaning are equal. *)
Lemma public_eval_inj (A B : Bdd) :
  public_bdd A -> public_bdd B -> (forall env, eval A env = eval B env) -> A = B.
Proof.
  intros HA HB He.
  destruct (public_tree A HA) as (tA & OA & RA & IA & CA & _ & EA).
  destruct (public_tree B HB) as (tB & OB & RB & IB & CB & _ & EB).
  assert (tA = tB) as <-; [|congruence].
  apply TreeFacts.tree_canonicity; [assumption..|]. intros env.
  specialize (He env). rewrite EA, EB in He. congruence.
Qed.

Lemma teval_tnot (env : VariableId -> bool) (t : tree) : teval env (tnot t) = negb (teval env t).
Proof. induction t as [c|v l IHl h IHh]; cbn; [reflexivity|destruct (env v); assumption]. Qed.

End SemanticFacts.

Module SemanticsExtras.
Import Tree.

(** [apply] computes the connective: when [apply] of two values of the
    public API with the table of a connective returns a [Bdd], that [Bdd]
    evaluates, under every valuation, to the connective of the values of
    the two inputs, and the inputs evaluate to a Boolean. *)
Theorem apply_semantics (A B C : Bdd) (op : BinOp) :
  public_bdd A -> public_bdd B -> Apply.apply A B (op_table op) (Returned C) ->
  forall env, exists a b, eval A env = Some a /\ eval B env = Some b /\
    eval C env = op_table op (Some a) (Some b).
Proof.
  intros HA HB Happ env.
  destruct (SemanticFacts.public_tree A HA) as (tA & OA & RA & IA & CA & DA & EA).
  destruct (SemanticFacts.public_tree B HB) as (tB & OB & RB & IB & CB & DB & EB).
  apply (ApplyCorrect.apply_canonical A B _ (PublicCanonical.op_table_complete op) tA tB _ DA DB) in Happ.
  destruct (canonical (tapply (op_table op) tA tB)) as [C'|] eqn:EC; [|discriminate].
  injection Happ as <-.
  exists (teval env tA), (teval env tB). split; [apply EA|]. split; [apply EB|].
  rewrite (SemanticFacts.teval_tapply _ env tA tB (SemanticFacts.op_table_sound op)
             (PublicCanonical.op_table_complete op)).
  apply Semantics.eval_public; [apply TreeFacts.tapply_ordered; assumption|
                                apply TreeFacts.tapply_in_range; assumption|exact EC].
Qed.

Lemma apply_semantics_witness :
  exists C, Apply.apply (default Bdd.mk_false (Bdd.mk_var 2 true)) (default Bdd.mk_false (Bdd.mk_var 3 true)) (op_table And) (Returned C) /\
  exists a b, eval (default Bdd.mk_false (Bdd.mk_var 2 true)) (fun v => v =? 2) = Some a /\ eval (default Bdd.mk_false (Bdd.mk_var 3 true)) (fun v => v =? 2) = Some b /\
    eval C (fun v => v =? 2) = op_table And (Some a) (Some b).
Proof.
  eexists. split; [exists 20%nat; vm_compute; reflexivity|].
  apply (apply_semantics (default Bdd.mk_false (Bdd.mk_var 2 true)) (default Bdd.mk_false (Bdd.mk_var 3 true)) _ And).
  - apply (public_var 2 true); [unfold u32_max; lia | vm_compute; reflexivity].
  - apply (public_var 3 true); [unfold u32_max; lia | vm_compute; reflexivity].
  - exists 20%nat. vm_compute. reflexivity.
Defined.

(** [Bdd::not] negates: on a value of the public API, the [Bdd] returned by
    [not] evaluates, under every valuation, to the negation of the value of
    its input, which evaluates to a Boolean. *)
Theorem not_semantics (b : Bdd) :
  public_bdd b ->
  forall env, exists v, eval b env = Some v /\ eval (Bdd.not b) env = Some (negb v).
Proof.
  intros Hb env. destruct (SemanticFacts.public_tree b Hb) as (tr & Ho & Hr & Hi & Hc & _ & E).
  exists (teval env tr). split; [apply E|].
  rewrite <- SemanticFacts.teval_tnot.
  apply Semantics.eval_public; [apply TreeFacts.tnot_ordered; exact Ho|
    apply TreeFacts.tnot_in_range; exact Hi|exact (PublicCanonical.canonical_tnot tr b Hi Hc)].
Qed.

Lemma not_semantics_witness :
  public_bdd (default Bdd.mk_false (Bdd.mk_var 2 true)) /\
  exists v, eval (default Bdd.mk_false (Bdd.mk_var 2 true)) (fun v => v =? 2) = Some v /\ eval (Bdd.not (default Bdd.mk_false (Bdd.mk_var 2 true))) (fun v => v =? 2) = Some (negb v).
Proof.
  split; [apply (public_var 2 true); [unfold u32_max; lia | vm_compute; reflexivity]|].
  apply (not_semantics (default Bdd.mk_false (Bdd.mk_var 2 true))). apply (public_var 2 true); [unfold u32_max; lia | vm_compute; reflexivity].
Defined.

(** [Bdd::mk_var(id, value)] is the literal: when it returns a [Bdd], that
    [Bdd] evaluates to [true] exactly on the valuations that give [id] the
    value [value]. *)
Theorem mk_var_semantics (id : VariableId) (value : bool) (b : Bdd) :
  0 <= id -> Bdd.mk_var id value = Some b ->
  forall env, eval b env = Some (Bool.eqb (env id) value).
Proof.
  intros Hid Hb env. destruct (PublicCanonical.canonical_mk_var id value b Hid Hb) as [H64 Hc].
  destruct value.
  - rewrite (Semantics.eval_public b (TNode id (Leaf false) (Leaf true)) env);
      [|cbn; intuition lia..|exact Hc].
    cbn. destruct (env id); reflexivity.
  - rewrite (Semantics.eval_public b (TNode id (Leaf true) (Leaf false)) env);
      [|cbn; intuition lia..|exact Hc].
    cbn. destruct (env id); reflexivity.
Qed.

Lemma mk_var_semantics_witness :
  0 <= 5 /\ eval (default Bdd.mk_false (Bdd.mk_var 5 false)) (fun v => v =? 5) = Some (Bool.eqb (5 =? 5) false).
Proof.
  split; [lia|].
  refine (mk_var_semantics 5 false (default Bdd.mk_false (Bdd.mk_var 5 false)) _ _ (fun v => v =? 5));
    [lia | vm_compute; reflexivity].
Defined.

(** [is_true] and [is_false] decide validity and unsatisfiability on the
    values of the public API: [is_true] holds exactly when the value
    evaluates to [true] under every valuation, [is_false] exactly when it
    evaluates to [false] under every valuation. *)
Theorem is_true_is_false_complete (b : Bdd) :
  public_bdd b ->
  (Bdd.is_true b = true <-> forall env, eval b env = Some true) /\
  (Bdd.is_false b = true <-> forall env, eval b env = Some false).
Proof.
  intros Hb. split; split.
  - intros Ht env. unfold Bdd.is_true, NodePointer.is_one in Ht. apply Z.eqb_eq in Ht.
    unfold eval. rewrite Ht. reflexivity.
  - intros He. rewrite (SemanticFacts.public_eval_inj b (Bdd.mk_const true) Hb (public_const true));
      [reflexivity|]. intros env. rewrite He. reflexivity.
  - intros Ht env. unfold Bdd.is_false, NodePointer.is_zero in Ht. apply Z.eqb_eq in Ht.
    unfold eval. rewrite Ht. reflexivity.
  - intros He. rewrite (SemanticFacts.public_eval_inj b (Bdd.mk_const false) Hb (public_const false));
      [reflexivity|]. intros env. rewrite He. reflexivity.
Qed.

Lemma is_true_is_false_complete_witness :
  public_bdd (default Bdd.mk_false (Bdd.mk_var 2 true)) /\
  (Bdd.is_true (default Bdd.mk_false (Bdd.mk_var 2 true)) = true <-> forall env, eval (default Bdd.mk_false (Bdd.mk_var 2 true)) env = Some true) /\
  (Bdd.is_false (default Bdd.mk_false (Bdd.mk_var 2 true)) = true <-> forall env, eval (default Bdd.mk_false (Bdd.mk_var 2 true)) env = Some false).
Proof.
  split; [apply (public_var 2 true); [unfold u32_max; lia | vm_compute; reflexivity]|].
  apply (is_true_is_false_complete (default Bdd.mk_false (Bdd.mk_var 2 true))). apply (public_var 2 true); [unfold u32_max; lia | vm_compute; reflexivity].
Defined.

End SemanticsExtras.

Module PointerFacts.

Lemma in_zseq (start x : Z) (n : nat) : In x (zseq start n) <-> start <= x < start + Z.of_nat n.
Proof.
  revert start. induction n as [|n IH]; intros start; cbn [zseq In]; [lia|].
  rewrite IH. lia.
Qed.

Lemma forallb_zseq (f : Z -> bool) (start : Z) (n : nat) :
  forallb f (zseq start n) = true -> forall x, start <= x < start + Z.of_nat n -> f x = true.
Proof.
  intros H x Hx. rewrite forallb_forall in H. apply H. apply in_zseq. exact Hx.
Qed.

Lemma forallb_zrange (f : Z -> bool) (start len : Z) :
  0 <= len -> forallb f (zseq start (Z.to_nat len)) = true -> forall x, start <= x < start + len -> f x = true.
Proof.
  intros Hl H x Hx. apply (forallb_zseq f start _ H). rewrite Z2Nat.id by exact Hl. exact Hx.
Qed.

(** [f] holds on every 16-bit word, checked word by word. *)
Lemma forall_u16 (f : Z -> bool) :
  forallb f (zseq 0 (Z.to_nat u16_max)) = true -> forall p, 0 <= p < u16_max -> f p = true.
Proof.
  intros H p Hp. apply (forallb_zseq f 0 _ H). unfold u16_max in *. lia.
Qed.

(** The pointers [new] builds for the 64 variables and the indices below
    4096, checked one by one. *)
Lemma new_pointers_checked (v i p : Z) :
  0 <= v < 64 -> 0 <= i < 4096 -> NodePointer.new v i = Some p ->
  NodePointer.is_non_trivial p = true /\ 0 <= p < u16_max.
Proof.
  intros Hv Hi Hnew.
  assert (H : forallb (fun v => forallb (fun i =>
      match NodePointer.new v i with
      | Some p => NodePointer.is_non_trivial p && (0 <=? p) && (p <? u16_max)
      | None => true
      end) (zseq 0 (Z.to_nat 4096))) (zseq 0 (Z.to_nat 64)) = true) by (vm_compute; reflexivity).
  apply (forallb_zrange _ 0 64 ltac:(lia)) with (x := v) in H; [|lia].
  apply (forallb_zrange _ 0 4096 ltac:(lia)) with (x := i) in H; [|lia].
  rewrite Hnew in H. apply andb_prop in H as [H H2]. apply andb_prop in H as [H0 H1].
  apply Z.leb_le in H1. apply Z.ltb_lt in H2. auto.
Qed.

Lemma is_terminal_u16 (p : Z) :
  0 <= p < u16_max -> NodePointer.is_terminal p = true <-> p = 0 \/ p = 32768.
Proof.
  intros Hp. unfold NodePointer.is_terminal. rewrite Z.eqb_eq.
  change 32767 with (Z.ones 15). rewrite Z.land_ones by lia. unfold u16_max in Hp.
  split; [intros H; apply Z.mod_divide in H as [q Hq]; [|lia]; assert (q = 0 \/ q = 1) by lia; lia|].
  intros [-> | ->]; reflexivity.
Qed.

End PointerFacts.

Module PointerExtras.

(** [is_terminal] on a 16-bit word holds exactly for the two terminal
    pointers [zero()] (0) and [one()] (0b1000_0000_0000_0000). *)
Theorem is_terminal_exactly (p : NodePointer) :
  0 <= p < u16_max -> NodePointer.is_terminal p = true <-> p = NodePointer.zero \/ p = NodePointer.one.
Proof. exact (PointerFacts.is_terminal_u16 p). Qed.

(** A 16-bit word fails [is_pointer] exactly when it is a multiple of
    512 other than the two terminals; there are 126 such words. *)
Theorem non_pointer_words :
  (forall p, 0 <= p < u16_max ->
     NodePointer.is_pointer p = false <-> (p mod 512 = 0 /\ p <> 0 /\ p <> 32768)) /\
  length (filter (fun p => negb (NodePointer.is_pointer p)) (zseq 0 (Z.to_nat u16_max))) = 126%nat.
Proof.
  split; [|vm_compute; reflexivity].
  intros p Hp.
  assert (Hc := PointerFacts.forall_u16
    (fun p => Bool.eqb (negb (NodePointer.is_pointer p)) ((p mod 512 =? 0) && negb (p =? 0) && negb (p =? 32768)))
    ltac:(vm_compute; reflexivity) p Hp).
  apply Bool.eqb_prop in Hc.
  destruct (NodePointer.is_pointer p), (p mod 512 =? 0) eqn:E1, (p =? 0) eqn:E2, (p =? 32768) eqn:E3;
    cbn in Hc; try discriminate; rewrite ?Z.eqb_eq, ?Z.eqb_neq in E1, E2, E3;
    split; intros; try discriminate; try reflexivity; lia.
Qed.

Lemma is_terminal_exactly_witness :
  0 <= 32768 < u16_max /\
  (NodePointer.is_terminal 32768 = true <-> 32768 = NodePointer.zero \/ 32768 = NodePointer.one).
Proof.
  split; [unfold u16_max; lia|].
  apply (is_terminal_exactly 32768). unfold u16_max; lia.
Defined.

(** A pointer built by [NodePointer::new] for a variable below 64 is a
    16-bit word that passes [is_pointer] and [is_non_trivial]: it is never
    a terminal and never one of the reserved words. *)
Theorem new_is_non_trivial (v i p : Z) :
  0 <= v < 64 -> NodePointer.new v i = Some p ->
  NodePointer.is_non_trivial p = true /\ NodePointer.is_pointer p = true /\ 0 <= p < u16_max.
Proof.
  intros Hv Hnew. pose proof (NewFacts.new_bound v i p Hv Hnew) as Hi.
  assert (Hcap : index_capacity v <= 4096).
  { unfold index_capacity. pose proof (block_rank_range v Hv).
    change 4096 with (2 ^ 12). apply Z.pow_le_mono_r; lia. }
  destruct (PointerFacts.new_pointers_checked v i p Hv ltac:(lia) Hnew) as [H0 H1].
  split; [exact H0|split; [|exact H1]].
  unfold NodePointer.is_non_trivial in H0. apply andb_prop in H0 as [H0 _]. exact H0.
Qed.

Lemma new_is_non_trivial_witness :
  NodePointer.new 3 21 = Some 44672 /\
  NodePointer.is_non_trivial 44672 = true /\ NodePointer.is_pointer 44672 = true /\ 0 <= 44672 < u16_max.
Proof.
  split; [vm_compute; reflexivity|].
  apply (new_is_non_trivial 3 21 44672); [lia | vm_compute; reflexivity].
Defined.

(** [NodePointer::new(v, i)] panics exactly when the node index [i] does not
    fit the address space of [v], i.e. lies outside [0, 2^(12 - block_rank))]. *)
Theorem new_panics_iff (v i : Z) :
  0 <= v < 64 -> NodePointer.new v i = None <-> ~ (0 <= i < index_capacity v).
Proof.
  intros Hv. split.
  - intros Hn Hi. destruct (node_pointer_roundtrip_general v i Hv Hi) as (p & Hp & _). congruence.
  - intros Hi. destruct (NodePointer.new v i) as [p|] eqn:E; [|reflexivity].
    exfalso. exact (Hi (NewFacts.new_bound v i p Hv E)).
Qed.

Lemma new_panics_iff_witness :
  NodePointer.new 0 5000 = None <-> ~ (0 <= 5000 < index_capacity 0).
Proof.
  apply (new_panics_iff 0 5000). lia.
Defined.

(** [flip_if_terminal] is an involution, and on a 16-bit word it negates the
    value of a terminal and leaves every other pointer unchanged. *)
Theorem flip_if_terminal_spec (p : NodePointer) :
  NodePointer.flip_if_terminal (NodePointer.flip_if_terminal p) = p /\
  (0 <= p < u16_max ->
   NodePointer.as_bool (NodePointer.flip_if_terminal p) = option_map negb (NodePointer.as_bool p) /\
   (NodePointer.is_terminal p = false -> NodePointer.flip_if_terminal p = p)).
Proof.
  unfold NodePointer.flip_if_terminal, NodePointer.is_one, NodePointer.is_zero.
  destruct (p =? 32768) eqn:E1; [apply Z.eqb_eq in E1; subst p; split; [reflexivity|intros _; split; [reflexivity|discriminate]]|].
  destruct (p =? 0) eqn:E0; [apply Z.eqb_eq in E0; subst p; split; [reflexivity|intros _; split; [reflexivity|discriminate]]|].
  rewrite E1, E0. split; [reflexivity|]. intros Hp. split; [|reflexivity].
  apply Z.eqb_neq in E1, E0.
  unfold NodePointer.as_bool.
  destruct (NodePointer.is_terminal p) eqn:Et; [|reflexivity].
  apply (PointerFacts.is_terminal_u16 p Hp) in Et. lia.
Qed.

End PointerExtras.

Module CacheFacts.
Import Cache2.

Lemma new_shape (cap : Z) (c0 : t) :
  new cap = Some c0 ->
  collisions c0 = 0 /\ capacity c0 = cap mod u32_max /\ 0 < capacity c0 /\
  items c0 = repeat u32_MAX (Z.to_nat cap + 1).
Proof.
  unfold new. destruct (cap =? 0) eqn:E0; [discriminate|].
  destruct (cap mod u32_max =? 0) eqn:E1; [discriminate|].
  intros H. injection H as <-. apply Z.eqb_neq in E1. cbn.
  pose proof (Z.mod_pos_bound cap u32_max ltac:(unfold u32_max; lia)). repeat split; lia.
Qed.

Lemma insert_shape (c c' : t) (l r : Z) :
  insert c l r = Some c' ->
  collisions c' = collisions c /\ capacity c' = capacity c /\ length (items c') = length (items c) /\
  exists packed, pack l r = Some packed /\ items c' = <[slot c packed := packed]> (items c).
Proof.
  unfold insert. destruct (pack l r) as [packed|]; [|discriminate].
  intros H. injection H as <-. cbn. rewrite length_insert. split; [reflexivity|]. split; [reflexivity|]. split; [reflexivity|]. eauto.
Qed.

(** Every slot holds the empty marker or the packed key of an inserted pair. *)
Lemma insert_all_inv (keys : list (Z * Z)) :
  forall (c c' : t) (done : list (Z * Z)),
    (forall i x, items c !! i = Some x -> x = u32_MAX \/ exists k, In k done /\ pack k.1 k.2 = Some x) ->
    insert_all c keys = Some c' ->
    collisions c' = collisions c /\ capacity c' = capacity c /\ length (items c') = length (items c) /\
    forall i x, items c' !! i = Some x -> x = u32_MAX \/ exists k, In k (done ++ keys) /\ pack k.1 k.2 = Some x.
Proof.
  induction keys as [|[l r] rest IH]; intros c c' done Hinv Hall; cbn [insert_all] in Hall.
  - injection Hall as <-. rewrite app_nil_r. auto.
  - destruct (insert c l r) as [c1|] eqn:Ei; [|discriminate].
    destruct (insert_shape c c1 l r Ei) as (E1 & E2 & E3 & packed & Hp & Hitems).
    destruct (IH c1 c' (done ++ [(l, r)])) as (F1 & F2 & F3 & F4); [|exact Hall|].
    + intros i x Hx. rewrite Hitems in Hx. apply list_lookup_insert_Some in Hx as [(_ & <- & _)|(_ & Hx)].
      * right. exists (l, r). split; [apply in_or_app; right; left; reflexivity|exact Hp].
      * destruct (Hinv i x Hx) as [H|(k & Hk & Hpk)]; [left; exact H|].
        right. exists k. split; [apply in_or_app; left; exact Hk|exact Hpk].
    + split; [congruence|]. split; [congruence|]. split; [congruence|].
      rewrite <- app_assoc in F4. exact F4.
Qed.

Lemma cache2_reachable_shape (cap : Z) (c0 c : t) (keys : list (Z * Z)) :
  0 <= cap -> new cap = Some c0 -> insert_all c0 keys = Some c ->
  collisions c = 0 /\ capacity c = cap mod u32_max /\ 0 < capacity c <= cap /\
  items c0 = repeat u32_MAX (Z.to_nat cap + 1) /\
  length (items c) = (Z.to_nat cap + 1)%nat /\
  forall i x, items c !! i = Some x -> x = u32_MAX \/ exists k, In k keys /\ pack k.1 k.2 = Some x.
Proof.
  intros Hcap Hn Ha. destruct (new_shape cap c0 Hn) as (H1 & H2 & H3 & H4).
  destruct (insert_all_inv keys c0 c [] ltac:(intros i x Hx; left; rewrite H4 in Hx;
                                               exact (proj2 (Shape.lookup_repeat_Some _ _ _ _ Hx))) Ha)
    as (F1 & F2 & F3 & F4).
  rewrite H4, Shape.length_repeat' in F3.
  pose proof (Z.mod_le cap u32_max Hcap ltac:(unfold u32_max; lia)).
  repeat split; try lia; auto.
Qed.

Lemma slot_bound (c : t) (packed : Z) : 0 < capacity c -> (slot c packed < Z.to_nat (capacity c))%nat.
Proof.
  intros H. unfold slot. pose proof (Z.mod_pos_bound (hash packed) (capacity c) H). lia.
Qed.

Lemma pack_u16 (l r : Z) :
  0 <= l < u16_max -> 0 <= r < u16_max -> pack l r = Some (l * 2 ^ 16 + r).
Proof.
  intros Hl Hr. unfold pack, u16_max, u32_max in *.
  rewrite Z.mod_small by lia. rewrite (proj2 (Z.ltb_lt _ _)) by lia. reflexivity.
Qed.

End CacheFacts.

Module Cache2Extras.
Import Cache2.

(** The unchecked slot accesses of [Cache2::contains] and [Cache2::insert]
    stay inside [items]: for a cache created with a non-zero capacity and
    then filled by inserts, the slot of every packed key is below the
    length of [items]. *)
Theorem cache2_slot_in_bounds (cap : Z) (c0 c : t) (keys : list (Z * Z)) (l r packed : Z) :
  0 <= cap -> new cap = Some c0 -> insert_all c0 keys = Some c -> pack l r = Some packed ->
  (slot c packed < length (items c))%nat.
Proof.
  intros Hcap Hn Ha _. destruct (CacheFacts.cache2_reachable_shape cap c0 c keys Hcap Hn Ha) as (_ & _ & Hc & _ & Hlen & _).
  rewrite Hlen. pose proof (CacheFacts.slot_bound c packed ltac:(lia)). lia.
Qed.

Lemma cache2_slot_in_bounds_witness :
  exists c0 c packed, new 4 = Some c0 /\ insert_all c0 [(1, 2)] = Some c /\ pack 3 4 = Some packed /\
    (slot c packed < length (items c))%nat.
Proof.
  do 3 eexists. split; [reflexivity|]. split; [vm_compute; reflexivity|]. split; [vm_compute; reflexivity|].
  eapply (cache2_slot_in_bounds 4 _ _ [(1, 2)] 3 4 _); [lia | reflexivity | vm_compute; reflexivity ..].
Defined.

(** A pair just inserted is found: after [insert(l, r)] on a cache created
    with a non-zero capacity and filled by inserts, [contains(l, r)]
    answers true. *)
Theorem cache2_insert_contains (cap : Z) (c0 c c' : t) (keys : list (Z * Z)) (l r : Z) :
  0 <= cap -> new cap = Some c0 -> insert_all c0 keys = Some c -> insert c l r = Some c' ->
  contains c' l r = Some true.
Proof.
  intros Hcap Hn Ha Hi. destruct (CacheFacts.cache2_reachable_shape cap c0 c keys Hcap Hn Ha) as (_ & _ & Hc & _ & Hlen & _).
  destruct (CacheFacts.insert_shape c c' l r Hi) as (_ & E2 & _ & packed & Hp & Hitems).
  unfold contains. rewrite Hp. unfold slot. rewrite E2. fold (slot c packed).
  rewrite Hitems. f_equal. apply bool_decide_eq_true. apply list_lookup_insert_eq.
  rewrite Hlen. pose proof (CacheFacts.slot_bound c packed ltac:(lia)). lia.
Qed.

Lemma cache2_insert_contains_witness :
  exists c0 c c', new 4 = Some c0 /\ insert_all c0 [(1, 2)] = Some c /\ insert c 3 4 = Some c' /\
    contains c' 3 4 = Some true.
Proof.
  do 3 eexists. split; [reflexivity|]. split; [vm_compute; reflexivity|]. split; [vm_compute; reflexivity|].
  eapply (cache2_insert_contains 4 _ _ _ [(1, 2)] 3 4); [lia | reflexivity | vm_compute; reflexivity ..].
Defined.

(** [clear] returns a cache filled by inserts to the state [new] created. *)
Theorem cache2_clear_resets (cap : Z) (c0 c : t) (keys : list (Z * Z)) :
  0 <= cap -> new cap = Some c0 -> insert_all c0 keys = Some c -> clear c = c0.
Proof.
  intros Hcap Hn Ha. destruct (CacheFacts.cache2_reachable_shape cap c0 c keys Hcap Hn Ha) as (H1 & H2 & _ & H4 & Hlen & _).
  destruct (CacheFacts.new_shape cap c0 Hn) as (G1 & G2 & _ & G4).
  destruct c0 as [col0 cap0 items0]. cbn in *. subst. unfold clear. f_equal; [congruence|].
  rewrite <- Hlen. clear. induction (items c) as [|x xs IH]; cbn; [reflexivity|]. rewrite IH. reflexivity.
Qed.

Lemma cache2_clear_resets_witness :
  exists c0 c, new 4 = Some c0 /\ insert_all c0 [(1, 2)] = Some c /\ clear c = c0.
Proof.
  do 2 eexists. split; [reflexivity|]. split; [vm_compute; reflexivity|].
  eapply (cache2_clear_resets 4 _ _ [(1, 2)]); [lia | reflexivity | vm_compute; reflexivity ..].
Defined.

(** On 16-bit pointers [Cache2] has no false positive, except for the pair
    [(65535, 65535)] that packs to the empty marker [u32::MAX]: when all
    inserted pairs and the queried pair are below [2^16], [contains]
    answers true only for a pair that was inserted. *)
Theorem cache2_no_false_positive_u16 (cap : Z) (c0 c : t) (keys : list (Z * Z)) (l r : Z) :
  0 <= cap -> new cap = Some c0 -> insert_all c0 keys = Some c ->
  Forall (fun k => 0 <= k.1 < u16_max /\ 0 <= k.2 < u16_max) keys ->
  0 <= l < u16_max -> 0 <= r < u16_max -> (l, r) <> (65535, 65535) ->
  contains c l r = Some true -> In (l, r) keys.
Proof.
  intros Hcap Hn Ha Hk Hl Hr Hne Hc.
  destruct (CacheFacts.cache2_reachable_shape cap c0 c keys Hcap Hn Ha) as (_ & _ & _ & _ & _ & Hinv).
  unfold contains in Hc. rewrite (CacheFacts.pack_u16 l r Hl Hr) in Hc.
  injection Hc as Hc. apply bool_decide_eq_true in Hc.
  destruct (Hinv _ _ Hc) as [Hm|([l' r'] & Hin & Hp)].
  - exfalso. apply Hne. unfold u32_MAX, u32_max, u16_max in *. f_equal; lia.
  - rewrite List.Forall_forall in Hk. destruct (Hk _ Hin) as [Hl' Hr']. cbn in Hl', Hr', Hp.
    rewrite (CacheFacts.pack_u16 l' r' Hl' Hr') in Hp. injection Hp as Hp.
    unfold u16_max in *. assert (l' = l /\ r' = r) as [-> ->] by lia. exact Hin.
Qed.

Lemma cache2_no_false_positive_u16_witness :
  exists c0 c, new 4 = Some c0 /\ insert_all c0 [(1, 2)] = Some c /\ contains c 1 2 = Some true /\
    In (1, 2) [(1, 2)].
Proof.
  do 2 eexists. split; [reflexivity|]. split; [vm_compute; reflexivity|]. split; [vm_compute; reflexivity|].
  eapply (cache2_no_false_positive_u16 4 _ _ [(1, 2)] 1 2); try (unfold u16_max; lia).
  - reflexivity.
  - vm_compute. reflexivity.
  - constructor; [cbn; unfold u16_max; lia | constructor].
  - congruence.
  - vm_compute. reflexivity.
Defined.

End Cache2Extras.

Module InterleaveFacts.
Import VarNodeStorage.

Lemma interleave_parts (a b : Z) :
  interleave a b = Z.lor (interleave 0 b) (interleave a 0) /\
  interleave 256 b = interleave 0 b /\
  (forall k, (k < 8)%nat -> Z.testbit (interleave 0 b) (1 + 2 * Z.of_nat k) = false) /\
  (forall k, (k < 8)%nat -> Z.testbit (interleave a 0) (2 * Z.of_nat k) = false).
Proof.
  set (F := fun x => Z.shiftr (wrap64 (Z.land (wrap64 (x * 72340172838076673))
                                      9241421688590303745 * 72624976668147841)) 49).
  set (G := fun x => Z.shiftr (wrap64 (Z.land (wrap64 (x * 72340172838076673))
                                      9241421688590303745 * 72624976668147841)) 48).
  assert (E : forall x y, interleave x y = Z.lor (Z.land (F y) 21845) (Z.land (G x) 43690))
    by reflexivity.
  assert (F0 : F 0 = 0) by reflexivity.
  assert (G0 : G 0 = 0) by reflexivity.
  assert (G256 : G 256 = 0) by reflexivity.
  rewrite !E, F0, G0, G256, !Z.land_0_l, Z.lor_0_l, Z.lor_0_r.
  split; [reflexivity|]. split; [reflexivity|]. split.
  - intros k Hk. rewrite Z.land_spec.
    do 8 (destruct k as [|k]; [cbn; apply andb_false_r|]). lia.
  - intros k Hk. rewrite Z.land_spec.
    do 8 (destruct k as [|k]; [cbn; apply andb_false_r|]). lia.
Qed.

Lemma gather_lor (x y off : Z) (n : nat) :
  (forall k, (k < n)%nat -> Z.testbit y (off + 2 * Z.of_nat k) = false) ->
  gather (Z.lor y x) off n = gather x off n.
Proof.
  revert off. induction n as [|n IH]; intros off H; [reflexivity|].
  cbn [gather]. rewrite Z.lor_spec.
  assert (H0 : Z.testbit y off = false) by (specialize (H O ltac:(lia)); rewrite <- H; f_equal; lia).
  rewrite H0, orb_false_l. f_equal. f_equal. apply IH.
  intros k Hk. specialize (H (S k) ltac:(lia)). rewrite <- H. f_equal. lia.
Qed.

Lemma gather_checks :
  forallb (fun a => gather (interleave a 0) 1 8 =? a) (zseq 0 (Z.to_nat 256)) = true /\
  forallb (fun b => gather (interleave 0 b) 0 8 =? b) (zseq 0 (Z.to_nat 256)) = true.
Proof. split; vm_compute; reflexivity. Qed.

Lemma gather_interleave (a b : Z) :
  0 <= a < 256 -> 0 <= b < 256 ->
  gather (interleave a b) 1 8 = a /\ gather (interleave a b) 0 8 = b.
Proof.
  intros Ha Hb. destruct (interleave_parts a b) as (E & _ & Hodd & Heven).
  destruct gather_checks as [C1 C2]. rewrite E. split.
  - rewrite gather_lor by exact Hodd.
    apply Z.eqb_eq. exact (PointerFacts.forallb_zrange _ 0 256 ltac:(lia) C1 a ltac:(lia)).
  - rewrite Z.lor_comm, gather_lor by (intros k Hk; rewrite <- (Heven k Hk); f_equal; lia).
    apply Z.eqb_eq. exact (PointerFacts.forallb_zrange _ 0 256 ltac:(lia) C2 b ltac:(lia)).
Qed.

End InterleaveFacts.

Module StorageFacts.
Import VarNodeStorage.

Lemma vec_insert_lookup (none_pointer : NodePointer) (v : list NodePointer) (i : nat) (p : NodePointer) :
  vec_insert none_pointer v i p !! i = Some p.
Proof.
  unfold vec_insert. destruct (decide (length v <= i)%nat) as [H|H].
  - apply list_lookup_insert_eq. rewrite length_app, Shape.length_repeat'. lia.
  - apply list_lookup_insert_eq. lia.
Qed.

Lemma insert_lengths (none_pointer : NodePointer) (s s' : t) (low high p : NodePointer) :
  insert none_pointer s low high p = Some s' ->
  length (constant s') = length (constant s) /\ length (terminal s') = length (terminal s) /\
  length (equal_vars s') = length (equal_vars s).
Proof.
  unfold insert.
  destruct (NodePointer.as_bool low) as [[]|], (NodePointer.as_bool high) as [[]|];
    try (intros H; injection H as <-; cbn; rewrite ?length_insert; auto; fail).
  destruct (negb _); [intros H; injection H as <-; auto|].
  destruct (equal_vars s !! _); [|discriminate].
  intros H; injection H as <-; cbn; rewrite ?length_insert; auto.
Qed.

Lemma reachable_lengths (none_pointer : NodePointer) (vars : nat) (s : t) :
  reachable none_pointer vars s ->
  length (constant s) = 4%nat /\ length (terminal s) = 4%nat /\ length (equal_vars s) = vars.
Proof.
  induction 1 as [|s s' low high p _ IH Hi].
  - cbn. rewrite !Shape.length_repeat'. auto.
  - destruct (insert_lengths _ _ _ _ _ _ Hi) as (E1 & E2 & E3). lia.
Qed.

(** Insert, then find, along every branch but the one of two non-terminal
    children of different variables. *)
Lemma insert_find (none_pointer : NodePointer) (as_pointer : NodePointer -> option NodePointer)
  (s s' : t) (low high p : NodePointer) :
  length (constant s) = 4%nat -> length (terminal s) = 4%nat ->
  insert none_pointer s low high p = Some s' ->
  (NodePointer.as_bool low = None -> NodePointer.as_bool high = None ->
   NodePointer.variable_id low = NodePointer.variable_id high) ->
  find as_pointer s' low high = Some (as_pointer p).
Proof.
  intros Hc Ht Hi Hv. unfold insert in Hi. unfold find.
  destruct (NodePointer.as_bool low) as [[]|], (NodePointer.as_bool high) as [[]|];
    try (injection Hi as <-; cbn; rewrite list_lookup_insert_eq by lia; reflexivity).
  all: try (injection Hi as <-; unfold get_terminal; cbn;
            rewrite list_lookup_insert_eq by lia; cbn; rewrite vec_insert_lookup; reflexivity).
  rewrite (Hv eq_refl eq_refl), Z.eqb_refl in Hi |- *. cbn [negb] in Hi |- *.
  destruct (equal_vars s !! _) as [vector|] eqn:E; [|discriminate].
  injection Hi as <-. cbn.
  rewrite list_lookup_insert_eq by (apply lookup_lt_Some in E; exact E).
  rewrite vec_insert_lookup. reflexivity.
Qed.

End StorageFacts.

Module VarNodeStorageExtras.
Import VarNodeStorage.

(** [VarNodeStorage::find] finds what [VarNodeStorage::insert] stored, on
    every path except the one of two non-terminal children of different
    variables (see the claim on that path): for a table built by [new(vars)]
    and inserts, once [insert(low, high, p)] has returned, [find(low, high)]
    returns [p.as_pointer()]. *)
Theorem var_storage_insert_find (none_pointer : NodePointer)
  (as_pointer : NodePointer -> option NodePointer) (vars : nat)
  (s s' : t) (low high p : NodePointer) :
  reachable none_pointer vars s ->
  insert none_pointer s low high p = Some s' ->
  (NodePointer.as_bool low = None -> NodePointer.as_bool high = None ->
   NodePointer.variable_id low = NodePointer.variable_id high) ->
  find as_pointer s' low high = Some (as_pointer p).
Proof.
  intros Hr Hi Hv. destruct (StorageFacts.reachable_lengths _ _ _ Hr) as (Hc & Ht & _).
  exact (StorageFacts.insert_find none_pointer as_pointer s s' low high p Hc Ht Hi Hv).
Qed.

Lemma var_storage_insert_find_witness :
  exists lo hi s', NodePointer.new 3 0 = Some lo /\ NodePointer.new 3 1 = Some hi /\
    insert 65535 (new 65535 64) lo hi 7 = Some s' /\ find (fun p => Some p) s' lo hi = Some (Some 7).
Proof.
  do 3 eexists. split; [vm_compute; reflexivity|]. split; [vm_compute; reflexivity|].
  split; [vm_compute; reflexivity|].
  apply (var_storage_insert_find 65535 (fun p => Some p) 64 (new 65535 64)).
  - apply reachable_new.
  - vm_compute. reflexivity.
  - intros _ _. vm_compute. reflexivity.
Defined.

(** A fresh table finds no entry for a pair with a non-terminal child: on
    [new(vars)], [find(low, high)] returns [None], except for two
    non-terminal children of one variable at or above [vars], where the
    lookup [self.equal_vars[..]] panics. *)
Theorem var_storage_new_find (none_pointer : NodePointer)
  (as_pointer : NodePointer -> option NodePointer) (vars : nat) (low high : NodePointer) :
  NodePointer.as_bool low = None \/ NodePointer.as_bool high = None ->
  ((NodePointer.as_bool low = None /\ NodePointer.as_bool high = None /\
    NodePointer.variable_id low = NodePointer.variable_id high /\
    (vars <= Z.to_nat (NodePointer.variable_id low))%nat) ->
   find as_pointer (new none_pointer vars) low high = None) /\
  (~ (NodePointer.as_bool low = None /\ NodePointer.as_bool high = None /\
      NodePointer.variable_id low = NodePointer.variable_id high /\
      (vars <= Z.to_nat (NodePointer.variable_id low))%nat) ->
   find as_pointer (new none_pointer vars) low high = Some None).
Proof.
  intros Hnt. split.
  - intros (El & Eh & Ev & Hle). unfold find, new. rewrite El, Eh, Ev, Z.eqb_refl.
    cbn [negb equal_vars]. rewrite Ev in Hle.
    rewrite lookup_ge_None_2; [reflexivity|]. rewrite Shape.length_repeat'. exact Hle.
  - intros Hn. unfold find, new, get_terminal. cbn [constant terminal equal_vars other].
    destruct (NodePointer.as_bool low) as [[]|] eqn:El, (NodePointer.as_bool high) as [[]|] eqn:Eh;
      try (destruct Hnt; discriminate); try reflexivity.
    destruct (NodePointer.variable_id low =? NodePointer.variable_id high) eqn:Ev; cbn [negb].
    + apply Z.eqb_eq in Ev.
      assert (Hlt : (Z.to_nat (NodePointer.variable_id low) < vars)%nat)
        by (destruct (Nat.lt_ge_cases (Z.to_nat (NodePointer.variable_id low)) vars) as [H|H];
            [exact H | exfalso; apply Hn; auto]).
      rewrite (Shape.lookup_repeat_lt [] vars _ Hlt). reflexivity.
    + rewrite lookup_empty. reflexivity.
Qed.

Lemma var_storage_new_find_witness :
  NodePointer.as_bool 44672 = None /\
  ((NodePointer.as_bool 44672 = None /\ NodePointer.as_bool 0 = None /\
    NodePointer.variable_id 44672 = NodePointer.variable_id 0 /\
    (64 <= Z.to_nat (NodePointer.variable_id 44672))%nat) ->
   find (fun p => Some p) (new 65535 64) 44672 0 = None) /\
  (~ (NodePointer.as_bool 44672 = None /\ NodePointer.as_bool 0 = None /\
      NodePointer.variable_id 44672 = NodePointer.variable_id 0 /\
      (64 <= Z.to_nat (NodePointer.variable_id 44672))%nat) ->
   find (fun p => Some p) (new 65535 64) 44672 0 = Some None).
Proof.
  split; [vm_compute; reflexivity|].
  apply (var_storage_new_find 65535 (fun p => Some p) 64 44672 0). left. vm_compute. reflexivity.
Defined.

(** [interleave] gives distinct slots to distinct pairs of node indices below
    256, and to no larger ones: [interleave(256, j) = interleave(0, j)] for
    every [j]. *)
Theorem interleave_injective_below_256 (a b a' b' : Z) :
  0 <= a < 256 -> 0 <= b < 256 -> 0 <= a' < 256 -> 0 <= b' < 256 ->
  (interleave a b = interleave a' b' <-> a = a' /\ b = b') /\
  (forall j, interleave 256 j = interleave 0 j).
Proof.
  intros Ha Hb Ha' Hb'. split.
  - split; [|intros [-> ->]; reflexivity].
    intros E. destruct (InterleaveFacts.gather_interleave a b Ha Hb) as [E1 E2].
    destruct (InterleaveFacts.gather_interleave a' b' Ha' Hb') as [E1' E2'].
    rewrite E in E1, E2. split; congruence.
  - intros j. exact (proj1 (proj2 (InterleaveFacts.interleave_parts 0 j))).
Qed.

Lemma interleave_injective_below_256_witness :
  (interleave 3 5 = interleave 3 5 <-> 3 = 3 /\ 5 = 5) /\ (forall j, interleave 256 j = interleave 0 j).
Proof.
  apply (interleave_injective_below_256 3 5 3 5); lia.
Defined.

(** Two different nodes share a slot of the table: for a variable [w] whose
    node indices go up to 4096 (28 <= w < 36), the pairs
    [(new(w, 0), new(w, j))] and [(new(w, 256), new(w, j))] land in the same
    entry of [equal_vars], so after [insert] of the first pair with result
    [p], [find] of the second, never inserted, pair returns [p] as well. *)
Theorem var_storage_index_collision (none_pointer : NodePointer)
  (as_pointer : NodePointer -> option NodePointer) (vars : nat)
  (s s' : t) (w j : Z) (lo0 lo1 hi p : NodePointer) :
  reachable none_pointer vars s -> 28 <= w < 36 ->
  NodePointer.new w 0 = Some lo0 -> NodePointer.new w 256 = Some lo1 ->
  NodePointer.new w j = Some hi ->
  insert none_pointer s lo0 hi p = Some s' ->
  lo0 <> lo1 /\ find as_pointer s' lo1 hi = Some (as_pointer p).
Proof.
  intros Hr Hw H0 H1 Hh Hi.
  destruct (NewFacts.new_decode w 0 lo0 ltac:(lia) H0) as (T0 & V0 & I0).
  destruct (NewFacts.new_decode w 256 lo1 ltac:(lia) H1) as (T1 & V1 & I1).
  destruct (NewFacts.new_decode w j hi ltac:(lia) Hh) as (Th & Vh & Ih).
  assert (B0 : NodePointer.as_bool lo0 = None) by (unfold NodePointer.as_bool; rewrite T0; reflexivity).
  assert (B1 : NodePointer.as_bool lo1 = None) by (unfold NodePointer.as_bool; rewrite T1; reflexivity).
  assert (Bh : NodePointer.as_bool hi = None) by (unfold NodePointer.as_bool; rewrite Th; reflexivity).
  split; [intros ->; congruence|].
  destruct (StorageFacts.reachable_lengths _ _ _ Hr) as (Hc & Ht & _).
  pose proof (StorageFacts.insert_find none_pointer as_pointer s s' lo0 hi p Hc Ht Hi
                (fun _ _ => eq_trans V0 (eq_sym Vh))) as F.
  unfold find in F |- *. rewrite B0, Bh in F. rewrite B1, Bh.
  rewrite V0, Vh, Z.eqb_refl in F. rewrite V1, Vh, Z.eqb_refl. cbn [negb] in F |- *.
  rewrite I0 in F. rewrite I1. rewrite (proj1 (proj2 (InterleaveFacts.interleave_parts 0 (NodePointer.node_index hi)))). exact F.
Qed.

Lemma var_storage_index_collision_witness :
  exists lo0 lo1 hi s', NodePointer.new 28 0 = Some lo0 /\ NodePointer.new 28 256 = Some lo1 /\
    NodePointer.new 28 0 = Some hi /\ insert 65535 (new 65535 64) lo0 hi 7 = Some s' /\
    lo0 <> lo1 /\ find (fun p => Some p) s' lo1 hi = Some (Some 7).
Proof.
  do 4 eexists. split; [vm_compute; reflexivity|]. split; [vm_compute; reflexivity|].
  split; [vm_compute; reflexivity|]. split; [vm_compute; reflexivity|].
  apply (var_storage_index_collision 65535 (fun p => Some p) 64 (new 65535 64) _ 28 0); [apply reachable_new | lia | vm_compute; reflexivity ..].
Defined.

End VarNodeStorageExtras.

Module NewStorageFacts.
Import NewNodeStorage.

Lemma new_storage_reachable_shape (none_pointer : NodePointer) (var_count : nat) (s : t) :
  reachable none_pointer var_count s ->
  length (vars s) = var_count /\
  forall i v, vars s !! i = Some v -> VarNodeStorage.reachable none_pointer var_count v.
Proof.
  induction 1 as [cap|s s' variable node p _ [IHl IHv] Hi].
  - cbn. rewrite Shape.length_repeat'. split; [reflexivity|].
    intros i v Hv. rewrite (proj2 (Shape.lookup_repeat_Some _ _ _ _ Hv)). constructor.
  - unfold insert in Hi.
    destruct (vars s !! Z.to_nat variable) as [v|] eqn:Ev; cbn [mbind option_bind] in Hi; [|discriminate].
    destruct (VarNodeStorage.insert none_pointer v node.1 node.2 p) as [v'|] eqn:Ei;
      cbn [mbind option_bind] in Hi; [|discriminate].
    injection Hi as <-. cbn. rewrite length_insert. split; [exact IHl|].
    intros i w Hw. apply list_lookup_insert_Some in Hw as [(<- & <- & _)|(_ & Hw)].
    + econstructor; [exact (IHv _ _ Ev)|exact Ei].
    + exact (IHv _ _ Hw).
Qed.

Lemma new_storage_insert_inv (none_pointer : NodePointer) (s s' : t) (variable : VariableId)
  (node : NodePointer * NodePointer) (p : NodePointer) :
  insert none_pointer s variable node p = Some s' ->
  exists v v', vars s !! Z.to_nat variable = Some v /\
    VarNodeStorage.insert none_pointer v node.1 node.2 p = Some v' /\
    s' = mk (<[Z.to_nat variable := v']> (vars s)).
Proof.
  unfold insert. intros Hi.
  destruct (vars s !! Z.to_nat variable) as [v|] eqn:Ev; cbn [mbind option_bind] in Hi; [|discriminate].
  destruct (VarNodeStorage.insert none_pointer v node.1 node.2 p) as [v'|] eqn:Ei;
    cbn [mbind option_bind] in Hi; [|discriminate].
  injection Hi as <-. eauto.
Qed.

End NewStorageFacts.

Module NewNodeStorageExtras.
Import NewNodeStorage.

(** [NewNodeStorage] keeps one uniqueness table per variable: for a storage
    built by [new(var_count, _)] and inserts, once [insert(variable, node, p)]
    has returned, [find(variable, node)] returns [p.as_pointer()] (for a node
    whose two children are not non-terminals of different variables), and
    [find] on every other variable answers as before the insert. *)
Theorem new_storage_insert_find (none_pointer : NodePointer)
  (as_pointer : NodePointer -> option NodePointer) (var_count : nat)
  (s s' : t) (variable : VariableId) (node : NodePointer * NodePointer) (p : NodePointer) :
  reachable none_pointer var_count s ->
  insert none_pointer s variable node p = Some s' ->
  (NodePointer.as_bool node.1 = None -> NodePointer.as_bool node.2 = None ->
   NodePointer.variable_id node.1 = NodePointer.variable_id node.2) ->
  find as_pointer s' variable node = Some (as_pointer p) /\
  (forall (variable' : VariableId) (node' : NodePointer * NodePointer),
     Z.to_nat variable' <> Z.to_nat variable ->
     find as_pointer s' variable' node' = find as_pointer s variable' node').
Proof.
  intros Hr Hi Hv. destruct (NewStorageFacts.new_storage_reachable_shape _ _ _ Hr) as [_ Hall].
  destruct (NewStorageFacts.new_storage_insert_inv _ _ _ _ _ _ Hi) as (v & v' & Ev & Ei & ->). split.
  - unfold find. cbn [vars]. rewrite list_lookup_insert_eq by (apply lookup_lt_Some in Ev; exact Ev).
    cbn [mbind option_bind]. destruct (StorageFacts.reachable_lengths _ _ _ (Hall _ _ Ev)) as (Hc & Ht & _).
    exact (StorageFacts.insert_find none_pointer as_pointer v v' node.1 node.2 p Hc Ht Ei Hv).
  - intros variable' node' Hne. unfold find. cbn [vars].
    rewrite list_lookup_insert_ne by congruence. reflexivity.
Qed.

Lemma new_storage_insert_find_witness :
  exists lo hi s', NodePointer.new 3 0 = Some lo /\ NodePointer.new 3 1 = Some hi /\
    insert 65535 (new 65535 64 0) 3 (lo, hi) 7 = Some s' /\
    find (fun p => Some p) s' 3 (lo, hi) = Some (Some 7) /\
    (forall (variable' : VariableId) (node' : NodePointer * NodePointer),
       Z.to_nat variable' <> Z.to_nat 3 ->
       find (fun p => Some p) s' variable' node' = find (fun p => Some p) (new 65535 64 0) variable' node').
Proof.
  do 3 eexists. split; [vm_compute; reflexivity|]. split; [vm_compute; reflexivity|].
  split; [vm_compute; reflexivity|].
  apply (new_storage_insert_find 65535 (fun p => Some p) 64 (new 65535 64 0)).
  - apply reachable_new.
  - vm_compute. reflexivity.
  - intros _ _. vm_compute. reflexivity.
Defined.

(** [NewNodeStorage::find] and [NewNodeStorage::insert] panic on a variable
    without a table: for a storage built by [new(var_count, _)] and
    inserts, both fail at the indexing [self.vars[..]] when
    [usize::from(variable) >= var_count]. *)
Theorem new_storage_variable_out_of_range (none_pointer : NodePointer)
  (as_pointer : NodePointer -> option NodePointer) (var_count : nat)
  (s : t) (variable : VariableId) (node : NodePointer * NodePointer) (p : NodePointer) :
  reachable none_pointer var_count s -> (var_count <= Z.to_nat variable)%nat ->
  find as_pointer s variable node = None /\ insert none_pointer s variable node p = None.
Proof.
  intros Hr Hle. destruct (NewStorageFacts.new_storage_reachable_shape _ _ _ Hr) as [Hl _].
  unfold find, insert. rewrite lookup_ge_None_2 by lia. split; reflexivity.
Qed.

Lemma new_storage_variable_out_of_range_witness :
  find (fun p => Some p) (new 65535 64 0) 64 (0, 32768) = None /\ insert 65535 (new 65535 64 0) 64 (0, 32768) 7 = None.
Proof.
  apply (new_storage_variable_out_of_range 65535 (fun p => Some p) 64 (new 65535 64 0)); [apply reachable_new | lia].
Defined.

End NewNodeStorageExtras.

Module StackFacts.
Import StaticTaskStack.

Lemma stack_reachable_shape (filler : Z * Z) (s : t) :
  reachable filler s -> length (storage s) = 1024%nat /\ (after_top s <= 1024)%nat.
Proof.
  induction 1 as [num_vars s Hn|s s' task _ [IHl IHa] Hp|s s' o _ [IHl IHa] Hp].
  - unfold new in Hn. destruct (u16_max <=? num_vars * 2); [discriminate|].
    destruct (1024 <? num_vars * 2); [discriminate|]. injection Hn as <-.
    cbn. rewrite ?Shape.length_repeat'. lia.
  - unfold push in Hp. destruct (1024 <=? after_top s)%nat eqn:E; [discriminate|].
    apply Nat.leb_gt in E. destruct (storage s !! after_top s); [|discriminate].
    injection Hp as <-. cbn. rewrite length_insert. lia.
  - unfold pop in Hp. destruct (after_top s) as [|n] eqn:E.
    + injection Hp as <- _. rewrite E. lia.
    + destruct (storage s !! n); [|discriminate]. injection Hp as <- _. cbn. lia.
Qed.

End StackFacts.

Module OpCacheFacts.
Import StaticOpCache.

Lemma op_cache_reachable_shape (X : Z) (c : t) :
  reachable X c ->
  length (storage c) = Z.to_nat X /\ l_size c * r_size c <= X /\ l_size c * r_size c < 65535.
Proof.
  induction 1 as [ls rs c Hn|c c' l r v _ (IHl & IHx & IHm) Hs].
  - unfold new in Hn. destruct (2 ^ 64 <=? ls * rs); [discriminate|].
    destruct (X <? ls * rs) eqn:E1; [discriminate|].
    destruct (65535 <=? ls * rs) eqn:E2; [discriminate|].
    apply Z.ltb_ge in E1. apply Z.leb_gt in E2.
    injection Hn as <-. cbn. rewrite Shape.length_repeat'. lia.
  - unfold set in Hs. destruct (index c l r); cbn in Hs; [|discriminate].
    destruct (u16_max <=? v); [discriminate|].
    destruct (length (storage c) <=? Z.to_nat z)%nat; [discriminate|].
    injection Hs as <-. cbn. rewrite length_insert. lia.
Qed.

Lemma index_in_range (c : t) (l r : Z) :
  l_size c * r_size c < 65535 -> 0 <= l < l_size c -> 0 <= r < r_size c ->
  index c l r = Some (l * r_size c + r) /\ 0 <= l * r_size c + r < l_size c * r_size c.
Proof.
  intros Hm Hl Hr. assert (Hb : l * r_size c + r < l_size c * r_size c) by nia.
  unfold index, u32_max.
  destruct (2 ^ 32 <=? r_size c) eqn:E1; [apply Z.leb_le in E1; nia|].
  destruct (2 ^ 32 <=? l * r_size c) eqn:E2; [apply Z.leb_le in E2; nia|].
  destruct (2 ^ 32 <=? l * r_size c + r) eqn:E3; [apply Z.leb_le in E3; nia|].
  split; [reflexivity|nia].
Qed.

End OpCacheFacts.

Module U16ApplyExtras.

(** [StaticTaskStack::new(num_vars)] succeeds exactly when
    [num_vars * 2 <= 1024], i.e. for at most 512 variables, and returns an
    empty stack. *)
Theorem task_stack_new (filler : Z * Z) (num_vars : Z) :
  0 <= num_vars < u16_max ->
  (StaticTaskStack.new filler num_vars = None <-> 512 < num_vars) /\
  (forall s, StaticTaskStack.new filler num_vars = Some s -> StaticTaskStack.contents s = []).
Proof.
  intros Hn. unfold StaticTaskStack.new. split.
  - destruct (u16_max <=? num_vars * 2) eqn:E1; [apply Z.leb_le in E1|apply Z.leb_gt in E1];
    (destruct (1024 <? num_vars * 2) eqn:E2; [apply Z.ltb_lt in E2|apply Z.ltb_ge in E2]);
    unfold u16_max in *; split; intros H; try discriminate; try reflexivity; lia.
  - intros s. destruct (u16_max <=? num_vars * 2); [discriminate|].
    destruct (1024 <? num_vars * 2); [discriminate|]. intros H. injection H as <-. reflexivity.
Qed.

Lemma task_stack_new_witness :
  (StaticTaskStack.new (0, 0) 100 = None <-> 512 < 100) /\
  (forall s, StaticTaskStack.new (0, 0) 100 = Some s -> StaticTaskStack.contents s = []).
Proof.
  apply (task_stack_new (0, 0) 100). unfold u16_max; lia.
Defined.

(** On a stack built by [new] and pushes and pops, [push(task)] panics
    exactly when the stack already holds 1024 tasks, and otherwise appends
    [task] on top of the tasks held. *)
Theorem task_stack_push (filler : Z * Z) (s : StaticTaskStack.t) (task : Z * Z) :
  StaticTaskStack.reachable filler s ->
  (StaticTaskStack.push s task = None <-> length (StaticTaskStack.contents s) = 1024%nat) /\
  (forall s', StaticTaskStack.push s task = Some s' ->
     StaticTaskStack.contents s' = StaticTaskStack.contents s ++ [task]).
Proof.
  intros Hr. destruct (StackFacts.stack_reachable_shape filler s Hr) as [Hl Ha].
  unfold StaticTaskStack.contents. rewrite length_take, Hl.
  unfold StaticTaskStack.push.
  destruct (1024 <=? StaticTaskStack.after_top s)%nat eqn:E.
  - apply Nat.leb_le in E. split; [split; [lia|reflexivity]|discriminate].
  - apply Nat.leb_gt in E.
    destruct (StaticTaskStack.storage s !! StaticTaskStack.after_top s) as [x|] eqn:Ex;
      [|apply lookup_ge_None_1 in Ex; lia].
    split; [split; [discriminate|lia]|].
    intros s' H. injection H as <-. cbn.
    rewrite (take_S_r _ _ task) by (apply list_lookup_insert_eq; lia).
    rewrite take_insert. destruct (decide _); [lia|reflexivity].
Qed.

Lemma task_stack_push_witness :
  exists s, StaticTaskStack.new (0, 0) 100 = Some s /\
  (StaticTaskStack.push s (1, 2) = None <-> length (StaticTaskStack.contents s) = 1024%nat) /\
  (forall s', StaticTaskStack.push s (1, 2) = Some s' ->
     StaticTaskStack.contents s' = StaticTaskStack.contents s ++ [(1, 2)]).
Proof.
  eexists. split; [vm_compute; reflexivity|].
  apply (task_stack_push (0, 0) _ (1, 2)). apply (StaticTaskStack.reachable_new (0, 0) 100). vm_compute. reflexivity.
Defined.

(** On a stack built by [new] and pushes and pops, [pop] never panics: it
    returns [None] and leaves the stack as it is when it is empty, and
    otherwise removes and returns the task on top. *)
Theorem task_stack_pop (filler : Z * Z) (s : StaticTaskStack.t) :
  StaticTaskStack.reachable filler s ->
  exists s' o, StaticTaskStack.pop s = Some (s', o) /\
    ((StaticTaskStack.contents s = [] /\ o = None /\ s' = s) \/
     (exists x, StaticTaskStack.contents s = StaticTaskStack.contents s' ++ [x] /\ o = Some x)).
Proof.
  intros Hr. destruct (StackFacts.stack_reachable_shape filler s Hr) as [Hl Ha].
  unfold StaticTaskStack.pop, StaticTaskStack.contents.
  destruct (StaticTaskStack.after_top s) as [|n] eqn:E.
  - exists s, None. split; [reflexivity|]. left. split; [reflexivity|auto].
  - destruct (StaticTaskStack.storage s !! n) as [x|] eqn:Ex;
      [|apply lookup_ge_None_1 in Ex; lia].
    eexists _, _. split; [reflexivity|]. right. exists x. cbn.
    split; [|reflexivity]. apply take_S_r. exact Ex.
Qed.

Lemma task_stack_pop_witness :
  exists s, StaticTaskStack.new (0, 0) 100 = Some s /\
  exists s' o, StaticTaskStack.pop s = Some (s', o) /\
    ((StaticTaskStack.contents s = [] /\ o = None /\ s' = s) \/
     (exists x, StaticTaskStack.contents s = StaticTaskStack.contents s' ++ [x] /\ o = Some x)).
Proof.
  eexists. split; [vm_compute; reflexivity|].
  apply (task_stack_pop (0, 0)). apply (StaticTaskStack.reachable_new (0, 0) 100). vm_compute. reflexivity.
Defined.

(** A cache fresh from [StaticOpCache::new(left, right)] holds no result:
    for every pair [(l, r)] below the two sizes, [get(l, r)] is [None] and
    [contains(l, r)] is false. *)
Theorem op_cache_new_empty (X l_size r_size : Z) (c : StaticOpCache.t) (l r : Z) :
  StaticOpCache.new X l_size r_size = Some c -> 0 <= l < l_size -> 0 <= r < r_size ->
  StaticOpCache.get c l r = Some None /\ StaticOpCache.contains c l r = Some false.
Proof.
  intros Hn Hl Hr.
  destruct (OpCacheFacts.op_cache_reachable_shape X c (StaticOpCache.reachable_new X _ _ _ Hn)) as (Hlen & Hx & Hm).
  unfold StaticOpCache.new in Hn. destruct (2 ^ 64 <=? l_size * r_size); [discriminate|].
  destruct (X <? l_size * r_size); [discriminate|].
  destruct (65535 <=? l_size * r_size); [discriminate|]. injection Hn as <-.
  destruct (OpCacheFacts.index_in_range (StaticOpCache.mk l_size r_size (repeat 65535 (Z.to_nat X))) l r)
    as [Hi Hb]; cbn in *; try lia.
  unfold StaticOpCache.get, StaticOpCache.contains. rewrite Hi. cbn.
  rewrite Shape.lookup_repeat_lt by lia. split; reflexivity.
Qed.

Lemma op_cache_new_empty_witness :
  exists c, StaticOpCache.new 1024 2 2 = Some c /\
    StaticOpCache.get c 1 1 = Some None /\ StaticOpCache.contains c 1 1 = Some false.
Proof.
  eexists. split; [vm_compute; reflexivity|].
  apply (op_cache_new_empty 1024 2 2); [vm_compute; reflexivity | lia | lia].
Defined.

(** On a cache built by [new] and [set] calls, the accesses of a pair
    [(l, r)] below the two sizes stay in bounds: [get] and [contains] do
    not panic, and [set(l, r, value)] panics exactly on a [value] that does
    not fit 16 bits. *)
Theorem op_cache_in_range (X : Z) (c : StaticOpCache.t) (l r : Z) :
  StaticOpCache.reachable X c ->
  0 <= l < StaticOpCache.l_size c -> 0 <= r < StaticOpCache.r_size c ->
  (exists o, StaticOpCache.get c l r = Some o) /\
  (exists b, StaticOpCache.contains c l r = Some b) /\
  (forall value, 0 <= value -> StaticOpCache.set c l r value = None <-> u16_max <= value).
Proof.
  intros Hr Hl Hrr. destruct (OpCacheFacts.op_cache_reachable_shape X c Hr) as (Hlen & Hx & Hm).
  destruct (OpCacheFacts.index_in_range c l r Hm Hl Hrr) as [Hi Hb].
  assert (Hlt : (Z.to_nat (l * StaticOpCache.r_size c + r) < length (StaticOpCache.storage c))%nat)
    by (rewrite Hlen; lia).
  destruct (lookup_lt_is_Some_2 _ _ Hlt) as [x Hx'].
  unfold StaticOpCache.get, StaticOpCache.contains, StaticOpCache.set. rewrite Hi. cbn.
  rewrite Hx'. cbn. split; [eauto|]. split; [eauto|].
  intros value Hv. destruct (u16_max <=? value) eqn:E; [apply Z.leb_le in E|apply Z.leb_gt in E].
  - split; [lia|reflexivity].
  - destruct (length (StaticOpCache.storage c) <=? Z.to_nat (l * StaticOpCache.r_size c + r))%nat eqn:E';
      [apply Nat.leb_le in E'; lia|]. split; [discriminate|lia].
Qed.

Lemma op_cache_in_range_witness :
  exists c, StaticOpCache.new 1024 2 2 = Some c /\
  (exists o, StaticOpCache.get c 1 1 = Some o) /\
  (exists b, StaticOpCache.contains c 1 1 = Some b) /\
  (forall value, 0 <= value -> StaticOpCache.set c 1 1 value = None <-> u16_max <= value).
Proof.
  eexists. split; [vm_compute; reflexivity|].
  apply (op_cache_in_range 1024).
  - apply (StaticOpCache.reachable_new 1024 2 2). vm_compute. reflexivity.
  - cbn. lia.
  - cbn. lia.
Defined.

(** [set] then [get] on a cache built by [new] and [set] calls: after
    [set(l, r, value)] for a pair below the two sizes, [get(l, r)] returns
    [value], except for [value = u16::MAX], which reads back as no result;
    [get] of every other pair below the sizes is unchanged. *)
Theorem op_cache_set_get (X : Z) (c c' : StaticOpCache.t) (l r value : Z) :
  StaticOpCache.reachable X c ->
  0 <= l < StaticOpCache.l_size c -> 0 <= r < StaticOpCache.r_size c ->
  StaticOpCache.set c l r value = Some c' ->
  StaticOpCache.get c' l r = Some (if value =? 65535 then None else Some value) /\
  StaticOpCache.contains c' l r = Some (negb (value =? 65535)) /\
  (forall l' r', 0 <= l' < StaticOpCache.l_size c -> 0 <= r' < StaticOpCache.r_size c ->
     (l', r') <> (l, r) -> StaticOpCache.get c' l' r' = StaticOpCache.get c l' r').
Proof.
  intros Hr Hl Hrr Hs. destruct (OpCacheFacts.op_cache_reachable_shape X c Hr) as (Hlen & Hx & Hm).
  destruct (OpCacheFacts.index_in_range c l r Hm Hl Hrr) as [Hi Hb].
  unfold StaticOpCache.set in Hs. rewrite Hi in Hs. cbn in Hs.
  destruct (u16_max <=? value); [discriminate|].
  destruct (length (StaticOpCache.storage c) <=? Z.to_nat (l * StaticOpCache.r_size c + r))%nat eqn:E;
    [discriminate|]. apply Nat.leb_gt in E.
  injection Hs as <-.
  unfold StaticOpCache.get, StaticOpCache.contains. unfold StaticOpCache.index. cbn [StaticOpCache.r_size StaticOpCache.l_size StaticOpCache.storage].
  fold (StaticOpCache.index c l r). rewrite Hi. cbn.
  rewrite list_lookup_insert_eq by exact E. cbn. split; [reflexivity|]. split; [reflexivity|].
  intros l' r' Hl' Hr' Hne.
  destruct (OpCacheFacts.index_in_range c l' r' Hm Hl' Hr') as [Hi' Hb'].
  fold (StaticOpCache.index c l' r'). rewrite Hi'. cbn.
  rewrite list_lookup_insert_ne; [reflexivity|].
  intros Heq. apply Hne. apply Z2Nat.inj in Heq; [|lia|lia].
  assert (l' = l) by nia. subst l'. f_equal. lia.
Qed.

Lemma op_cache_set_get_witness :
  exists c c', StaticOpCache.new 1024 2 2 = Some c /\ StaticOpCache.set c 1 0 7 = Some c' /\
  StaticOpCache.get c' 1 0 = Some (if 7 =? 65535 then None else Some 7) /\
  StaticOpCache.contains c' 1 0 = Some (negb (7 =? 65535)) /\
  (forall l' r', 0 <= l' < StaticOpCache.l_size c -> 0 <= r' < StaticOpCache.r_size c ->
     (l', r') <> (1, 0) -> StaticOpCache.get c' l' r' = StaticOpCache.get c l' r').
Proof.
  do 2 eexists. split; [vm_compute; reflexivity|]. split; [vm_compute; reflexivity|].
  apply (op_cache_set_get 1024).
  - apply (StaticOpCache.reachable_new 1024 2 2). vm_compute. reflexivity.
  - cbn. lia.
  - cbn. lia.
  - vm_compute. reflexivity.
Defined.

End U16ApplyExtras.

Module DynCacheFacts.
Import DynamicOpCache.

Lemma merge_cons_cons (x y : Z * Z) (a b : list (Z * Z)) :
  merge (x :: a) (y :: b) =
  if pair_ltb x y then x :: merge a (y :: b) else y :: merge (x :: a) b.
Proof. reflexivity. Qed.

Lemma merge_nil_r (a : list (Z * Z)) : merge a [] = a.
Proof. destruct a; reflexivity. Qed.

Lemma merge_perm (a b : list (Z * Z)) : merge a b ≡ₚ a ++ b.
Proof.
  revert b. induction a as [|x a IHa]; intros b; [reflexivity|].
  induction b as [|y b IHb]; [rewrite merge_nil_r, app_nil_r; reflexivity|].
  rewrite merge_cons_cons. destruct (pair_ltb x y).
  - cbn. constructor. apply IHa.
  - rewrite IHb. exact (Permutation_middle (x :: a) b y).
Qed.

Lemma slot_of_lt (n : nat) (l r : Z) (h : nat) : slot_of n l r = Some h -> (h < n)%nat.
Proof.
  unfold slot_of. destruct (n =? 0)%nat eqn:E; [discriminate|]. apply Nat.eqb_neq in E.
  intros H. injection H as <-.
  assert (0 <= hash l r mod Z.of_nat n < Z.of_nat n) by (apply Z.mod_pos_bound; lia). lia.
Qed.

Lemma slot_of_Some (n : nat) (l r : Z) : (0 < n)%nat -> exists h, slot_of n l r = Some h.
Proof. intros Hn. unfold slot_of. destruct (n =? 0)%nat eqn:E; [apply Nat.eqb_eq in E; lia|eauto]. Qed.

Lemma rehash_fill_spec (n : nat) (rest : list (Z * Z)) :
  forall hashes col i,
  (0 < length hashes)%nat -> (i + length rest <= n)%nat ->
  (forall h x, hashes !! h = Some x -> valid_index n x) ->
  exists hs col', rehash_fill hashes col i rest = Some (hs, col') /\
    length hs = length hashes /\ (forall h x, hs !! h = Some x -> valid_index n x).
Proof.
  induction rest as [|[l r] rest IH]; intros hashes col i Hlen Hi Hv.
  - exists hashes, col. auto.
  - cbn [rehash_fill]. destruct (slot_of_Some _ l r Hlen) as [h Hh]. rewrite Hh.
    pose proof (slot_of_lt _ _ _ _ Hh) as Hlt.
    destruct (lookup_lt_is_Some_2 _ _ Hlt) as [x Hx]. rewrite Hx.
    cbn [length] in Hi.
    destruct (IH (<[h := Z.of_nat i]> hashes) (if negb (x =? usize_MAX) then col + 1 else col) (S i))
      as (hs & col' & E & L & V).
    + rewrite length_insert. exact Hlen.
    + lia.
    + intros h' x' Hx'. apply list_lookup_insert_Some in Hx' as [(_ & <- & _)|(_ & Hx')].
      * right. lia.
      * exact (Hv _ _ Hx').
    + exists hs, col'. rewrite length_insert in L. auto.
Qed.

Lemma rehash_fill_length (rest : list (Z * Z)) :
  forall hashes col i hs col', rehash_fill hashes col i rest = Some (hs, col') -> length hs = length hashes.
Proof.
  induction rest as [|[l r] rest IH]; intros hashes col i hs col' E.
  - cbn in E. injection E as <- _. reflexivity.
  - cbn [rehash_fill] in E. destruct (slot_of _ l r) as [h|]; [|discriminate].
    destruct (hashes !! h); [|discriminate]. rewrite (IH _ _ _ _ _ E). apply length_insert.
Qed.

Lemma rehash_spec (c : t) :
  inv c ->
  exists c', rehash c = Some c' /\ items c' ≡ₚ items c /\ inv c'.
Proof.
  intros (Hl & Hv & Hk). unfold rehash.
  destruct (length (items c) <? index_after_last_sorted_entry c)%nat eqn:E;
    [apply Nat.ltb_lt in E; lia|].
  set (items' := merge _ _).
  assert (Hp : items' ≡ₚ items c).
  { unfold items'. rewrite merge_perm. unfold sort. rewrite merge_sort_Permutation.
    rewrite take_drop. reflexivity. }
  destruct (rehash_fill_spec (length items') items' (repeat usize_MAX (length (hashes c) * 2)) 0 0)
    as (hs & col & Ef & L & V).
  - rewrite Shape.length_repeat'. lia.
  - lia.
  - intros h x Hx. left. exact (proj2 (Shape.lookup_repeat_Some _ _ _ _ Hx)).
  - rewrite Ef. eexists. split; [reflexivity|]. cbn. split; [exact Hp|].
    unfold inv; cbn [hashes items index_after_last_sorted_entry].
    split; [rewrite L, Shape.length_repeat'; lia|]. split; [exact V|lia].
Qed.

Lemma rehash_perm (c c' : t) : rehash c = Some c' -> items c' ≡ₚ items c.
Proof.
  unfold rehash. destruct (length (items c) <? index_after_last_sorted_entry c)%nat eqn:E; [discriminate|].
  apply Nat.ltb_ge in E.
  destruct (rehash_fill _ _ _ _) as [[hs col]|]; [|discriminate]. intros H. injection H as <-. cbn.
  rewrite merge_perm. unfold sort. rewrite merge_sort_Permutation. rewrite take_drop. reflexivity.
Qed.

(** The shape of a successful insert: unchanged, pushed, or pushed and rehashed. *)
Lemma insert_cases (c c' : t) (l r : Z) (b : bool) :
  insert c l r = Some (c', b) ->
  (b = false /\ c' = c /\ contains c l r = Some true) \/
  (b = true /\ contains c l r = Some false /\ items c' ≡ₚ items c ++ [(l, r)] /\
   ((exists h, slot_of (length (hashes c)) l r = Some h /\
      c' = mk (items c ++ [(l, r)]) (<[h := Z.of_nat (length (items c ++ [(l, r)]) - 1)]> (hashes c))
              (collisions_since_rehash c') (index_after_last_sorted_entry c)) \/
    (exists h col, slot_of (length (hashes c)) l r = Some h /\
      rehash (mk (items c ++ [(l, r)]) (<[h := Z.of_nat (length (items c ++ [(l, r)]) - 1)]> (hashes c))
              col (index_after_last_sorted_entry c)) = Some c'))).
Proof.
  unfold insert, contains.
  destruct (slot_of (length (hashes c)) l r) as [h|] eqn:Eh; [|discriminate].
  destruct (hashes c !! h) as [x|] eqn:Ex; [|discriminate].
  destruct (x =? usize_MAX) eqn:Em.
  - intros H. right.
    destruct (Z.shiftr _ 2 <? collisions_since_rehash c).
    + destruct (rehash _) as [c''|] eqn:Er; [|discriminate]. injection H as <- <-.
      split; [reflexivity|]. split; [reflexivity|]. split; [exact (rehash_perm _ _ Er)|].
      right. eauto.
    + injection H as <- <-. split; [reflexivity|]. split; [reflexivity|].
      split; [reflexivity|]. left. eauto.
  - destruct (items c !! Z.to_nat x) as [item|] eqn:Ei; [|discriminate].
    destruct (pair_eqb item (l, r)) eqn:Eq.
    + intros H. injection H as <- <-. left. auto.
    + intros H. right.
      destruct (Z.shiftr _ 2 <? collisions_since_rehash c + 1).
      * destruct (rehash _) as [c''|] eqn:Er; [|discriminate]. injection H as <- <-.
        split; [reflexivity|]. split; [reflexivity|]. split; [exact (rehash_perm _ _ Er)|].
        right. eauto.
      * injection H as <- <-. split; [reflexivity|]. split; [reflexivity|].
        split; [reflexivity|]. left. eauto.
Qed.

Lemma dyn_insert_inv (c : t) (l r : Z) :
  inv c -> exists c' b, insert c l r = Some (c', b) /\ inv c'.
Proof.
  intros I. pose proof I as (Hl & Hv & Hk).
  destruct (slot_of_Some _ l r Hl) as [h Hh]. pose proof (slot_of_lt _ _ _ _ Hh) as Hlt.
  destruct (lookup_lt_is_Some_2 _ _ Hlt) as [x Hx].
  set (c1 := fun col => mk (items c ++ [(l, r)])
               (<[h := Z.of_nat (length (items c ++ [(l, r)]) - 1)]> (hashes c)) col
               (index_after_last_sorted_entry c)).
  assert (I1 : forall col, inv (c1 col)).
  { intros col. unfold c1, inv. cbn. rewrite length_insert, length_app. cbn.
    split; [exact Hl|]. split; [|lia].
    intros h' x' Hx'. apply list_lookup_insert_Some in Hx' as [(_ & <- & _)|(_ & Hx')].
    - right. rewrite ?length_app. cbn. lia.
    - destruct (Hv _ _ Hx') as [E|E]; [left; exact E|right; lia]. }
  unfold insert. rewrite Hh, Hx. cbv zeta.
  destruct (x =? usize_MAX) eqn:Em.
  - destruct (Z.shiftr _ 2 <? collisions_since_rehash c).
    + destruct (rehash_spec _ (I1 (collisions_since_rehash c))) as (c'' & Er & _ & I'').
      cbv beta delta [c1] in Er. rewrite Er. eauto.
    + exists (c1 (collisions_since_rehash c)), true. split; [reflexivity|apply I1].
  - destruct (Hv _ _ Hx) as [E|[E1 E2]]; [apply Z.eqb_neq in Em; contradiction|].
    destruct (lookup_lt_is_Some_2 _ _ E2) as [item Hi]. rewrite Hi.
    destruct (pair_eqb item (l, r)); [eauto|].
    destruct (Z.shiftr _ 2 <? collisions_since_rehash c + 1).
    + destruct (rehash_spec _ (I1 (collisions_since_rehash c + 1))) as (c'' & Er & _ & I'').
      cbv beta delta [c1] in Er. rewrite Er. eauto.
    + exists (c1 (collisions_since_rehash c + 1)), true. split; [reflexivity|apply I1].
Qed.

Lemma reachable_inv (cap : nat) (keys : list (Z * Z)) (c : t) :
  reachable cap keys c -> (0 < cap)%nat ->
  inv c /\ forall item, In item (items c) -> In item keys.
Proof.
  induction 1 as [|keys c c' l r b _ IH Hi]; intros Hcap.
  - split; [|intros item []]. unfold inv, new. cbn. rewrite Shape.length_repeat'.
    split; [exact Hcap|]. split; [|lia].
    intros h x Hx. left. exact (proj2 (Shape.lookup_repeat_Some _ _ _ _ Hx)).
  - destruct (IH Hcap) as [I Hk]. split.
    + destruct (dyn_insert_inv c l r I) as (c'' & b' & E & I'). rewrite Hi in E.
      injection E as <- _. exact I'.
    + intros item Hin. destruct (insert_cases _ _ _ _ _ Hi) as [(_ & -> & _)|(_ & _ & Hp & _)].
      * right. exact (Hk _ Hin).
      * rewrite Hp in Hin. apply in_app_or in Hin as [Hin|[<-|[]]]; [right; exact (Hk _ Hin)|left; reflexivity].
Qed.

Lemma contains_inv (c : t) (l r : Z) : inv c -> exists b, contains c l r = Some b.
Proof.
  intros (Hl & Hv & _). unfold contains.
  destruct (slot_of_Some _ l r Hl) as [h Hh]. rewrite Hh.
  destruct (lookup_lt_is_Some_2 _ _ (slot_of_lt _ _ _ _ Hh)) as [x Hx]. rewrite Hx.
  destruct (x =? usize_MAX) eqn:Em; [eauto|].
  destruct (Hv _ _ Hx) as [E|[E1 E2]]; [apply Z.eqb_neq in Em; contradiction|].
  destruct (lookup_lt_is_Some_2 _ _ E2) as [item Hi]. rewrite Hi. eauto.
Qed.

Lemma contains_true_in (c : t) (l r : Z) : contains c l r = Some true -> In (l, r) (items c).
Proof.
  unfold contains. destruct (slot_of _ l r) as [h|]; [|discriminate].
  destruct (hashes c !! h) as [x|]; [|discriminate].
  destruct (x =? usize_MAX); [discriminate|].
  destruct (items c !! Z.to_nat x) as [[a b]|] eqn:Ei; [|discriminate].
  intros H. injection H as H. unfold pair_eqb in H. cbn in H.
  apply andb_prop in H as [H1 H2]. apply Z.eqb_eq in H1, H2. subst.
  exact (proj1 (list_elem_of_In _ _) (list_elem_of_lookup_2 _ _ _ Ei)).
Qed.

End DynCacheFacts.

Module DynamicOpCacheExtras.
Import DynamicOpCache.

(** On a cache built by [new(capacity)] with [capacity > 0] and inserts,
    [contains] and [insert] never panic: every slot of [hashes] is empty or
    points inside [items], and [rehash] keeps it so. *)
Theorem dyn_cache_never_panics (cap : nat) (keys : list (Z * Z)) (c : t) (l r : Z) :
  reachable cap keys c -> (0 < cap)%nat ->
  (exists b, contains c l r = Some b) /\ (exists c' b, insert c l r = Some (c', b)).
Proof.
  intros Hr Hcap. destruct (DynCacheFacts.reachable_inv cap keys c Hr Hcap) as [I _].
  split; [exact (DynCacheFacts.contains_inv c l r I)|].
  destruct (DynCacheFacts.dyn_insert_inv c l r I) as (c' & b & E & _). eauto.
Qed.

Lemma dyn_cache_never_panics_witness :
  (exists b, contains (new 4) 1 2 = Some b) /\ (exists c' b, insert (new 4) 1 2 = Some (c', b)).
Proof.
  apply (dyn_cache_never_panics 4 [] (new 4) 1 2); [apply reachable_new | lia].
Defined.

(** [DynamicOpCache] has no false positive: on a cache built by [new] and
    inserts, [contains(l, r)] is true only for a pair that was inserted
    (the stored pair is compared in full). *)
Theorem dyn_cache_no_false_positive (cap : nat) (keys : list (Z * Z)) (c : t) (l r : Z) :
  reachable cap keys c -> (0 < cap)%nat -> contains c l r = Some true -> In (l, r) keys.
Proof.
  intros Hr Hcap Hc. destruct (DynCacheFacts.reachable_inv cap keys c Hr Hcap) as [_ Hk].
  exact (Hk _ (DynCacheFacts.contains_true_in c l r Hc)).
Qed.

Lemma dyn_cache_no_false_positive_witness :
  exists c, insert (new 4) 1 2 = Some (c, true) /\ contains c 1 2 = Some true /\ In (1, 2) [(1, 2)].
Proof.
  eexists. split; [vm_compute; reflexivity|].
  match goal with
  | |- contains ?c _ _ = _ /\ _ =>
      split; [vm_compute; reflexivity|]; apply (dyn_cache_no_false_positive 4 [(1, 2)] c 1 2)
  end.
  - apply (reachable_insert 4 [] (new 4) _ 1 2 true); [apply reachable_new | vm_compute; reflexivity].
  - lia.
  - vm_compute. reflexivity.
Defined.

(** The result of [insert(l, r)]: it is [false] exactly when [contains(l, r)]
    already held, and then the cache is left unchanged; when it is [true],
    the pair was pushed and [len()] grows by one (a [rehash] reorders the
    items but keeps them all). *)
Theorem dyn_cache_insert_result (c c' : t) (l r : Z) (b : bool) :
  insert c l r = Some (c', b) ->
  (b = false <-> contains c l r = Some true) /\
  (b = false -> c' = c) /\
  (b = true -> items c' ≡ₚ items c ++ [(l, r)] /\ len c' = S (len c)).
Proof.
  intros Hi. unfold len.
  destruct (DynCacheFacts.insert_cases _ _ _ _ _ Hi) as [(-> & -> & Hc)|(-> & Hc & Hp & _)].
  - split; [split; auto|]. split; [auto|discriminate].
  - split; [split; [discriminate|rewrite Hc; discriminate]|]. split; [discriminate|].
    intros _. split; [exact Hp|]. rewrite (Permutation_length Hp), length_app. cbn. lia.
Qed.

Lemma dyn_cache_insert_result_witness :
  exists c', insert (new 4) 1 2 = Some (c', true) /\
  (true = false <-> contains (new 4) 1 2 = Some true) /\
  (true = false -> c' = new 4) /\
  (true = true -> items c' ≡ₚ items (new 4) ++ [(1, 2)] /\ len c' = S (len (new 4))).
Proof.
  eexists. split; [vm_compute; reflexivity|].
  apply (dyn_cache_insert_result (new 4)). vm_compute. reflexivity.
Defined.

End DynamicOpCacheExtras.

Module DynSortFacts.
Import DynamicOpCache.

Lemma pair_le_total : Total pair_le.
Proof.
  intros [a1 a2] [b1 b2]. unfold pair_le, pair_ltb. cbn.
  destruct (a1 <? b1) eqn:E1, (b1 <? a1) eqn:E2, (a1 =? b1) eqn:E3, (b1 =? a1) eqn:E4,
    (a2 <? b2) eqn:E5, (b2 <? a2) eqn:E6; cbn; auto;
  rewrite ?Z.ltb_lt, ?Z.ltb_ge, ?Z.eqb_eq, ?Z.eqb_neq in *; lia.
Qed.

Lemma pair_ltb_le (x y : Z * Z) : pair_ltb x y = true -> pair_le x y.
Proof.
  destruct x as [a1 a2], y as [b1 b2]. unfold pair_le, pair_ltb. cbn. intros H.
  apply orb_prop in H as [H|H].
  - apply Z.ltb_lt in H. destruct (b1 <? a1) eqn:E1; [apply Z.ltb_lt in E1; lia|].
    destruct (b1 =? a1) eqn:E2; [apply Z.eqb_eq in E2; lia|reflexivity].
  - apply andb_prop in H as [H1 H2]. apply Z.eqb_eq in H1. apply Z.ltb_lt in H2. subst.
    rewrite Z.ltb_irrefl, Z.eqb_refl. cbn. apply Z.ltb_ge. lia.
Qed.

Lemma merge_hd (z : Z * Z) (a b : list (Z * Z)) :
  HdRel pair_le z a -> HdRel pair_le z b -> HdRel pair_le z (merge a b).
Proof.
  intros Ha Hb. destruct a as [|x a]; [exact Hb|]. destruct b as [|y b]; [rewrite DynCacheFacts.merge_nil_r; exact Ha|].
  rewrite DynCacheFacts.merge_cons_cons. destruct (pair_ltb x y).
  - constructor. inversion Ha. assumption.
  - constructor. inversion Hb. assumption.
Qed.

Lemma merge_sorted (a b : list (Z * Z)) :
  Sorted pair_le a -> Sorted pair_le b -> Sorted pair_le (merge a b).
Proof.
  revert b. induction a as [|x a IHa]; intros b Ha Hb; [exact Hb|].
  induction b as [|y b IHb]; [rewrite DynCacheFacts.merge_nil_r; exact Ha|].
  rewrite DynCacheFacts.merge_cons_cons. destruct (pair_ltb x y) eqn:E.
  - apply Sorted_inv in Ha as [Ha Hxa]. constructor.
    + apply IHa; assumption.
    + apply merge_hd; [exact Hxa|]. constructor. apply pair_ltb_le. exact E.
  - apply Sorted_inv in Hb as [Hb Hyb]. constructor.
    + apply IHb. exact Hb.
    + apply merge_hd; [|exact Hyb]. constructor.
      unfold pair_le. exact E.
Qed.

Lemma rehash_sorted (c c' : t) :
  Sorted pair_le (take (index_after_last_sorted_entry c) (items c)) ->
  rehash c = Some c' ->
  Sorted pair_le (items c') /\ index_after_last_sorted_entry c' = length (items c').
Proof.
  intros Hs. unfold rehash.
  destruct (length (items c) <? index_after_last_sorted_entry c)%nat; [discriminate|].
  destruct (rehash_fill _ _ _ _) as [[hs col]|]; [|discriminate]. intros H. injection H as <-. cbn.
  split; [|reflexivity]. apply merge_sorted; [exact Hs|].
  unfold sort. apply Sorted_merge_sort. exact pair_le_total.
Qed.

End DynSortFacts.

Module DynamicOpCacheSortExtras.
Import DynamicOpCache.

(** On a cache built by [new] and inserts, the items before
    [index_after_last_sorted_entry] are in ascending order, and that index
    stays within [items]: [rehash] sorts the new items and merges them with
    the sorted ones. *)
Theorem dyn_cache_sorted_prefix (cap : nat) (keys : list (Z * Z)) (c : t) :
  reachable cap keys c ->
  (index_after_last_sorted_entry c <= length (items c))%nat /\
  Sorted pair_le (take (index_after_last_sorted_entry c) (items c)).
Proof.
  induction 1 as [|keys c c' l r b _ [IHk IHs] Hi].
  - cbn. split; [lia|constructor].
  - destruct (DynCacheFacts.insert_cases _ _ _ _ _ Hi)
      as [(_ & -> & _)|(_ & _ & _ & [(h & _ & ->)|(h & col & _ & Er)])].
    + split; assumption.
    + cbn. rewrite length_app. split; [lia|]. rewrite take_app_le by lia. exact IHs.
    + apply DynSortFacts.rehash_sorted in Er as [Hs Hk];
        [|cbn; rewrite take_app_le by lia; exact IHs].
      rewrite Hk, take_ge by lia. split; [lia|exact Hs].
Qed.

Lemma dyn_cache_sorted_prefix_witness :
  exists c, insert (new 4) 1 2 = Some (c, true) /\
  (index_after_last_sorted_entry c <= length (items c))%nat /\
  Sorted pair_le (take (index_after_last_sorted_entry c) (items c)).
Proof.
  eexists. split; [vm_compute; reflexivity|].
  apply (dyn_cache_sorted_prefix 4 [(1, 2)]).
  apply (reachable_insert 4 [] (new 4) _ 1 2 true); [apply reachable_new | vm_compute; reflexivity].
Defined.

End DynamicOpCacheSortExtras.

Module PushFacts.

Lemma fold_count_shift (l : list (list Node)) (a k : nat) :
  fold_left (fun count vector => (count + length vector)%nat) l (a + k)%nat =
  (fold_left (fun count vector => (count + length vector)%nat) l a + k)%nat.
Proof.
  revert a. induction l as [|y l IH]; intros a; cbn; [reflexivity|].
  rewrite <- IH. f_equal. lia.
Qed.

Lemma fold_count_insert (l : list (list Node)) (v : nat) (vector : list Node) (n : Node) :
  forall a, l !! v = Some vector ->
  fold_left (fun count vector => (count + length vector)%nat) (<[v := vector ++ [n]]> l) a =
  S (fold_left (fun count vector => (count + length vector)%nat) l a).
Proof.
  revert v. induction l as [|x l IH]; intros v a Hv; [discriminate|].
  destruct v as [|v]; cbn in Hv |- *.
  - injection Hv as ->. rewrite length_app. cbn.
    rewrite Nat.add_assoc, (fold_count_shift l _ 1). lia.
  - apply IH. exact Hv.
Qed.

End PushFacts.

Module BddExtras.

(** [Bdd::push_node(variable, node)] appends [node] to the vector of
    [variable] and returns its pointer: the pointer decodes to [variable],
    [Bdd::node] at its index returns [node], every other node is unchanged,
    and [node_count] grows by one. *)
Theorem push_node_then_node (b b' : Bdd) (v : VariableId) (n : Node) (p : NodePointer) :
  0 <= v < 64 -> Bdd.push_node b v n = Some (b', p) ->
  NodePointer.variable_id p = v /\
  Bdd.node b' v (NodePointer.node_index p) = Some n /\
  (forall w i, 0 <= w -> 0 <= i -> (w, i) <> (v, NodePointer.node_index p) ->
     Bdd.node b' w i = Bdd.node b w i) /\
  Bdd.node_count b' = S (Bdd.node_count b).
Proof.
  intros Hv Hpush.
  destruct (ApplyFacts.push_node_nodes b b' v n p Hpush) as (vector & Hvec & Hb' & Hnew).
  destruct (NewFacts.new_decode v _ p Hv Hnew) as (_ & Hvar & Hidx).
  pose proof (lookup_lt_Some _ _ _ Hvec) as Hlt.
  split; [exact Hvar|]. split; [|split].
  - unfold Bdd.node. rewrite Hb', list_lookup_insert_eq by exact Hlt. cbn.
    rewrite Hidx, Nat2Z.id, lookup_app_r by lia. rewrite Nat.sub_diag. reflexivity.
  - intros w i Hw Hi Hne. unfold Bdd.node. rewrite Hb'.
    destruct (decide (Z.to_nat w = Z.to_nat v)) as [E|E].
    + rewrite E, list_lookup_insert_eq by exact Hlt. rewrite Hvec. cbn.
      assert (w = v) by lia. subst w.
      destruct (decide (Z.to_nat i < length vector)%nat) as [L|L].
      * apply lookup_app_l. exact L.
      * rewrite lookup_app_r by lia. rewrite (lookup_ge_None_2 vector (Z.to_nat i)) by lia.
        assert (Z.to_nat i <> length vector) by (intros E'; apply Hne; f_equal; rewrite Hidx; lia).
        destruct (Z.to_nat i - length vector)%nat eqn:D; [lia|]. reflexivity.
    + rewrite list_lookup_insert_ne by congruence. reflexivity.
  - unfold Bdd.node_count. rewrite Hb', (PushFacts.fold_count_insert _ _ _ _ 0 Hvec). lia.
Qed.

Lemma push_node_then_node_witness :
  exists b' p, Bdd.push_node (Bdd.mk_blank false) 3 (0, 32768) = Some (b', p) /\
  NodePointer.variable_id p = 3 /\
  Bdd.node b' 3 (NodePointer.node_index p) = Some (0, 32768) /\
  (forall w i, 0 <= w -> 0 <= i -> (w, i) <> (3, NodePointer.node_index p) ->
     Bdd.node b' w i = Bdd.node (Bdd.mk_blank false) w i) /\
  Bdd.node_count b' = S (Bdd.node_count (Bdd.mk_blank false)).
Proof.
  do 2 eexists. split; [vm_compute; reflexivity|].
  apply (push_node_then_node (Bdd.mk_blank false) _ 3 (0, 32768)); [lia | vm_compute; reflexivity].
Defined.

End BddExtras.
